(** * Reverse-mode automatic differentiation tape of Enoki

    A shallow embedding of [src/autodiff/autodiff.cpp]: the node store, the
    per-node edge lists, the graph constructor with edge contraction and edge
    merging, reference counting, the scheduler ([set_gradient], [dfs]) and the
    reverse sweep ([backward]).

    Conventions of the embedding.
    - [Index] is [uint32_t]; it is modelled by [N] and every increment is
      written with its wrap-around modulo [2^32].
    - The tape is instantiated at a dynamic array type
      ([DynamicArray<Packet<float>>]), the instantiation that has sizes,
      broadcasting and horizontal sums; an array is the list of its lanes.
    - The file is the release build ([NDEBUG]): [assert] and the logging
      under [#if !defined(NDEBUG)] are compiled out, and the one message
      [backward] prints to [std::cerr] changes no state.
    - A C++ exception leaves the state as it was at the [throw]; a result is
      therefore either [Ok] or [Throw], each with the state reached.
    - Recursive functions of the source take a fuel argument here; the entry
      points supply enough of it, and [OutOfFuel] stands for a recursion that
      the source would not leave. *)

From Stdlib Require Import ZArith NArith List String Bool Lia.
From Stdlib Require Import Floats.SpecFloat.
From stdpp Require Import gmap sets list strings sorting.

Local Open Scope N_scope.

(** ** The value contract *)

(** The scalar type of a lane ([scalar_t<Value>]): the operations the tape
    uses on it.  [s_eq] is the comparison [==] of the scalar type. *)
Class Scalar (T : Type) := {
  s_zero : T;
  s_one : T;
  s_add : T -> T -> T;
  s_mul : T -> T -> T;
  s_fmadd : T -> T -> T -> T;
  s_eq : T -> T -> bool
}.

(** Exact integer arithmetic: lanes without rounding. *)
#[export] Instance Z_Scalar : Scalar Z := {|
  s_zero := 0%Z; s_one := 1%Z;
  s_add := Z.add; s_mul := Z.mul;
  s_fmadd := fun a b c => (a * b + c)%Z;
  s_eq := Z.eqb
|}.

(** [fmadd] on [float] lanes is the fused multiply-add of the packets
    ([_mm512_fmadd_round_ps] in [array_avx512.h]): the product of two finite
    numbers is not rounded, the sum is rounded once.  An infinite or [nan]
    addend gives itself and a zero addend the rounded product; the product
    of a zero or an infinity is exact. *)
Definition SFfma (x y z : spec_float) : spec_float :=
  match x, y with
  | S754_finite sx mx ex, S754_finite sy my ey =>
    match z with
    | S754_finite _ _ _ =>
      SFadd 24 128 (S754_finite (xorb sx sy) (mx * my) (ex + ey)) z
    | S754_zero _ => SFmul 24 128 x y
    | S754_infinity _ | S754_nan => z
    end
  | _, _ => SFadd 24 128 (SFmul 24 128 x y) z
  end.

(** IEEE 754 binary32 lanes ([float]), with signed zeros, infinities and
    [nan]. *)
#[export] Instance float_Scalar : Scalar spec_float := {|
  s_zero := S754_zero false;
  s_one := S754_finite false 8388608 (-23);
  s_add := SFadd 24 128;
  s_mul := SFmul 24 128;
  s_fmadd := SFfma;
  s_eq := SFeqb
|}.

Module Arr.
(** Modelled from the spec: the dynamic array layer ([enoki/dynamic.h],
    [enoki/array_generic.h]) is not under src/.  An array is the list of its
    lanes; an operand of size 1 is broadcast to the size of the other one. *)

Definition bcast2 {A B C} (f : A -> B -> C) (a : list A) (b : list B) : list C :=
  match a, b with
  | [x], _ => map (f x) b
  | _, [y] => map (fun x => f x y) a
  | _, _ => zip_with f a b
  end.

(** Lane [i] of an array used as an operand: a size-1 array is read at lane 0
    for every [i]. *)
Definition blane {A} (v : list A) (i : nat) : option A :=
  match v with
  | [x] => Some x
  | _ => v !! i
  end.

(** Operands that may meet in one lane-wise operation. *)
Definition compat {A B} (a : list A) (b : list B) : Prop :=
  length a = 1%nat \/ length b = 1%nat \/ length a = length b.

Definition vsize {A} (v : list A) : N := N.of_nat (length v).

Section Ops.
Context {T : Type} `{Scalar T}.

Definition scalar (x : T) : list T := [x].
Definition full (x : T) (size : N) : list T := replicate (N.to_nat size) x.
Definition zero (size : N) : list T := full s_zero size.

Definition vadd : list T -> list T -> list T := bcast2 s_add.
Definition vmul : list T -> list T -> list T := bcast2 s_mul.
Definition fmadd (a b c : list T) : list T :=
  bcast2 (fun ab z => s_fmadd (fst ab) (snd ab) z) (bcast2 pair a b) c.
Definition eq (a b : list T) : list bool := bcast2 s_eq a b.
Definition mor : list bool -> list bool -> list bool := bcast2 orb.
Definition select {A} (m : list bool) (a b : list A) : list A :=
  bcast2 (fun c xy => if c : bool then fst xy else snd xy) m (bcast2 pair a b).

(** Horizontal sum: a scalar-shaped array. *)
Definition hsum (v : list T) : list T := [foldr s_add s_zero v].

(** [gather(buf, offset, mask)]: lane [i] reads [buf[offset[i]]] where the
    mask is set and is zero elsewhere.  An offset outside the buffer is
    undefined behaviour in the source and reads zero here. *)
Definition gather (buf : list T) (offset : list Z) (mask : list bool) : list T :=
  bcast2 (fun o (m : bool) =>
            if m then (if (0 <=? o)%Z then default s_zero (buf !! Z.to_nat o)
                       else s_zero)
            else s_zero) offset mask.

(** One masked store into lane [o] of [buf], combined with the old lane by
    [op]; outside the buffer (undefined behaviour in the source) nothing is
    stored. *)
Definition store (op : T -> T -> T) (buf : list T) (o : Z) (x : T) : list T :=
  if (0 <=? o)%Z then alter (fun old => op old x) (Z.to_nat o) buf else buf.

Definition scatter_with (op : T -> T -> T) (buf src : list T)
    (offset : list Z) (mask : list bool) : list T :=
  foldl (fun b (l : Z * (bool * T)) =>
           if fst (snd l) then store op b (fst l) (snd (snd l)) else b)
        buf (bcast2 pair offset (bcast2 pair mask src)).

(** [scatter(buf, src, offset, mask)]: lanes are stored in order, a later
    lane overwrites an earlier one at the same offset. *)
Definition scatter : list T -> list T -> list Z -> list bool -> list T :=
  scatter_with (fun _ x => x).

Definition scatter_add : list T -> list T -> list Z -> list bool -> list T :=
  scatter_with s_add.

End Ops.
End Arr.

(** ** [safe_mul] and [safe_fmadd] *)

Section Safe.
Context {T : Type} `{Scalar T}.

Definition safe_mul (value1 value2 : list T) : list T :=
  let tentative := Arr.vmul value1 value2 in
  let zero := Arr.scalar s_zero in
  let is_zero := Arr.mor (Arr.eq value1 zero) (Arr.eq value2 zero) in
  Arr.select is_zero zero tentative.

Definition safe_fmadd (value1 value2 value3 : list T) : list T :=
  let tentative := Arr.fmadd value1 value2 value3 in
  let zero := Arr.scalar s_zero in
  let is_zero := Arr.mor (Arr.eq value1 zero) (Arr.eq value2 zero) in
  Arr.select is_zero value3 tentative.

End Safe.

(** ** Data model *)

Abbreviation Index := N (only parsing).

(** [uint32_t] arithmetic. *)
Definition wrap32 (x : N) : N := x mod 2 ^ 32.

(** The pull-back objects ([Special]): [Gather] is the local struct of
    [append_gather]; [Scatter] is the local struct of [append_scatter] and of
    [append_scatter_add], which are the same. *)
Inductive Special :=
  | Gather (offset : list Z) (mask : list bool) (size : N) (permute : bool)
  | Scatter (offset : list Z) (mask : list bool).

Record Edge (T : Type) := mkEdge {
  source : Index;
  weight : list T;
  special : option Special
}.
Arguments mkEdge {T}.
Arguments source {T}.
Arguments weight {T}.
Arguments special {T}.

(** A node; [edges] is the linked list from its head, each edge followed by
    its [next]. *)
Record Node (T : Type) := mkNode {
  label : string;
  grad : list T;
  edges : list (Edge T);
  ref_count : N;
  size : N
}.
Arguments mkNode {T}.
Arguments label {T}.
Arguments grad {T}.
Arguments edges {T}.
Arguments ref_count {T}.
Arguments size {T}.

(** [scatter_gather_index] is a pointer into the caller's storage: [None] is
    [nullptr], [Some i] a pointer to a slot that holds [i]. *)
Record Detail (T : Type) := mkDetail {
  node_counter : Index;
  node_counter_last : Index;
  edge_contractions : Index;
  edge_contractions_last : Index;
  edge_merges : Index;
  edge_merges_last : Index;
  nodes : gmap N (Node T);
  prefix : list string;
  scatter_gather_index : option Index;
  scatter_gather_size : N;
  scatter_gather_permute : bool;
  log_level : N;
  contract_edges : bool;
  scheduled : gset N
}.
Arguments mkDetail {T}.
Arguments node_counter {T}.
Arguments node_counter_last {T}.
Arguments edge_contractions {T}.
Arguments edge_contractions_last {T}.
Arguments edge_merges {T}.
Arguments edge_merges_last {T}.
Arguments nodes {T}.
Arguments prefix {T}.
Arguments scatter_gather_index {T}.
Arguments scatter_gather_size {T}.
Arguments scatter_gather_permute {T}.
Arguments log_level {T}.
Arguments contract_edges {T}.
Arguments scheduled {T}.

Inductive error :=
  | UnknownNode (index : Index)
  | UseAfterFree (index : Index)
  | NoGradient
  | PrefixUnderflow.

Inductive result (S A : Type) :=
  | Ok (a : A) (s : S)
  | Throw (e : error) (s : S)
  | OutOfFuel.
Arguments Ok {S A}.
Arguments Throw {S A}.
Arguments OutOfFuel {S A}.

(** Computations on a state [S] that return, throw, or do not end. *)
Definition ret {S A} (a : A) : S -> result S A := fun d => Ok a d.
Definition throw {S A} (e : error) : S -> result S A := fun d => Throw e d.
Definition bind {S A B} (m : S -> result S A) (k : A -> S -> result S B)
    : S -> result S B :=
  fun d => match m d with
           | Ok a d' => k a d'
           | Throw e d' => Throw e d'
           | OutOfFuel => OutOfFuel
           end.

Declare Scope tape_scope.
Notation "'let*' x := m 'in' k" := (bind m (fun x => k))
  (at level 10, x name, m at level 100, k at level 200) : tape_scope.
Notation "m ;; k" := (bind m (fun _ => k))
  (at level 100, k at level 200, right associativity) : tape_scope.
Open Scope tape_scope.

Fixpoint for_each {S A} (f : A -> S -> result S unit) (l : list A)
    : S -> result S unit :=
  match l with
  | [] => ret tt
  | x :: l' => f x ;; for_each f l'
  end.

Definition when {S} (b : bool) (m : S -> result S unit) : S -> result S unit :=
  if b then m else ret tt.

Section Tape.
Context {T : Type} `{Scalar T}.

Local Abbreviation Value := (list T).
Local Abbreviation M A := (Detail T -> result (Detail T) A).

(** *** Field updates *)

Definition set_nodes (m : gmap N (Node T)) (d : Detail T) : Detail T :=
  mkDetail (node_counter d) (node_counter_last d) (edge_contractions d)
    (edge_contractions_last d) (edge_merges d) (edge_merges_last d) m
    (prefix d) (scatter_gather_index d) (scatter_gather_size d)
    (scatter_gather_permute d) (log_level d) (contract_edges d) (scheduled d).

Definition set_scheduled (s : gset N) (d : Detail T) : Detail T :=
  mkDetail (node_counter d) (node_counter_last d) (edge_contractions d)
    (edge_contractions_last d) (edge_merges d) (edge_merges_last d) (nodes d)
    (prefix d) (scatter_gather_index d) (scatter_gather_size d)
    (scatter_gather_permute d) (log_level d) (contract_edges d) s.

Definition set_node_counter (c : Index) (d : Detail T) : Detail T :=
  mkDetail c (node_counter_last d) (edge_contractions d)
    (edge_contractions_last d) (edge_merges d) (edge_merges_last d) (nodes d)
    (prefix d) (scatter_gather_index d) (scatter_gather_size d)
    (scatter_gather_permute d) (log_level d) (contract_edges d) (scheduled d).

Definition set_edge_contractions (c : Index) (d : Detail T) : Detail T :=
  mkDetail (node_counter d) (node_counter_last d) c
    (edge_contractions_last d) (edge_merges d) (edge_merges_last d) (nodes d)
    (prefix d) (scatter_gather_index d) (scatter_gather_size d)
    (scatter_gather_permute d) (log_level d) (contract_edges d) (scheduled d).

Definition set_edge_merges (c : Index) (d : Detail T) : Detail T :=
  mkDetail (node_counter d) (node_counter_last d) (edge_contractions d)
    (edge_contractions_last d) c (edge_merges_last d) (nodes d)
    (prefix d) (scatter_gather_index d) (scatter_gather_size d)
    (scatter_gather_permute d) (log_level d) (contract_edges d) (scheduled d).

Definition set_last (d : Detail T) : Detail T :=
  mkDetail (node_counter d) (node_counter d) (edge_contractions d)
    (edge_contractions d) (edge_merges d) (edge_merges d) (nodes d)
    (prefix d) (scatter_gather_index d) (scatter_gather_size d)
    (scatter_gather_permute d) (log_level d) (contract_edges d) (scheduled d).

Definition set_prefix (p : list string) (d : Detail T) : Detail T :=
  mkDetail (node_counter d) (node_counter_last d) (edge_contractions d)
    (edge_contractions_last d) (edge_merges d) (edge_merges_last d) (nodes d)
    p (scatter_gather_index d) (scatter_gather_size d)
    (scatter_gather_permute d) (log_level d) (contract_edges d) (scheduled d).

Definition set_operand (i : option Index) (sz : N) (p : bool) (d : Detail T)
    : Detail T :=
  mkDetail (node_counter d) (node_counter_last d) (edge_contractions d)
    (edge_contractions_last d) (edge_merges d) (edge_merges_last d) (nodes d)
    (prefix d) i sz p (log_level d) (contract_edges d) (scheduled d).

Definition set_grad (g : Value) (n : Node T) : Node T :=
  mkNode (label n) g (edges n) (ref_count n) (size n).
Definition set_edges (es : list (Edge T)) (n : Node T) : Node T :=
  mkNode (label n) (grad n) es (ref_count n) (size n).
Definition set_ref_count (c : N) (n : Node T) : Node T :=
  mkNode (label n) (grad n) (edges n) c (size n).
Definition set_node_label (s : string) (n : Node T) : Node T :=
  mkNode s (grad n) (edges n) (ref_count n) (size n).
Definition set_weight (w : Value) (e : Edge T) : Edge T :=
  mkEdge (source e) w (special e).
Definition set_special (s : option Special) (e : Edge T) : Edge T :=
  mkEdge (source e) (weight e) s.

(** The tape as [Tape()] makes it: [new Detail()]; the log level is that of
    the release build. *)
Definition empty_tape : Detail T :=
  mkDetail 1 1 0 0 0 0 ∅ [] None 0 false 0 true ∅.

(** *** [Node] and [Edge] members *)

Definition is_scalar (n : Node T) : bool := size n =? 1.

Definition is_special (e : Edge T) : bool :=
  match special e with Some _ => true | None => false end.

(** [degree] counts the edges in an [Index]. *)
Definition degree (n : Node T) : Index :=
  foldl (fun result _ => wrap32 (result + 1)) 0 (edges n).

Definition has_special (n : Node T) : bool :=
  foldl (fun result e => result || is_special e) false (edges n).

(** [Node::append_edge]: the new edge is linked behind the last one. *)
Definition node_append_edge (e : Edge T) (n : Node T) : Node T :=
  set_edges (edges n ++ [e]) n.

(** [Node(size, label)]: [grad] is default-constructed (an empty array) and
    [size] is cast to [uint32_t]. *)
Definition new_node (sz : N) (l : string) : Node T :=
  mkNode l [] [] 0 (wrap32 sz).

(** *** [Detail] members *)

Definition node (index : Index) : M (Node T) := fun d =>
  match nodes d !! index with
  | Some n => Ok n d
  | None => Throw (UnknownNode index) d
  end.

(** A write through a [Node &] obtained from [node(index)]. *)
Definition modify_node (index : Index) (f : Node T -> Node T) : M unit :=
  fun d =>
  match nodes d !! index with
  | Some n => Ok tt (set_nodes (<[index := f n]> (nodes d)) d)
  | None => Throw (UnknownNode index) d
  end.

Fixpoint dfs_fuel (fuel : nat) (k : Index) (clear_grad : bool) : M unit :=
  match fuel with
  | O => fun _ => OutOfFuel
  | S fuel' => fun d =>
    if decide (k ∈ scheduled d) then Ok tt d
    else
      (let* n := node k in
       when clear_grad (modify_node k (set_grad (Arr.zero (size n)))) ;;
       for_each (fun edge => dfs_fuel fuel' (source edge) clear_grad) (edges n))
      (set_scheduled ({[k]} ∪ scheduled d) d)
  end.

(** Each level of the recursion schedules a node of the store that was not
    scheduled, or stops. *)
Definition dfs (k : Index) (clear_grad : bool) : M unit := fun d =>
  dfs_fuel (S (base.size (nodes d))) k clear_grad d.

(** *** Reference counting *)

Definition inc_ref (index : Index) : M unit :=
  if decide (index = 0) then ret tt
  else modify_node index (fun n => set_ref_count (wrap32 (ref_count n + 1)) n).

(** [free_node], over the [dec_ref] it calls on the sources of the edges. *)
Definition free_node_with (dec_ref : Index -> M unit) (index : Index) : M unit :=
  fun d =>
  match nodes d !! index with
  | None => Throw (UnknownNode index) d
  | Some n =>
    (for_each (fun edge => dec_ref (source edge)) (edges n) ;;
     fun d' => Ok tt (set_nodes (delete index (nodes d')) d')) d
  end.

Fixpoint dec_ref_fuel (fuel : nat) (index : Index) : M unit :=
  match fuel with
  | O => fun _ => OutOfFuel
  | S fuel' =>
    if decide (index = 0) then ret tt
    else
      let* n := node index in
      if ref_count n =? 0 then throw (UseAfterFree index)
      else
        modify_node index (set_ref_count (ref_count n - 1)) ;;
        if ref_count n - 1 =? 0
        then free_node_with (dec_ref_fuel fuel') index
        else ret tt
  end.

(** Each nested [free_node] is for one more node whose count went to zero. *)
Definition dec_ref (index : Index) : M unit := fun d =>
  dec_ref_fuel (S (base.size (nodes d))) index d.

Definition free_node (index : Index) : M unit := free_node_with dec_ref index.

(** *** Graph constructor *)

(** [nodes.emplace] keeps an entry that is already there; the prefixes are
    put in front of the label from the innermost to the outermost. *)
Definition append_node (sz : N) (l : string) : M Index := fun d =>
  let idx := node_counter d in
  let d1 := set_node_counter (wrap32 (idx + 1)) d in
  let d2 := match nodes d1 !! idx with
            | Some _ => d1
            | None => set_nodes (<[idx := new_node sz l]> (nodes d1)) d1
            end in
  (modify_node idx (fun n =>
     set_node_label
       (foldr (fun p acc => String.append (String.append p "/") acc) (label n)
          (prefix d2)) n) ;;
   inc_ref idx ;;
   ret idx) d2.

Definition append_leaf (sz : N) : M Index :=
  let* idx := append_node sz "'unnamed'" in
  let* n := node idx in
  modify_node idx (set_grad (Arr.zero (size n))) ;;
  ret idx.

(** The walk over [target.edges] that looks for an edge from [source_idx] and
    rewrites the weight of the first one. *)
Fixpoint merge_edge (f : Value -> Value) (source_idx : Index)
    (es : list (Edge T)) : option (list (Edge T)) :=
  match es with
  | [] => None
  | e :: es' =>
    if decide (source e = source_idx) then Some (set_weight (f (weight e)) e :: es')
    else cons e <$> merge_edge f source_idx es'
  end.

(** The test that guards the contraction loop. *)
Definition contracts (d : Detail T) (src tgt : Node T) : bool :=
  negb (has_special src) && (size src =? size tgt) && (0 <? degree src)
  && contract_edges d.

(** The tail shared by [append_edge] and [append_edge_prod]: merge into an
    edge from the same source, or link a new edge and take a reference. *)
Definition merge_or_link (source_idx target_idx : Index) (target : Node T)
    (merged : Value -> Value) (fresh : Value) : M unit :=
  match merge_edge merged source_idx (edges target) with
  | Some es =>
    modify_node target_idx (set_edges es) ;;
    fun d => Ok tt (set_edge_merges (wrap32 (edge_merges d + 1)) d)
  | None =>
    modify_node target_idx (node_append_edge (mkEdge source_idx fresh None)) ;;
    inc_ref source_idx
  end.

(** The contraction loop [for (edge = source.edges; edge; edge = edge->next)]:
    the list of the source is walked as it is when the loop comes to each
    edge, [i] being the position reached.  Edges are linked behind the last
    one and none is unlinked while the graph is built, so the edge after
    the one at position [i] is the one at position [i + 1] of the list as
    it is after the body; an edge that the body links into the list of the
    source (the source being the target) is visited too.  The edge is read
    when the loop comes to it. *)
Fixpoint walk_edges (fuel : nat) (source_idx : Index) (i : nat)
    (body : Edge T -> M unit) : M unit :=
  match fuel with
  | O => fun _ => OutOfFuel
  | S fuel' => fun d =>
    match nodes d !! source_idx ≫= fun n => edges n !! i with
    | Some edge => (body edge ;; walk_edges fuel' source_idx (S i) body) d
    | None => Ok tt d
    end
  end.

(** A walk links at most one edge for every node of the store. *)
Definition walk_fuel (src : Node T) (d : Detail T) : nat :=
  S (length (edges src) + base.size (nodes d)).

Fixpoint append_edge_prod_fuel (fuel : nat) (source_idx target_idx : Index)
    (weight1 weight2 : Value) : M unit :=
  match fuel with
  | O => fun _ => OutOfFuel
  | S fuel' =>
    if decide (source_idx = 0) then ret tt
    else
      let* src := node source_idx in
      let* target := node target_idx in
      fun d =>
      if contracts d src target then
        walk_edges (walk_fuel src d) source_idx 0 (fun edge =>
            append_edge_prod_fuel fuel' (source edge) target_idx
              (safe_mul weight1 weight2) (weight edge) ;;
            fun d' => Ok tt (set_edge_contractions (wrap32 (edge_contractions d' + 1)) d'))
          d
      else
        merge_or_link source_idx target_idx target
          (fun w => safe_fmadd weight1 weight2 w) (safe_mul weight1 weight2) d
  end.

(** A chain of contractions passes through distinct nodes of the store. *)
Definition append_edge_prod (source_idx target_idx : Index)
    (weight1 weight2 : Value) : M unit := fun d =>
  append_edge_prod_fuel (S (base.size (nodes d))) source_idx target_idx
    weight1 weight2 d.

Definition append_edge (source_idx target_idx : Index) (w : Value) : M unit :=
  if decide (source_idx = 0) then ret tt
  else
    let* src := node source_idx in
    let* target := node target_idx in
    fun d =>
    if contracts d src target then
      walk_edges (walk_fuel src d) source_idx 0 (fun edge =>
          append_edge_prod (source edge) target_idx w (weight edge) ;;
          fun d' => Ok tt (set_edge_contractions (wrap32 (edge_contractions d' + 1)) d'))
        d
    else
      merge_or_link source_idx target_idx target (fun w0 => Arr.vadd w0 w) w d.

Definition append1 (l : string) (sz : N) (i1 : Index) (w1 : Value) : M Index :=
  if decide (i1 = 0) then ret 0
  else
    let* idx := append_node sz l in
    append_edge i1 idx w1 ;;
    ret idx.

Definition append2 (l : string) (sz : N) (i1 i2 : Index) (w1 w2 : Value)
    : M Index :=
  if decide (i1 = 0 /\ i2 = 0) then ret 0
  else
    let* idx := append_node sz l in
    append_edge i1 idx w1 ;;
    append_edge i2 idx w2 ;;
    ret idx.

Definition append3 (l : string) (sz : N) (i1 i2 i3 : Index)
    (w1 w2 w3 : Value) : M Index :=
  if decide (i1 = 0 /\ i2 = 0 /\ i3 = 0) then ret 0
  else
    let* idx := append_node sz l in
    append_edge i1 idx w1 ;;
    append_edge i2 idx w2 ;;
    append_edge i3 idx w3 ;;
    ret idx.

(** [enoki::set_label] on the gradient array names it for the tracing
    back end and leaves its lanes as they are. *)
Definition set_label (idx : Index) (l : string) : M unit :=
  if decide (idx = 0) then ret tt
  else modify_node idx (set_node_label (String.append (String.append "'" l) "'")).

(** *** Gather and scatter *)

Definition append_gather (offset : list Z) (mask : list bool) : M Index :=
  fun d =>
  match scatter_gather_index d with
  | None => Ok 0 d
  | Some src =>
    if decide (src = 0) then Ok 0 d
    else
      (let* n := node src in
       let gather := Gather offset mask (size n) (scatter_gather_permute d) in
       let* target := append_node (Arr.vsize offset) "gather" in
       modify_node target (node_append_edge (mkEdge src [] (Some gather))) ;;
       inc_ref src ;;
       ret target) d
  end.

(** The store through [scatter_gather_index]. *)
Definition write_operand (i : Index) : M unit := fun d =>
  Ok tt (set_operand (Some i) (scatter_gather_size d) (scatter_gather_permute d) d).

Definition append_scatter (src : Index) (offset : list Z) (mask : list bool)
    : M unit := fun d =>
  match scatter_gather_index d with
  | None => Ok tt d
  | Some target_orig =>
    (let s := Scatter offset mask in
     let* target_new := append_node (scatter_gather_size d) "scatter" in
     modify_node target_new (node_append_edge (mkEdge src [] (Some s))) ;;
     inc_ref src ;;
     let* target_new' :=
       (if decide (target_orig <> 0) then
          let sa_node := target_new in
          let w :=
            if negb (scatter_gather_permute d)
            then Arr.scatter (Arr.full s_one (scatter_gather_size d))
                   (Arr.scalar s_zero) offset mask
            else Arr.scalar s_one in
          let* combined := append2 "scatter_combine" (scatter_gather_size d)
                             target_new target_orig (Arr.scalar s_one) w in
          dec_ref sa_node ;;
          dec_ref target_orig ;;
          ret combined
        else ret target_new) in
     write_operand target_new') d
  end.

Definition append_scatter_add (src : Index) (offset : list Z)
    (mask : list bool) : M unit := fun d =>
  match scatter_gather_index d with
  | None => Ok tt d
  | Some target_orig =>
    (let s := Scatter offset mask in
     let* target_new := append_node (scatter_gather_size d) "scatter_add" in
     modify_node target_new (node_append_edge (mkEdge src [] (Some s))) ;;
     inc_ref src ;;
     let* target_new' :=
       (if decide (target_orig <> 0) then
          let sa_node := target_new in
          let* combined := append2 "add" (scatter_gather_size d)
                             target_new target_orig (Arr.scalar s_one)
                             (Arr.scalar s_one) in
          dec_ref sa_node ;;
          dec_ref target_orig ;;
          ret combined
        else ret target_new) in
     write_operand target_new') d
  end.

(** [Special::compute_gradients]: both arrays are looked up, the one of the
    target first. *)
Definition compute_gradients (s : Special) (target : Index) (edge : Edge T)
    : M unit :=
  let* t := node target in
  let* src := node (source edge) in
  match s with
  | Gather offset mask _ permute =>
    modify_node (source edge) (set_grad
      (if permute then Arr.scatter (grad src) (grad t) offset mask
       else Arr.scatter_add (grad src) (grad t) offset mask))
  | Scatter offset mask =>
    modify_node (source edge) (set_grad
      (Arr.vadd (grad src) (Arr.gather (grad t) offset mask)))
  end.

(** *** Prefixes, operand, gradients *)

Definition push_prefix (value : string) : M unit := fun d =>
  Ok tt (set_prefix (prefix d ++ [value]) d).

Definition pop_prefix : M unit := fun d =>
  match prefix d with
  | [] => Throw PrefixUnderflow d
  | _ => Ok tt (set_prefix (removelast (prefix d)) d)
  end.

Definition set_scatter_gather_operand (index : option Index) (sz : N)
    (permute : bool) : M unit := fun d =>
  Ok tt (set_operand index sz permute d).


Definition set_log_level (level : N) : M unit := fun d =>
  Ok tt (mkDetail (node_counter d) (node_counter_last d) (edge_contractions d)
    (edge_contractions_last d) (edge_merges d) (edge_merges_last d) (nodes d)
    (prefix d) (scatter_gather_index d) (scatter_gather_size d)
    (scatter_gather_permute d) level (contract_edges d) (scheduled d)).

Definition gradient (index : Index) : M Value :=
  if decide (index = 0) then throw NoGradient
  else let* n := node index in ret (grad n).

Definition set_gradient (index : Index) (value : Value) : M unit :=
  if decide (index = 0) then throw NoGradient
  else
    dfs index true ;;
    modify_node index (set_grad value).

(** *** The reverse sweep *)

(** The ids of an ordered set from [begin()] to [end()], and from [rbegin()]
    to [rend()], the largest first. *)
Definition ascending (s : gset N) : list Index := merge_sort N.le (elements s).
Definition descending (s : gset N) : list Index := reverse (ascending s).

(** One turn of the loop over [target.edges]; [i] is the position of the
    edge in the list.  [target.grad] is read through the reference at every
    edge. *)
Definition backward_edge (free_graph : bool) (target_idx : Index)
    (ie : nat * Edge T) : M unit :=
  let edge := snd ie in
  let source_idx := source edge in
  match special edge with
  | None =>
    let* src := node source_idx in
    let* target := node target_idx in
    modify_node source_idx
      (set_grad (safe_fmadd (weight edge) (grad target) (grad src)))
  | Some s =>
    compute_gradients s target_idx edge ;;
    when free_graph
      (modify_node target_idx (fun n =>
         set_edges (alter (set_special None) (fst ie) (edges n)) n))
  end ;;
  when free_graph (dec_ref source_idx).

Definition backward_target (free_graph : bool) (target_idx : Index) : M unit :=
  let* target := node target_idx in
  when (is_scalar target && negb (Arr.vsize (grad target) =? 1))
    (modify_node target_idx (set_grad (Arr.hsum (grad target)))) ;;
  for_each (backward_edge free_graph target_idx) (imap pair (edges target)) ;;
  when free_graph
    (modify_node target_idx (set_edges []) ;;
     dec_ref target_idx).

Definition backward (free_graph : bool) : M unit := fun d =>
  (when free_graph (for_each inc_ref (descending (scheduled d))) ;;
   for_each (backward_target free_graph) (descending (scheduled d)) ;;
   when free_graph (fun d' => Ok tt (set_last d')) ;;
   fun d' => Ok tt (set_scheduled ∅ d')) d.

(** *** Graphviz *)

(** [graphviz]: the traversal, the two loops over the scheduled ids, which
    look every one of them up, and the final [clear].  The text written to
    the stream depends on no state but the one read here and is left out. *)
Definition graphviz (indices_ : list Index) : M unit :=
  for_each (fun index => dfs index false) indices_ ;;
  (fun d => for_each (fun index => let* _ := node index in ret tt)
              (ascending (scheduled d)) d) ;;
  (fun d => for_each (fun index => let* _ := node index in ret tt)
              (ascending (scheduled d)) d) ;;
  fun d => Ok tt (set_scheduled ∅ d).

End Tape.

Arguments walk_fuel {T} src d : simpl never.

(** ** Notions used by the statements *)

(** The size of a lane-wise result from the sizes of its two operands. *)
Definition blen (n m : nat) : nat :=
  if decide (n = 1%nat) then m
  else if decide (m = 1%nat) then n else Nat.min n m.

(** The lane that [safe_mul] and [safe_fmadd] keep: [fallback] where one of
    the factors compares equal to zero, the nominal result elsewhere. *)
Definition masked {T} `{Scalar T} (x y fallback nominal : T) : T :=
  if s_eq x s_zero || s_eq y s_zero then fallback else nominal.

(** The state a computation leaves, whether it returns or throws. *)
Definition exec {S A} (m : S -> result S A) (d : S) : S :=
  match m d with
  | Ok _ d' => d'
  | Throw _ d' => d'
  | OutOfFuel => d
  end.

(** Nodes of the store that still hold a reference. *)
Definition live {T} (d : Detail T) : nat :=
  base.size (filter (fun kn : N * Node T => ref_count (snd kn) <> 0) (nodes d)).

(** A result that came to an end, in a state with at most [m] live nodes. *)
Definition res_live_le {T A} (m : nat) (r : result (Detail T) A) : Prop :=
  match r with
  | Ok _ d' | Throw _ d' => (live d' <= m)%nat
  | OutOfFuel => False
  end.

(** ** Example tapes *)

(** [x = leaf(1); y = append("mul", 1, x, 2)]: ids 1 and 2. *)
Definition tape_chain : Detail Z :=
  exec (append1 "mul" 1 1 [2%Z]) (exec (append_leaf 1) empty_tape).

(** The node [y] of [tape_chain]. *)
Definition tape_chain_y : Node Z := mkNode "mul" [] [mkEdge 1 [2%Z] None] 1 1.

(** Two leaves, ids 1 and 2, and [append("a", 1, 1, 3)], id 3. *)
Definition tape_two : Detail Z :=
  exec (append1 "a" 1 1 [3%Z])
    (exec (append_leaf 1) (exec (append_leaf 1) empty_tape)).

(** The nodes 3 and 2 of [tape_two]. *)
Definition tape_two_3 : Node Z := mkNode "a" [] [mkEdge 1 [3%Z] None] 1 1.
Definition tape_two_2 : Node Z := mkNode "'unnamed'" [0%Z] [] 1 1.

(** ** The traversal *)

(** What a visit of [dfs] does to a node. *)
Definition clear {T} `{Scalar T} (clear_grad : bool) (n : Node T) : Node T :=
  if clear_grad then set_grad (Arr.zero (size n)) n else n.

(** The state [d'] that a traversal leaves from [d]: the scheduled set has
    grown, the nodes it gained have been visited, nothing else has changed. *)
Definition dfs_post {T} `{Scalar T} (clear_grad : bool) (d d' : Detail T) : Prop :=
  scheduled d ⊆ scheduled d' /\
  d' = set_scheduled (scheduled d') (set_nodes (nodes d') d) /\
  forall j, nodes d' !! j =
    if decide (j ∈ scheduled d' /\ j ∉ scheduled d)
    then clear clear_grad <$> nodes d !! j
    else nodes d !! j.

(** Every node the traversal has scheduled is in the store and has the
    sources of all its edges scheduled. *)
Definition closed_new {T} (d d' : Detail T) : Prop :=
  forall j, j ∈ scheduled d' -> j ∉ scheduled d ->
    exists n, nodes d !! j = Some n /\
      forall e, e ∈ edges n -> source e ∈ scheduled d'.

(** Nodes of the store that are not scheduled. *)
Definition unsched {T} (d : Detail T) : nat :=
  base.size (dom (nodes d) ∖ scheduled d).

Definition dfs_result {T} `{Scalar T} (clear_grad : bool) (d : Detail T)
    (ks : list N) (r : result (Detail T) unit) : Prop :=
  match r with
  | Ok _ d' =>
    dfs_post clear_grad d d' /\ (forall k, k ∈ ks -> k ∈ scheduled d') /\
    closed_new d d'
  | Throw _ d' => dfs_post clear_grad d d'
  | OutOfFuel => False
  end.


(** [tape_chain] after [set_gradient(1, 5)]: node 1 is scheduled and holds
    the seed. *)
Definition tape_seeded : Detail Z := exec (set_gradient 1 [5%Z]) tape_chain.
(** And after [set_gradient(2, 7)] on top of it. *)
Definition tape_seeded' : Detail Z := exec (set_gradient 2 [7%Z]) tape_seeded.


(** ** Frames of the graph constructor *)

(** What the graph constructor leaves of a node: all but the edges and the
    reference count. *)
Definition shape {T} (n : Node T) : string * list T * N :=
  (label n, grad n, size n).

(** The fields of the tape that the wiring of edges does not write. *)
Definition config {T} (d : Detail T) :=
  (node_counter d, prefix d, scatter_gather_index d, scatter_gather_size d,
   scatter_gather_permute d, log_level d, contract_edges d, scheduled d,
   node_counter_last d, edge_contractions_last d, edge_merges_last d).

(** The states between which edges were wired into [tgt] only. *)
Definition edge_frame {T} (tgt : N) (d d' : Detail T) : Prop :=
  (forall k, shape <$> nodes d' !! k = shape <$> nodes d !! k) /\
  (forall k, k <> tgt -> edges <$> nodes d' !! k = edges <$> nodes d !! k) /\
  config d' = config d.

Definition frame_result {T A} (tgt : N) (d : Detail T)
    (r : result (Detail T) A) : Prop :=
  match r with
  | Ok _ d' | Throw _ d' => edge_frame tgt d d'
  | OutOfFuel => True
  end.


(** The label a new node gets under the prefixes in force. *)
Definition prefixed {T} (d : Detail T) (l : string) : string :=
  foldr (fun p acc => String.append (String.append p "/") acc) l (prefix d).

(** One leaf, id 1. *)
Definition tape_leaf : Detail Z := exec (append_leaf 1) empty_tape.

(** ** Scatter *)




(** A buffer of four lanes, id 1, installed as the operand, and a source of
    two lanes, id 2. *)
Definition tape_buffer : Detail Z :=
  exec (append_leaf 2)
    (exec (set_scatter_gather_operand (Some 1) 4 false)
       (exec (append_leaf 4) empty_tape)).


(** ** The order of the sweep *)

(** Ids are issued producer first: every edge leads to a smaller id. *)
Definition ordered {T} (d : Detail T) : Prop :=
  forall t n e, nodes d !! t = Some n -> e ∈ edges n -> source e < t.

(** Nodes may have gone and edges may have gone, none has come: what is
    left of an edge list has its sources in the order they were in. *)
Definition shrink {T} (d d' : Detail T) : Prop :=
  forall k n', nodes d' !! k = Some n' ->
    exists n, nodes d !! k = Some n /\
      (source <$> edges n') `sublist_of` (source <$> edges n).

(** Only nodes with ids up to [j] were written. *)
Definition below {T} (j : N) (d d' : Detail T) : Prop :=
  (forall k, j < k -> nodes d' !! k = nodes d !! k) /\ shrink d d'.

Definition below_result {T A} (j : N) (d : Detail T)
    (r : result (Detail T) A) : Prop :=
  match r with
  | Ok _ d' | Throw _ d' => below j d d'
  | OutOfFuel => False
  end.

(** The same for a computation that may not have ended. *)
Definition below_partial {T A} (j : N) (d : Detail T)
    (r : result (Detail T) A) : Prop :=
  match r with
  | Ok _ d' | Throw _ d' => below j d d'
  | OutOfFuel => True
  end.

(** The part of [backward] up to and including the turn of a target. *)
Definition sweep_upto {T} `{Scalar T} (free_graph : bool) (order upto : list N)
    : Detail T -> result (Detail T) unit :=
  when free_graph (for_each inc_ref order) ;;
  for_each (backward_target free_graph) upto.


(** ** The invariants of the graph *)

(** At most one edge from any source into a node. *)
Definition edges_unique {T} (d : Detail T) : Prop :=
  forall t n, nodes d !! t = Some n -> NoDup (source <$> edges n).

(** The source of every edge is in the store. *)
Definition edges_present {T} (d : Detail T) : Prop :=
  forall t n e, nodes d !! t = Some n -> e ∈ edges n ->
    is_Some (nodes d !! source e).

(** The ids in the store have been handed out by the counter. *)
Definition ids_issued {T} (d : Detail T) : Prop :=
  forall t, is_Some (nodes d !! t) -> t < node_counter d.

(** The invariants of the graph. *)
Definition wf {T} (d : Detail T) : Prop :=
  ordered d /\ edges_unique d /\ edges_present d /\ ids_issued d.

(** The number of ids of the store up to [s]. *)
Definition rank {T} (d : Detail T) (s : N) : nat :=
  base.size (filter (fun k => k <= s) (dom (nodes d))).

(** A computation that ended, on a store with the ids [D], in a state that
    has the invariants and the same ids. *)
Definition wf_result {T A} (D : gset N) (r : result (Detail T) A) : Prop :=
  match r with
  | Ok _ d' | Throw _ d' => wf d' /\ dom (nodes d') = D
  | OutOfFuel => False
  end.

(** A computation that ended in a state that has the invariants. *)
Definition wf_after {T A} (r : result (Detail T) A) : Prop :=
  match r with
  | Ok _ d' | Throw _ d' => wf d'
  | OutOfFuel => False
  end.





(** ** Pointwise tapes in exact arithmetic *)

(** Lane [i] of an array of integers, zero outside the array. *)
Definition lane (v : list Z) (i : nat) : Z := default 0%Z (v !! i).

(** The edges of a list weighted by a function of their sources, in lane
    [i]: the sum of [weight e * F (source e)]. *)
Definition esum (i : nat) (F : N -> Z) (es : list (Edge Z)) : Z :=
  foldr (fun e acc => (lane (weight e) i * F (source e) + acc)%Z) 0%Z es.


(** Edges that are no gather and no scatter and carry [n] lanes. *)
Definition plain_edges (n : nat) (es : list (Edge Z)) : Prop :=
  Forall (fun e => special e = None /\ length (weight e) = n) es.

(** A tape whose nodes all have the size [sz], of [n] lanes, and plain
    edges; id 0 is not in the store and the counter has not wrapped. *)
Definition uniform (sz : N) (n : nat) (d : Detail Z) : Prop :=
  node_counter d < 2 ^ 32 /\ nodes d !! 0 = None /\
  forall t nt, nodes d !! t = Some nt ->
    size nt = sz /\ plain_edges n (edges nt).

(** The states between which edges were wired into [t]: in every lane [i]
    and for every [F] the weighted sum over the edges of [t] grew by
    [G i F], and the sources of the edges by the ids of [S]. *)
Definition wired (sz : N) (n : nat) (t : N) (G : nat -> (N -> Z) -> Z)
    (S : gset N) (d d' : Detail Z) : Prop :=
  wf d' /\ uniform sz n d' /\ edge_frame t d d' /\
  exists nt nt', nodes d !! t = Some nt /\ nodes d' !! t = Some nt' /\
    (forall i F, esum i F (edges nt') = (esum i F (edges nt) + G i F)%Z) /\
    (forall x, x ∈ source <$> edges nt' <-> x ∈ source <$> edges nt \/ x ∈ S).





(** The part of a node that a sweep without [free_graph] does not write. *)
Definition graph_of {T} (n : Node T) : string * list (Edge T) * N * N :=
  (label n, edges n, ref_count n, size n).

(** The counters and settings of the tape. *)
Definition settings {T} (d : Detail T) :=
  (node_counter d, node_counter_last d, edge_contractions d,
   edge_contractions_last d, edge_merges d, edge_merges_last d, prefix d,
   scatter_gather_index d, scatter_gather_size d, scatter_gather_permute d,
   log_level d, contract_edges d).

(** The states between which only gradients were written. *)
Definition grads_only {T} (d d' : Detail T) : Prop :=
  (forall k, graph_of <$> nodes d' !! k = graph_of <$> nodes d !! k) /\
  settings d' = settings d /\ scheduled d' = scheduled d.

Definition grads_result {T A} (d : Detail T) (r : result (Detail T) A) : Prop :=
  match r with
  | Ok _ d' | Throw _ d' => grads_only d d'
  | OutOfFuel => False
  end.



(** The scheduled nodes are in the store and the sources of their edges are
    scheduled. *)
Definition closed {T} (d : Detail T) : Prop :=
  forall u, u ∈ scheduled d ->
    exists nu, nodes d !! u = Some nu /\
      forall e, e ∈ edges nu -> source e ∈ scheduled d.

(** The chain rule in lane [i] for the derivative with respect to [l]. *)
Definition chain (d : Detail Z) (i : nat) (l : N) (C : N -> Z) : Prop :=
  C l = 1%Z /\
  forall t nt, nodes d !! t = Some nt -> t <> l -> C t = esum i C (edges nt).

(** The nodes that the edges lead to from [k]. *)
Inductive reach {T} (d : Detail T) (k : N) : N -> Prop :=
  | reach_refl : reach d k k
  | reach_step t nt e :
      reach d k t -> nodes d !! t = Some nt -> e ∈ edges nt ->
      reach d k (source e).









(** The calls that record a pointwise computation. *)
Inductive op :=
  | Leaf
  | Op1 (l : string) (i1 : N) (w1 : list Z)
  | Op2 (l : string) (i1 i2 : N) (w1 w2 : list Z)
  | Op3 (l : string) (i1 i2 i3 : N) (w1 w2 w3 : list Z).








(** [tape_chain] and a new node of size 1, id 3, that has no edge yet. *)
Definition tape_chain_node : Detail Z := exec (append_node 1 "t") tape_chain.

(** The node 3 of [tape_chain_node]. *)
Definition tape_chain_t : Node Z := mkNode "t" [] [] 1 1.


(** An id that is scheduled and not in the store. *)
Definition poisoned {T} (k : N) (d : Detail T) : Prop :=
  k ∈ scheduled d /\ nodes d !! k = None.

(** The new tape inside the prefixes ["a"] and ["b"]. *)
Definition tape_prefixed : Detail Z :=
  exec (push_prefix "b") (exec (push_prefix "a") empty_tape).

(** [tape_buffer] after [append_gather] with the offsets 3 and 0. *)
Definition tape_gathered : Detail Z :=
  exec (append_gather [3; 0]%Z [true]) tape_buffer.

(** A new tape whose operand is a buffer of four lanes that is not
    differentiable: the slot holds the null id. *)
Definition tape_plain_buffer : Detail Z :=
  exec (set_scatter_gather_operand (Some 0) 4 false) empty_tape.

(** ** [KMask<__mmask8>] *)

(** [enoki/array_avx512.h]: the wrapper of a mask register, at the type
    [__mmask8] ([unsigned char]) that the packets of eight lanes use.  There
    [Size] is 8, so that [or_], [and_], [xor_] and [not_] take their plain
    branch and not the intrinsic of the sixteen-lane case, and [all_],
    [none_] and [any_] the comparison.  The register is the [Z] of its
    value; the operators work on the promoted [int] and [Type(...)] casts
    the result back to eight bits. *)
Module KMask8.
Local Open Scope Z_scope.

Definition Size : Z := 8.

(** [Type(x)]: the conversion to [unsigned char]. *)
Definition cast (x : Z) : Z := x mod 2 ^ 8.

(** [KMask(bool b)]. *)
Definition of_bool (b : bool) : Z := if b then cast (-1) else cast 0.

Definition or_ (k a : Z) : Z := cast (Z.lor k a).
Definition and_ (k a : Z) : Z := cast (Z.land k a).
Definition xor_ (k a : Z) : Z := cast (Z.lxor k a).
Definition not_ (k : Z) : Z := cast (Z.lnot k).

Definition all_ (k : Z) : bool := k =? cast (Z.shiftl 1 Size - 1).
Definition none_ (k : Z) : bool := k =? cast 0.
Definition any_ (k : Z) : bool := negb (k =? cast 0).

(** [coeff(i)], for [i < Size]. *)
Definition coeff (k : Z) (i : Z) : bool := negb (Z.land k (Z.shiftl 1 i) =? 0).

(** [HalfType] is [__mmask8] again. *)
Definition low_ (k : Z) : Z := cast k.
Definition high_ (k : Z) : Z := cast (Z.shiftr k (Size / 2)).

End KMask8.

(** A value of a mask register of eight lanes. *)
Definition mask8 (k : Z) : Prop := (0 <= k < 2 ^ 8)%Z.

(** ** Reference counts and edges *)

(** The sources of the edges of node [t]. *)
Definition sources_of {T} (d : Detail T) (t : N) : option (list N) :=
  (fun n => source <$> edges n) <$> nodes d !! t.

(** The nodes with an edge from [k]. *)
Definition consumers {T} (d : Detail T) (k : N) : gset N :=
  dom (filter (fun tn => k ∈ source <$> edges tn.2) (nodes d)).

(** Every node is held once by the variable it was recorded for and once by
    every node with an edge from it. *)
Definition counted {T} (d : Detail T) : Prop :=
  forall k nk, nodes d !! k = Some nk ->
    ref_count nk = 1 + N.of_nat (base.size (consumers d k)).

(** A computation that ended, on a store with the ids [D] and the counter
    [c], in a state with the same ids and counter, the invariants of the
    graph and exact reference counts. *)
Definition counted_result {T A} (D : gset N) (c : N) (r : result (Detail T) A)
    : Prop :=
  match r with
  | Ok _ d' | Throw _ d' =>
    wf d' /\ dom (nodes d') = D /\ node_counter d' = c /\ counted d'
  | OutOfFuel => False
  end.

(** A computation that ended in a state with the invariants of the graph and
    exact reference counts, whose counter has not come back to the null
    id. *)
Definition counted_after {T A} (r : result (Detail T) A) : Prop :=
  match r with
  | Ok _ d' | Throw _ d' => wf d' /\ counted d' /\ 0 < node_counter d'
  | OutOfFuel => False
  end.

(** ** The two scatter operations *)



(** * Properties *)

(** ** Lanes of the array operations *)

Section Lanes.
Import Arr.


Lemma bcast2_length {A B C} (f : A -> B -> C) a b :
  length (bcast2 f a b) = blen (length a) (length b).
Proof.
  unfold blen.
  destruct a as [|x [|x' a]].
  - destruct b as [|y [|y' b]]; reflexivity.
  - simpl. apply length_map.
  - destruct b as [|y [|y' b]]; simpl; try reflexivity.
    + rewrite length_map. reflexivity.
    + rewrite length_zip_with. reflexivity.
Qed.

Lemma blane_lookup {A} (l : list A) i z : l !! i = Some z -> blane l i = Some z.
Proof.
  destruct l as [|x [|x' l]]; try done.
  destruct i; simpl; [done|]. intros Hx. inversion Hx.
Qed.

Lemma lookup_blane {A} (l : list A) i :
  (i < length l)%nat -> l !! i = blane l i.
Proof.
  destruct l as [|x [|x' l]]; try done.
  destruct i; simpl; [done|lia].
Qed.

Lemma bcast2_lookup {A B C} (f : A -> B -> C) a b i z :
  bcast2 f a b !! i = Some z ->
  exists x y, blane a i = Some x /\ blane b i = Some y /\ z = f x y.
Proof.
  destruct a as [|x [|x' a]].
  - destruct b as [|y [|y' b]]; simpl; intros Hz;
      rewrite ?lookup_nil in Hz; done.
  - simpl. rewrite list_lookup_fmap. intros Hz.
    destruct (b !! i) as [y|] eqn:Hb; [|done].
    exists x, y. split; [done|]. split; [by apply blane_lookup|].
    simpl in Hz. congruence.
  - destruct b as [|y [|y' b]].
    + simpl. done.
    + change (bcast2 f (x :: x' :: a) [y]) with (map (fun x0 => f x0 y) (x :: x' :: a)).
      rewrite list_lookup_fmap. intros Hz.
      destruct ((x :: x' :: a) !! i) as [x0|] eqn:Ha; [|done].
      exists x0, y. split; [done|]. split; [done|]. simpl in Hz. congruence.
    + change (bcast2 f (x :: x' :: a) (y :: y' :: b))
        with (zip_with f (x :: x' :: a) (y :: y' :: b)).
      intros Hz. apply lookup_zip_with_Some in Hz as (x0 & y0 & -> & Hx & Hy).
      exists x0, y0. done.
Qed.

Lemma blane_bcast2 {A B C} (f : A -> B -> C) a b i z :
  blane (bcast2 f a b) i = Some z ->
  exists x y, blane a i = Some x /\ blane b i = Some y /\ z = f x y.
Proof.
  intros Hz.
  pose proof (bcast2_length f a b) as Hlen.
  pose proof (bcast2_lookup f a b i z) as Hlk.
  destruct (bcast2 f a b) as [|r [|r' l]] eqn:Hr; [done| |by apply Hlk].
  simpl in Hz. injection Hz as ->. unfold blen in Hlen.
  destruct a as [|x [|x' a]]; destruct b as [|y [|y' b]]; simpl in *;
    try done; try lia.
  exists x, y. injection Hr as <-. done.
Qed.

Section SafeLanes.
Context {T : Type} `{Scalar T}.

Lemma is_zero_lane (a b : list T) i m :
  blane (mor (eq a (scalar s_zero)) (eq b (scalar s_zero))) i = Some m ->
  exists x y, blane a i = Some x /\ blane b i = Some y /\
              m = (s_eq x s_zero || s_eq y s_zero).
Proof.
  intros Hm. apply blane_bcast2 in Hm as (ma & mb & Ha & Hb & ->).
  apply blane_bcast2 in Ha as (x & z1 & Hx & Hz1 & ->).
  apply blane_bcast2 in Hb as (y & z2 & Hy & Hz2 & ->).
  simpl in Hz1, Hz2. injection Hz1 as <-. injection Hz2 as <-.
  exists x, y. done.
Qed.

Lemma safe_mul_length (a b : list T) :
  length (safe_mul a b) = length (vmul a b).
Proof.
  unfold safe_mul, select, mor, eq, vmul, scalar.
  rewrite !bcast2_length. simpl. unfold blen.
  repeat case_decide; lia.
Qed.

Lemma safe_fmadd_length (a b c : list T) :
  length (safe_fmadd a b c) = length (fmadd a b c).
Proof.
  unfold safe_fmadd, select, mor, eq, fmadd, scalar.
  rewrite !bcast2_length. simpl. unfold blen.
  repeat case_decide; lia.
Qed.

Lemma safe_mul_lane (a b : list T) i z :
  safe_mul a b !! i = Some z ->
  exists x y, blane a i = Some x /\ blane b i = Some y /\
    vmul a b !! i = Some (s_mul x y) /\ z = masked x y s_zero (s_mul x y).
Proof.
  intros Hz.
  assert (Hi : (i < length (vmul a b))%nat).
  { rewrite <- safe_mul_length. by apply lookup_lt_Some with z. }
  apply blane_lookup in Hz. unfold safe_mul, select in Hz.
  apply blane_bcast2 in Hz as (m & [z0 t] & Hm & Hp & ->).
  apply is_zero_lane in Hm as (x & y & Hx & Hy & ->).
  apply blane_bcast2 in Hp as (z0' & t' & Hz0 & Ht & [= -> ->]).
  simpl in Hz0. injection Hz0 as <-.
  rewrite <- lookup_blane in Ht by done.
  pose proof Ht as Ht'. apply bcast2_lookup in Ht' as (x' & y' & Hx' & Hy' & ->).
  rewrite Hx in Hx'. rewrite Hy in Hy'. injection Hx' as <-. injection Hy' as <-.
  exists x, y. done.
Qed.

Lemma safe_fmadd_lane (a b c : list T) i z :
  safe_fmadd a b c !! i = Some z ->
  exists x y w, blane a i = Some x /\ blane b i = Some y /\ blane c i = Some w /\
    fmadd a b c !! i = Some (s_fmadd x y w) /\ z = masked x y w (s_fmadd x y w).
Proof.
  intros Hz.
  assert (Hi : (i < length (fmadd a b c))%nat).
  { rewrite <- safe_fmadd_length. by apply lookup_lt_Some with z. }
  apply blane_lookup in Hz. unfold safe_fmadd, select in Hz.
  apply blane_bcast2 in Hz as (m & [w t] & Hm & Hp & ->).
  apply is_zero_lane in Hm as (x & y & Hx & Hy & ->).
  apply blane_bcast2 in Hp as (w' & t' & Hw & Ht & Heq).
  injection Heq as -> ->. rename w' into w.
  rewrite <- lookup_blane in Ht by done.
  pose proof Ht as Ht'. unfold fmadd in Ht'.
  apply bcast2_lookup in Ht' as ([x' y'] & w'' & Hxy & Hw' & ->).
  apply blane_bcast2 in Hxy as (x'' & y'' & Hx' & Hy' & [= -> ->]).
  rewrite Hx in Hx'. rewrite Hy in Hy'. rewrite Hw in Hw'.
  injection Hx' as <-. injection Hy' as <-. injection Hw' as <-.
  exists x, y, w. done.
Qed.

Lemma safe_mul_zero_l (v : list T) :
  s_eq s_zero s_zero = true ->
  safe_mul (scalar s_zero) v = zero (vsize v).
Proof.
  intros Hz. apply list_eq. intros i.
  unfold zero, full, vsize. rewrite Nat2N.id.
  destruct (safe_mul (scalar s_zero) v !! i) as [z|] eqn:Hl.
  - pose proof Hl as Hlt. apply lookup_lt_Some in Hlt.
    apply safe_mul_lane in Hl as (x & y & Hx & Hy & _ & ->).
    simpl in Hx. injection Hx as <-. unfold masked. rewrite Hz. simpl.
    symmetry. apply lookup_replicate. split; [done|].
    rewrite safe_mul_length in Hlt. unfold vmul, scalar in Hlt.
    simpl in Hlt. by rewrite length_map in Hlt.
  - symmetry. apply lookup_ge_None. rewrite length_replicate.
    apply lookup_ge_None in Hl. rewrite safe_mul_length in Hl.
    unfold vmul, scalar in Hl. simpl in Hl. by rewrite length_map in Hl.
Qed.

(** C5.  Whatever the scalar type: [safe_mul a b] has the lanes of [a * b],
    and each lane is the product, except that it is zero where the lane of
    [a] or of [b] compares equal to zero; [safe_fmadd a b c] has the lanes
    of [fmadd a b c], each lane the fused result except that it is the lane
    of [c] where the lane of [a] or of [b] compares equal to zero.  Where
    zero compares equal to itself (as it does for IEEE numbers),
    [safe_mul 0 v] is zero in every lane of [v], whatever [v] holds. *)
Theorem safe_mul_safe_fmadd_mask :
  s_eq s_zero s_zero = true ->
  (forall a b : list T,
     length (safe_mul a b) = length (vmul a b) /\
     forall i z, safe_mul a b !! i = Some z ->
       exists x y, blane a i = Some x /\ blane b i = Some y /\
         vmul a b !! i = Some (s_mul x y) /\
         z = if s_eq x s_zero || s_eq y s_zero then s_zero else s_mul x y) /\
  (forall a b c : list T,
     length (safe_fmadd a b c) = length (fmadd a b c) /\
     forall i z, safe_fmadd a b c !! i = Some z ->
       exists x y w, blane a i = Some x /\ blane b i = Some y /\
         blane c i = Some w /\
         fmadd a b c !! i = Some (s_fmadd x y w) /\
         z = if s_eq x s_zero || s_eq y s_zero then w else s_fmadd x y w) /\
  (forall v : list T, safe_mul (scalar s_zero) v = zero (vsize v)).
Proof.
  intros Hz. split; [|split].
  - intros a b. split; [apply safe_mul_length|]. apply safe_mul_lane.
  - intros a b c. split; [apply safe_fmadd_length|]. apply safe_fmadd_lane.
  - intros v. by apply safe_mul_zero_l.
Qed.

End SafeLanes.
End Lanes.

(** The law at [float]: a zero factor against [nan], an infinity and a
    finite lane. *)
Lemma safe_mul_safe_fmadd_mask_float :
  safe_mul [S754_zero false] [S754_nan; S754_infinity false; S754_finite true 8388608 (-23)]
  = [S754_zero false; S754_zero false; S754_zero false].
Proof.
  pose proof (@safe_mul_safe_fmadd_mask spec_float float_Scalar eq_refl)
    as (_ & _ & Hlaw).
  exact (Hlaw [S754_nan; S754_infinity false; S754_finite true 8388608 (-23)]).
Defined.

(** ** The monad *)

Section Monad.
Context {S : Type}.

Lemma bind_Ok {A B} (m : S -> result S A) (k : A -> S -> result S B) d a d' :
  m d = Ok a d' -> bind m k d = k a d'.
Proof. unfold bind. by intros ->. Qed.

Lemma bind_Throw {A B} (m : S -> result S A) (k : A -> S -> result S B) d e d' :
  m d = Throw e d' -> bind m k d = Throw e d'.
Proof. unfold bind. by intros ->. Qed.

Lemma for_each_app {A} (f : A -> S -> result S unit) l1 l2 d :
  for_each f (l1 ++ l2) d = (for_each f l1 ;; for_each f l2) d.
Proof.
  revert d. induction l1 as [|x l1 IH]; intros d; simpl.
  - reflexivity.
  - unfold bind in *. destruct (f x d) as [[] d'| |]; try reflexivity.
    apply IH.
Qed.


End Monad.

(** ** Reference counting *)

Section RefCount.
Context {T : Type} `{Scalar T}.

Lemma live_le_size (d : Detail T) : (live d <= base.size (nodes d))%nat.
Proof. apply map_subseteq_size, map_filter_subseteq. Qed.

Lemma live_set_nodes (m : gmap N (Node T)) (d : Detail T) :
  live (set_nodes m d) =
  base.size (filter (fun kn : N * Node T => ref_count (snd kn) <> 0) m).
Proof. reflexivity. Qed.

Lemma live_release (d : Detail T) i n :
  nodes d !! i = Some n -> ref_count n <> 0 ->
  (live (set_nodes (<[i := set_ref_count 0 n]> (nodes d)) d) < live d)%nat.
Proof.
  intros Hn Hrc. rewrite live_set_nodes. unfold live.
  rewrite map_filter_insert_False by (simpl; lia).
  rewrite map_filter_delete.
  apply map_subset_size. apply delete_subset.
  exists n. apply map_lookup_filter_Some. eauto.
Qed.

Lemma live_delete (d : Detail T) i :
  (live (set_nodes (delete i (nodes d)) d) <= live d)%nat.
Proof.
  rewrite live_set_nodes. unfold live. rewrite map_filter_delete.
  apply map_subseteq_size, delete_subseteq.
Qed.

Lemma live_keep (d : Detail T) i n c :
  nodes d !! i = Some n -> ref_count n <> 0 -> c <> 0 ->
  live (set_nodes (<[i := set_ref_count c n]> (nodes d)) d) = live d.
Proof.
  intros Hn Hrc Hc. rewrite live_set_nodes. unfold live.
  rewrite map_filter_insert_True by done.
  apply map_size_insert_Some. exists n. apply map_lookup_filter_Some. eauto.
Qed.


Lemma for_each_live_ext {A} (F1 F2 : A -> Detail T -> result (Detail T) unit)
    (m : nat) (l : list A) :
  (forall a d, (live d <= m)%nat ->
     F1 a d = F2 a d /\ res_live_le (live d) (F1 a d)) ->
  forall d, (live d <= m)%nat ->
    for_each F1 l d = for_each F2 l d /\ res_live_le (live d) (for_each F1 l d).
Proof.
  intros HF. induction l as [|a l IH]; intros d Hd; simpl.
  - split; [done|]. simpl. lia.
  - destruct (HF a d Hd) as [Heq Hle]. unfold bind. rewrite <- Heq.
    destruct (F1 a d) as [[] d'| e d'|]; simpl in Hle; try done.
    destruct (IH d') as [Heq' Hle']; [lia|]. split; [done|].
    destruct (for_each F1 l d') as [[] d''| e d''|]; simpl in *; try done; lia.
Qed.

Lemma free_node_with_live_ext (F1 F2 : Index -> Detail T -> result (Detail T) unit)
    (m : nat) :
  (forall a d, (live d <= m)%nat ->
     F1 a d = F2 a d /\ res_live_le (live d) (F1 a d)) ->
  forall i d, (live d <= m)%nat ->
    free_node_with F1 i d = free_node_with F2 i d /\
    res_live_le (live d) (free_node_with F1 i d).
Proof.
  intros HF i d Hd. unfold free_node_with.
  destruct (nodes d !! i) as [n|]; [|split; [done|simpl; lia]].
  destruct (for_each_live_ext (fun e => F1 (source e)) (fun e => F2 (source e))
              m (edges n)) with (d := d) as [Heq Hle]; [|done|].
  { intros a d0 Hd0. apply HF, Hd0. }
  unfold bind. rewrite <- Heq.
  destruct (for_each _ (edges n) d) as [[] d'| e d'|]; unfold res_live_le in *;
    try done.
  split; [done|]. pose proof (live_delete d' i). lia.
Qed.

Lemma dec_ref_fuel_enough (f1 f2 : nat) (j : Index) (d : Detail T) :
  (live d < f1)%nat -> (live d < f2)%nat ->
  dec_ref_fuel f1 j d = dec_ref_fuel f2 j d /\
  res_live_le (live d) (dec_ref_fuel f1 j d).
Proof.
  revert f2 j d. induction f1 as [|f1 IH]; intros f2 j d Hf1 Hf2; [lia|].
  destruct f2 as [|f2]; [lia|]. simpl.
  destruct (decide (j = 0)) as [|Hj]; [split; [done|simpl; lia]|].
  unfold bind, node, throw, modify_node.
  destruct (nodes d !! j) as [n|] eqn:Hn; [|split; [done|simpl; lia]].
  destruct (ref_count n =? 0) eqn:Hrc; [split; [done|simpl; lia]|].
  apply N.eqb_neq in Hrc. rewrite Hn.
  destruct (ref_count n - 1 =? 0) eqn:Hrc1.
  - apply N.eqb_eq in Hrc1. rewrite Hrc1.
    pose proof (live_release d j n Hn Hrc) as Hlt.
    set (d1 := set_nodes (<[j:=set_ref_count 0 n]> (nodes d)) d) in *.
    destruct (free_node_with_live_ext (dec_ref_fuel f1) (dec_ref_fuel f2)
                (live d1)) with (i := j) (d := d1) as [Heq Hle]; [|done|].
    { intros a d0 Hd0. apply IH; lia. }
    split; [done|].
    destruct (free_node_with _ j d1) as [[] d'| e d'|]; simpl in *; try done; lia.
  - apply N.eqb_neq in Hrc1. split; [done|]. simpl.
    rewrite (live_keep d j n) by done. lia.
Qed.

Lemma dec_ref_fuel_live (f : nat) (j : Index) (d : Detail T) :
  (live d < f)%nat -> res_live_le (live d) (dec_ref_fuel f j d).
Proof. intros Hf. by apply (dec_ref_fuel_enough f f). Qed.

Lemma dec_ref_fuel_dec_ref (f : nat) (j : Index) (d : Detail T) :
  (live d < f)%nat -> dec_ref_fuel f j d = dec_ref j d.
Proof.
  intros Hf. unfold dec_ref. apply dec_ref_fuel_enough; [done|].
  pose proof (live_le_size d). lia.
Qed.

Lemma dec_ref_live (j : Index) (d : Detail T) :
  res_live_le (live d) (dec_ref j d).
Proof.
  unfold dec_ref. apply dec_ref_fuel_live.
  pose proof (live_le_size d). lia.
Qed.

(** The equation of [dec_ref] as the source has it. *)
Lemma dec_ref_unfold (index : Index) (d : Detail T) :
  dec_ref index d =
  (if decide (index = 0) then ret tt
   else
     let* n := node index in
     if ref_count n =? 0 then throw (UseAfterFree index)
     else
       modify_node index (set_ref_count (ref_count n - 1)) ;;
       if ref_count n - 1 =? 0 then free_node index else ret tt) d.
Proof.
  unfold dec_ref at 1. simpl.
  destruct (decide (index = 0)) as [|Hj]; [done|].
  unfold bind, node, throw, modify_node.
  destruct (nodes d !! index) as [n|] eqn:Hn; [|done].
  destruct (ref_count n =? 0) eqn:Hrc; [done|].
  apply N.eqb_neq in Hrc. rewrite Hn.
  destruct (ref_count n - 1 =? 0) eqn:Hrc1; [|done].
  apply N.eqb_eq in Hrc1. rewrite Hrc1.
  pose proof (live_release d index n Hn Hrc) as Hlt.
  pose proof (live_le_size d) as Hsz.
  set (d1 := set_nodes (<[index:=set_ref_count 0 n]> (nodes d)) d) in *.
  unfold free_node.
  apply (free_node_with_live_ext _ _ (live d1)); [|done].
  intros a d0 Hd0. split.
  - apply dec_ref_fuel_dec_ref. lia.
  - apply dec_ref_fuel_live. lia.
Qed.


Lemma free_node_live (i : Index) (d : Detail T) :
  res_live_le (live d) (free_node i d).
Proof.
  unfold free_node.
  apply (free_node_with_live_ext dec_ref dec_ref (live d)); [|done].
  intros a d0 _. split; [done|apply dec_ref_live].
Qed.

(** C7.  [dec_ref 0] does nothing.  For another index, [dec_ref] throws
    for a node that is not in the store and throws [UseAfterFree] when the
    count of the node is already zero; otherwise it decrements the count, and
    when the count reaches zero it goes on as [free_node], which calls
    [dec_ref] on the source of every edge of the node, in the order of the
    list, and then erases the node from the store.  Both always come to an
    end. *)
Theorem dec_ref_free_node_spec (d : Detail T) (i : Index) :
  (i = 0 -> dec_ref i d = Ok tt d) /\
  (i <> 0 -> nodes d !! i = None -> dec_ref i d = Throw (UnknownNode i) d) /\
  (forall n, i <> 0 -> nodes d !! i = Some n ->
     (ref_count n = 0 -> dec_ref i d = Throw (UseAfterFree i) d) /\
     (ref_count n <> 0 -> ref_count n <> 1 ->
        dec_ref i d =
        Ok tt (set_nodes (<[i := set_ref_count (ref_count n - 1) n]> (nodes d)) d)) /\
     (ref_count n = 1 ->
        dec_ref i d =
        free_node i (set_nodes (<[i := set_ref_count 0 n]> (nodes d)) d))) /\
  (forall n, nodes d !! i = Some n ->
     free_node i d =
     (for_each (fun edge => dec_ref (source edge)) (edges n) ;;
      fun d' => Ok tt (set_nodes (delete i (nodes d')) d')) d) /\
  dec_ref i d <> OutOfFuel /\ free_node i d <> OutOfFuel.
Proof.
  split; [|split; [|split; [|split; [|split]]]].
  - intros ->. by rewrite dec_ref_unfold.
  - intros Hi Hn. rewrite dec_ref_unfold.
    destruct (decide (i = 0)); [done|]. unfold bind, node. by rewrite Hn.
  - intros n Hi Hn. rewrite dec_ref_unfold.
    destruct (decide (i = 0)); [done|].
    unfold bind, node, modify_node, throw, ret. rewrite Hn.
    split; [|split].
    + intros ->. done.
    + intros H0 H1. destruct (ref_count n =? 0) eqn:E0.
      { apply N.eqb_eq in E0. done. }
      rewrite Hn. destruct (ref_count n - 1 =? 0) eqn:E1; [|done].
      apply N.eqb_eq in E1. lia.
    + intros ->. simpl. by rewrite Hn.
  - intros n Hn. unfold free_node, free_node_with. by rewrite Hn.
  - pose proof (dec_ref_live i d) as Hl. intros E. by rewrite E in Hl.
  - pose proof (free_node_live i d) as Hl. intros E. by rewrite E in Hl.
Qed.

End RefCount.

Lemma dec_ref_free_node_spec_witness :
  nodes tape_chain !! 2 = Some tape_chain_y /\ ref_count tape_chain_y = 1 /\
  dec_ref 2 tape_chain =
  free_node 2
    (set_nodes (<[2 := set_ref_count 0 tape_chain_y]> (nodes tape_chain))
       tape_chain).
Proof.
  assert (Hn : nodes tape_chain !! 2 = Some tape_chain_y)
    by (vm_compute; reflexivity).
  split; [exact Hn|]. split; [reflexivity|].
  destruct (dec_ref_free_node_spec tape_chain 2) as (_ & _ & Hs & _).
  apply (Hs tape_chain_y); [done|exact Hn|reflexivity].
Defined.

(** ** Lookups and writes *)

Section Basics.
Context {T : Type} `{Scalar T}.

Lemma node_Some (d : Detail T) i n : nodes d !! i = Some n -> node i d = Ok n d.
Proof. unfold node. by intros ->. Qed.

Lemma node_None (d : Detail T) i :
  nodes d !! i = None -> node i d = Throw (UnknownNode i) d.
Proof. unfold node. by intros ->. Qed.

Lemma modify_node_Some (d : Detail T) i n f :
  nodes d !! i = Some n ->
  modify_node i f d = Ok tt (set_nodes (<[i := f n]> (nodes d)) d).
Proof. unfold modify_node. by intros ->. Qed.

Lemma modify_node_None (d : Detail T) i f :
  nodes d !! i = None -> modify_node i f d = Throw (UnknownNode i) d.
Proof. unfold modify_node. by intros ->. Qed.

Lemma inc_ref_Some (d : Detail T) i n :
  i <> 0 -> nodes d !! i = Some n ->
  inc_ref i d =
  Ok tt (set_nodes (<[i := set_ref_count (wrap32 (ref_count n + 1)) n]> (nodes d)) d).
Proof.
  intros Hi Hn. unfold inc_ref. destruct (decide (i = 0)); [done|].
  unfold modify_node. by rewrite Hn.
Qed.

Lemma merge_edge_None (f : list T -> list T) src (es : list (Edge T)) :
  (forall e, e ∈ es -> source e <> src) -> merge_edge f src es = None.
Proof.
  induction es as [|e es IH]; intros Hes; simpl; [done|].
  destruct (decide (source e = src)) as [He|He].
  - exfalso. apply (Hes e); [left|done].
  - rewrite IH; [done|]. intros e' He'. apply Hes. by right.
Qed.

End Basics.

(** ** A new edge *)

Section AppendEdge.
Context {T : Type} `{Scalar T}.

(** C2 (as the code has it).  When [append_edge src tgt w] triggers neither
    edge contraction nor edge merging, it links a new edge [(src, w)] behind
    the last edge of [tgt]: the edges that were there keep their places, the
    new edge is the last one (its [next] is null), and the count of [src]
    goes up by exactly one; no other node changes, and neither counter of
    rewrites moves. *)
Theorem append_edge_links_last (d : Detail T) (src tgt : Index) (w : list T)
    (ns nt : Node T) :
  src <> 0 ->
  nodes d !! src = Some ns ->
  nodes d !! tgt = Some nt ->
  contracts d ns nt = false ->
  (forall e, e ∈ edges nt -> source e <> src) ->
  exists d' nt' ns',
    append_edge src tgt w d = Ok tt d' /\
    nodes d' !! tgt = Some nt' /\
    edges nt' = edges nt ++ [mkEdge src w None] /\
    last (edges nt') = Some (mkEdge src w None) /\
    nodes d' !! src = Some ns' /\
    ref_count ns' = wrap32 (ref_count ns + 1) /\
    (forall k, k <> src -> k <> tgt -> nodes d' !! k = nodes d !! k) /\
    edge_merges d' = edge_merges d /\
    edge_contractions d' = edge_contractions d.
Proof.
  intros Hsrc Hns Hnt Hc Hfresh.
  unfold append_edge. destruct (decide (src = 0)); [done|].
  rewrite (bind_Ok _ _ _ _ _ (node_Some _ _ _ Hns)).
  rewrite (bind_Ok _ _ _ _ _ (node_Some _ _ _ Hnt)).
  rewrite Hc. unfold merge_or_link.
  rewrite merge_edge_None by done.
  rewrite (bind_Ok _ _ _ _ _ (modify_node_Some _ _ _ _ Hnt)).
  set (e := mkEdge src w None).
  set (d1 := set_nodes (<[tgt := node_append_edge e nt]> (nodes d)) d).
  destruct (decide (src = tgt)) as [->|Hne].
  - assert (Hn1 : nodes d1 !! tgt = Some (node_append_edge e nt)).
    { unfold d1. simpl. apply lookup_insert_eq. }
    rewrite (inc_ref_Some _ _ _ Hsrc Hn1).
    eexists _, _, _. split; [reflexivity|]. simpl.
    rewrite lookup_insert_eq. split; [reflexivity|]. simpl.
    split; [reflexivity|]. split; [apply last_snoc|].
    split; [reflexivity|]. split.
    { simpl. congruence. }
    split; [|done]. intros k Hk _. by rewrite !lookup_insert_ne.
  - assert (Hn1 : nodes d1 !! src = Some ns).
    { unfold d1. simpl. by rewrite lookup_insert_ne. }
    rewrite (inc_ref_Some _ _ _ Hsrc Hn1).
    eexists _, _, _. split; [reflexivity|]. simpl.
    rewrite lookup_insert_ne by done. rewrite lookup_insert_eq.
    split; [reflexivity|]. simpl.
    split; [reflexivity|]. split; [apply last_snoc|].
    rewrite lookup_insert_eq.
    split; [reflexivity|]. split; [reflexivity|].
    split; [|done]. intros k Hk Hk'. by rewrite !lookup_insert_ne.
Qed.

End AppendEdge.

Lemma append_edge_links_last_witness :
  exists d' nt' ns',
    append_edge 2 3 [4%Z] tape_two = Ok tt d' /\
    nodes d' !! 3 = Some nt' /\
    edges nt' = edges tape_two_3 ++ [mkEdge 2 [4%Z] None] /\
    last (edges nt') = Some (mkEdge 2 [4%Z] None) /\
    nodes d' !! 2 = Some ns' /\
    ref_count ns' = wrap32 (ref_count tape_two_2 + 1) /\
    (forall k, k <> 2 -> k <> 3 -> nodes d' !! k = nodes tape_two !! k) /\
    edge_merges d' = edge_merges tape_two /\
    edge_contractions d' = edge_contractions tape_two.
Proof.
  apply (append_edge_links_last tape_two 2 3 [4%Z] tape_two_2 tape_two_3).
  - done.
  - vm_compute. reflexivity.
  - vm_compute. reflexivity.
  - vm_compute. reflexivity.
  - intros e He. apply list_elem_of_singleton in He. subst e. done.
Defined.

(** The new edge does not become the head of the list of the target. *)
Lemma append_edge_not_at_head :
  nodes tape_two !! 3 = Some tape_two_3 /\
  nodes tape_two !! 2 = Some tape_two_2 /\
  contracts tape_two tape_two_2 tape_two_3 = false /\
  append_edge 2 3 [4%Z] tape_two = Ok tt (exec (append_edge 2 3 [4%Z]) tape_two) /\
  edges <$> nodes (exec (append_edge 2 3 [4%Z]) tape_two) !! 3
    = Some [mkEdge 1 [3%Z] None; mkEdge 2 [4%Z] None] /\
  edges <$> nodes (exec (append_edge 2 3 [4%Z]) tape_two) !! 3
    <> Some (mkEdge 2 [4%Z] None :: edges tape_two_3).
Proof.
  split; [vm_compute; reflexivity|]. split; [vm_compute; reflexivity|].
  split; [vm_compute; reflexivity|]. split; [vm_compute; reflexivity|].
  split; [vm_compute; reflexivity|]. vm_compute. discriminate.
Qed.

(** ** The traversal and [set_gradient] *)

Section Dfs.
Context {T : Type} `{Scalar T}.

Lemma set_fields_id (d : Detail T) :
  d = set_scheduled (scheduled d) (set_nodes (nodes d) d).
Proof. by destruct d. Qed.

Lemma dfs_post_refl cg (d : Detail T) : dfs_post cg d d.
Proof.
  split; [done|]. split; [apply set_fields_id|].
  intros j. case_decide as Hj; [|done]. by destruct Hj.
Qed.

Lemma dfs_post_trans cg (d1 d2 d3 : Detail T) :
  dfs_post cg d1 d2 -> dfs_post cg d2 d3 -> dfs_post cg d1 d3.
Proof.
  intros (Hs1 & Hf1 & Hn1) (Hs2 & Hf2 & Hn2). split; [set_solver|]. split.
  - rewrite Hf2. rewrite Hf1 at 1. by destruct d1.
  - intros j. rewrite Hn2, Hn1.
    repeat case_decide; try done; set_solver.
Qed.

Lemma dfs_post_dom cg (d d' : Detail T) :
  dfs_post cg d d' -> dom (nodes d') = dom (nodes d).
Proof.
  intros (_ & _ & Hn). apply set_eq. intros j. rewrite !elem_of_dom, Hn.
  case_decide; [|done]. by rewrite fmap_is_Some.
Qed.

Lemma dfs_post_unsched cg (d d' : Detail T) :
  dfs_post cg d d' -> (unsched d' <= unsched d)%nat.
Proof.
  intros Hp. unfold unsched. rewrite (dfs_post_dom _ _ _ Hp).
  destruct Hp as (Hs & _). apply subseteq_size. set_solver.
Qed.

Lemma unsched_le_size (d : Detail T) : (unsched d <= base.size (nodes d))%nat.
Proof.
  unfold unsched. rewrite <- size_dom. apply subseteq_size. set_solver.
Qed.

Lemma closed_new_trans cg (d1 d2 d3 : Detail T) :
  dfs_post cg d1 d2 -> dfs_post cg d2 d3 ->
  closed_new d1 d2 -> closed_new d2 d3 -> closed_new d1 d3.
Proof.
  intros (Hs1 & _ & Hn1) (Hs2 & _ & _) Hc1 Hc2 j Hj3 Hj1.
  destruct (decide (j ∈ scheduled d2)) as [Hj2|Hj2].
  - destruct (Hc1 j Hj2 Hj1) as (n & Hn & He). exists n. split; [done|].
    intros e He'. apply Hs2. by apply He.
  - destruct (Hc2 j Hj3 Hj2) as (n & Hn & He). exists n. split; [|done].
    rewrite <- Hn, Hn1. case_decide as Hd; [|done]. by destruct Hd.
Qed.

Lemma dfs_result_for_each cg (F : N -> Detail T -> result (Detail T) unit)
    (m : nat) (l : list (Edge T)) :
  (forall k d, (unsched d <= m)%nat -> dfs_result cg d [k] (F k d)) ->
  forall d, (unsched d <= m)%nat ->
    dfs_result cg d (source <$> l) (for_each (fun e => F (source e)) l d).
Proof.
  intros HF. induction l as [|e l IH]; intros d Hd; simpl.
  - split; [apply dfs_post_refl|]. split; [set_solver|].
    intros j Hj Hj'. done.
  - unfold bind. pose proof (HF (source e) d Hd) as He.
    destruct (F (source e) d) as [[] d1| e1 d1|]; simpl in He; try done.
    destruct He as (Hp1 & Hk1 & Hc1).
    pose proof (dfs_post_unsched _ _ _ Hp1) as Hu.
    specialize (IH d1 ltac:(lia)).
    destruct (for_each _ l d1) as [[] d2| e2 d2|]; simpl in IH |- *; try done.
    + destruct IH as (Hp2 & Hk2 & Hc2).
      split; [by eapply dfs_post_trans|]. split.
      * intros k Hk. apply elem_of_cons in Hk as [->|Hk]; [|by apply Hk2].
        destruct Hp2 as (Hs2 & _). apply Hs2, Hk1. set_solver.
      * by eapply closed_new_trans.
    + by eapply dfs_post_trans.
Qed.

Lemma dfs_fuel_spec (f : nat) (k : N) cg (d : Detail T) :
  (unsched d < f)%nat -> dfs_result cg d [k] (dfs_fuel f k cg d).
Proof.
  revert k d. induction f as [|f IH]; intros k d Hf; [lia|]. simpl.
  destruct (decide (k ∈ scheduled d)) as [Hk|Hk].
  { split; [apply dfs_post_refl|]. split; [set_solver|]. intros j Hj Hj'. done. }
  unfold bind, node. simpl.
  destruct (nodes d !! k) as [n|] eqn:Hn.
  2:{ simpl. split; [set_solver|]. split; [by destruct d|]. simpl.
      intros j. case_decide as Hj; [|done].
      assert (j = k) as -> by set_solver. by rewrite Hn. }
  set (d0 := set_scheduled ({[k]} ∪ scheduled d) d).
  assert (Hw : exists d1, when cg (modify_node k (set_grad (Arr.zero (size n)))) d0
                 = Ok tt d1 /\ dfs_post cg d d1 /\ scheduled d1 = {[k]} ∪ scheduled d).
  { destruct cg; simpl.
    - unfold modify_node. simpl. rewrite Hn. eexists. split; [reflexivity|].
      split; [|done]. split; [simpl; set_solver|]. split; [by destruct d|]. simpl.
      intros j. case_decide as Hj.
      + assert (j = k) as -> by set_solver. by rewrite lookup_insert_eq, Hn.
      + rewrite lookup_insert_ne; [done|]. intros ->. set_solver.
    - exists d0. split; [done|]. split; [|done]. split; [simpl; set_solver|].
      split; [by destruct d|]. simpl. intros j. case_decide as Hj; [|done].
      assert (j = k) as -> by set_solver. by rewrite Hn. }
  destruct Hw as (d1 & -> & Hp1 & Hs1).
  assert (Hu : (unsched d1 < unsched d)%nat).
  { unfold unsched. rewrite (dfs_post_dom _ _ _ Hp1), Hs1.
    apply subset_size. apply elem_of_dom_2 in Hn. set_solver. }
  pose proof (dfs_result_for_each cg (fun k => dfs_fuel f k cg) (unsched d1)
                (edges n)) as Hloop.
  specialize (Hloop ltac:(intros; apply IH; lia) d1 ltac:(lia)).
  destruct (for_each _ (edges n) d1) as [[] d2| e2 d2|]; simpl in Hloop |- *;
    try done.
  - destruct Hloop as (Hp2 & Hk2 & Hc2).
    split; [by eapply dfs_post_trans|]. split.
    + intros j Hj. assert (j = k) as -> by set_solver.
      destruct Hp2 as (Hs2 & _). apply Hs2. rewrite Hs1. set_solver.
    + intros j Hj Hj'. destruct (decide (j = k)) as [->|Hjk].
      * exists n. split; [done|]. intros e He. apply Hk2.
        apply list_elem_of_fmap. by exists e.
      * destruct (Hc2 j Hj) as (n' & Hn' & He'); [rewrite Hs1; set_solver|].
        exists n'. split; [|done]. rewrite <- Hn'.
        destruct Hp1 as (_ & _ & Hn1). rewrite Hn1, Hs1.
        case_decide as Hd; [|done]. set_solver.
  - by eapply dfs_post_trans.
Qed.

Lemma dfs_spec (k : N) cg (d : Detail T) : dfs_result cg d [k] (dfs k cg d).
Proof.
  unfold dfs. apply dfs_fuel_spec. pose proof (unsched_le_size d). lia.
Qed.

End Dfs.

Section SetGradient.
Context {T : Type} `{Scalar T}.

Lemma dfs_scheduled_noop (k : N) cg (d : Detail T) :
  k ∈ scheduled d -> dfs k cg d = Ok tt d.
Proof.
  intros Hk. unfold dfs. simpl. by destruct (decide (k ∈ scheduled d)).
Qed.

(** What a [set_gradient] that returns has done. *)
Lemma set_gradient_post (d d' : Detail T) (index : N) (value : list T) :
  set_gradient index value d = Ok tt d' ->
  scheduled d ⊆ scheduled d' /\ index ∈ scheduled d' /\
  (forall k, k ∈ scheduled d -> k <> index ->
     nodes d' !! k = nodes d !! k) /\
  (forall k, k ∈ scheduled d' -> k ∉ scheduled d -> k <> index ->
     exists n, nodes d !! k = Some n /\
       nodes d' !! k = Some (set_grad (Arr.zero (size n)) n)) /\
  (forall k, k ∉ scheduled d' -> nodes d' !! k = nodes d !! k) /\
  (exists n, nodes d' !! index = Some n /\ grad n = value).
Proof.
  unfold set_gradient. destruct (decide (index = 0)) as [Hi|Hi]; [done|].
  pose proof (dfs_spec index true d) as Hdfs. unfold bind.
  intros Hd'.
  destruct (dfs index true d) as [[] d1| e d1|]; simpl in Hdfs; try done.
  destruct Hdfs as ((Hs & Hf & Hn) & Hk & Hc).
  unfold modify_node in Hd'.
  destruct (nodes d1 !! index) as [n1|] eqn:Hn1; [|done].
  injection Hd' as <-. simpl.
  split; [done|]. split; [apply Hk; set_solver|].
  split; [|split; [|split]].
  - intros k Hk1 Hk2. rewrite lookup_insert_ne by done. rewrite Hn.
    case_decide as Hd; [|done]. by destruct Hd.
  - intros k Hk1 Hk2 Hk3. rewrite lookup_insert_ne by done.
    destruct (Hc k Hk1 Hk2) as (n & Hnk & _). exists n. split; [done|].
    rewrite Hn. case_decide as Hd; [|tauto]. by rewrite Hnk.
  - intros k Hk1. destruct (decide (k = index)) as [->|Hk2].
    { exfalso. apply Hk1, Hk. set_solver. }
    rewrite lookup_insert_ne by done. rewrite Hn.
    case_decide as Hd; [|done]. by destruct Hd.
  - eexists. rewrite lookup_insert_eq. split; [reflexivity|done].
Qed.

Lemma set_gradient_total (d : Detail T) (index : N) (value : list T) :
  set_gradient index value d <> OutOfFuel.
Proof.
  unfold set_gradient. destruct (decide (index = 0)) as [Hi|Hi]; [done|].
  pose proof (dfs_spec index true d) as Hdfs. unfold bind.
  destruct (dfs index true d) as [[] d1| e d1|]; simpl in Hdfs; try done.
  unfold modify_node. by destruct (nodes d1 !! index).
Qed.

(** C1 (as the code has it).  [set_gradient] always comes to an end.  Its
    traversal tests the scheduled set first: at a node that is already
    scheduled it returns at once, so a [set_gradient] on a scheduled node
    only writes the seed.  When [set_gradient] returns, the scheduled set
    has grown and holds the seeded node; a node that was scheduled before
    the call is left as it was, its gradient included (the seeded node
    apart); a node scheduled by this call has its gradient cleared to zero
    of its size; a node that is still unscheduled is left as it was; and the
    seeded node holds the seed. *)
Theorem set_gradient_dedup (d : Detail T) (index : N) (value : list T) :
  set_gradient index value d <> OutOfFuel /\
  (forall n, index <> 0 -> index ∈ scheduled d -> nodes d !! index = Some n ->
     set_gradient index value d =
     Ok tt (set_nodes (<[index := set_grad value n]> (nodes d)) d)) /\
  (forall d', set_gradient index value d = Ok tt d' ->
     scheduled d ⊆ scheduled d' /\ index ∈ scheduled d' /\
     (forall k, k ∈ scheduled d -> k <> index ->
        nodes d' !! k = nodes d !! k) /\
     (forall k, k ∈ scheduled d' -> k ∉ scheduled d -> k <> index ->
        exists n, nodes d !! k = Some n /\
          nodes d' !! k = Some (set_grad (Arr.zero (size n)) n)) /\
     (forall k, k ∉ scheduled d' -> nodes d' !! k = nodes d !! k) /\
     (exists n, nodes d' !! index = Some n /\ grad n = value)).
Proof.
  split; [apply set_gradient_total|]. split; [|intros d'; apply set_gradient_post].
  intros n Hi Hs Hn. unfold set_gradient.
  destruct (decide (index = 0)); [done|]. unfold bind.
  rewrite dfs_scheduled_noop by done. unfold modify_node. by rewrite Hn.
Qed.

End SetGradient.


Lemma set_gradient_dedup_witness :
  scheduled tape_seeded ⊆ scheduled tape_seeded' /\ 2 ∈ scheduled tape_seeded' /\
  (forall k, k ∈ scheduled tape_seeded -> k <> 2 ->
     nodes tape_seeded' !! k = nodes tape_seeded !! k) /\
  (forall k, k ∈ scheduled tape_seeded' -> k ∉ scheduled tape_seeded -> k <> 2 ->
     exists n, nodes tape_seeded !! k = Some n /\
       nodes tape_seeded' !! k = Some (set_grad (Arr.zero (size n)) n)) /\
  (forall k, k ∉ scheduled tape_seeded' ->
     nodes tape_seeded' !! k = nodes tape_seeded !! k) /\
  (exists n, nodes tape_seeded' !! 2 = Some n /\ grad n = [7%Z]).
Proof.
  destruct (set_gradient_dedup tape_seeded 2 [7%Z]) as (_ & _ & Hs).
  apply Hs. vm_compute. reflexivity.
Defined.

(** The second [set_gradient] reaches node 1, which the first one scheduled,
    and leaves its gradient as it is. *)
Lemma set_gradient_no_rezero :
  set_gradient 1 [5%Z] tape_chain = Ok tt tape_seeded /\
  set_gradient 2 [7%Z] tape_seeded = Ok tt tape_seeded' /\
  elements (scheduled tape_seeded) = [1] /\
  (edges <$> nodes tape_seeded !! 2) = Some [mkEdge 1 [2%Z] None] /\
  (grad <$> nodes tape_seeded' !! 1) = Some [5%Z] /\
  (grad <$> nodes tape_seeded' !! 1) <> Some (Arr.zero 1).
Proof.
  split; [vm_compute; reflexivity|]. split; [vm_compute; reflexivity|].
  split; [vm_compute; reflexivity|]. split; [vm_compute; reflexivity|].
  split; [vm_compute; reflexivity|]. vm_compute. discriminate.
Qed.

(** ** [graphviz] *)

Section Graphviz.
Context {T : Type} `{Scalar T}.

Lemma dfs_post_false (d d' : Detail T) :
  dfs_post false d d' -> d' = set_scheduled (scheduled d') d.
Proof.
  intros (_ & Hf & Hn).
  assert (Hnodes : nodes d' = nodes d).
  { apply map_eq. intros j. rewrite Hn. case_decide; [|done].
    unfold clear. by destruct (nodes d !! j). }
  rewrite Hf at 1. rewrite Hnodes. by destruct d.
Qed.

(** The traversals of [graphviz] only add to the scheduled set. *)
Lemma graphviz_dfs (indices_ : list N) (d : Detail T) :
  match for_each (fun index => dfs index false) indices_ d with
  | Ok _ d' | Throw _ d' => exists s, d' = set_scheduled s d
  | OutOfFuel => False
  end.
Proof.
  revert d. induction indices_ as [|k l IH]; intros d; simpl.
  - exists (scheduled d). by destruct d.
  - unfold bind. pose proof (dfs_spec k false d) as Hk.
    destruct (dfs k false d) as [[] d1| e d1|]; simpl in Hk; try done.
    + destruct Hk as (Hp & _). apply dfs_post_false in Hp.
      specialize (IH d1).
      destruct (for_each _ l d1) as [[] d2| e d2|]; try done.
      all: destruct IH as [s ->]; exists s; rewrite Hp; by destruct d.
    + apply dfs_post_false in Hk. eauto.
Qed.

(** The loops over the scheduled ids read the store and leave it. *)
Lemma lookup_loop (l : list N) (d : Detail T) :
  match for_each (fun index => let* _ := node index in ret tt) l d with
  | Ok _ d' | Throw _ d' => d' = d
  | OutOfFuel => False
  end.
Proof.
  induction l as [|k l IH]; simpl; [done|].
  unfold bind at 1. unfold bind at 1. unfold node.
  destruct (nodes d !! k); [|done]. apply IH.
Qed.

Lemma descending_empty : descending (∅ : gset N) = [].
Proof. unfold descending, ascending. rewrite elements_empty. reflexivity. Qed.

Lemma backward_nothing_scheduled (free_graph : bool) (d : Detail T) :
  scheduled d = ∅ ->
  backward free_graph d = Ok tt (if free_graph then set_last d else d).
Proof.
  intros Hs. unfold backward. rewrite Hs, descending_empty.
  destruct free_graph; simpl; unfold bind, ret; simpl.
  - destruct d; simpl in *; by subst.
  - destruct d; simpl in *; by subst.
Qed.

(** C9.  [graphviz] always comes to an end.  Its traversal runs into the
    scheduled set of the tape, the one [set_gradient] fills and [backward]
    consumes, without touching a gradient; when it returns, the tape is the
    one it was called on with the scheduled set emptied: every pending id is
    gone, and a [backward] that follows has no node to process and leaves
    every node as it is. *)
Theorem graphviz_discards_scheduled (indices_ : list N) (d : Detail T) :
  graphviz indices_ d <> OutOfFuel /\
  forall d', graphviz indices_ d = Ok tt d' ->
    d' = set_scheduled ∅ d /\
    nodes d' = nodes d /\
    scheduled d' = ∅ /\
    forall free_graph,
      backward free_graph d' = Ok tt (if free_graph then set_last d' else d').
Proof.
  unfold graphviz, bind.
  pose proof (graphviz_dfs indices_ d) as Hd.
  destruct (for_each _ indices_ d) as [[] d1| e d1|]; try done.
  destruct Hd as [s ->].
  pose proof (lookup_loop (ascending (scheduled (set_scheduled s d)))
                (set_scheduled s d)) as Hl.
  destruct (for_each _ (ascending (scheduled (set_scheduled s d))) (set_scheduled s d))
    as [[] d2| e d2|]; try done.
  subst d2.
  pose proof (lookup_loop (ascending (scheduled (set_scheduled s d)))
                (set_scheduled s d)) as Hl.
  destruct (for_each _ (ascending (scheduled (set_scheduled s d))) (set_scheduled s d))
    as [[] d2| e d2|]; try done.
  subst d2. split; [done|]. intros d' [= <-].
  split; [by destruct d|]. split; [done|]. split; [done|].
  intros fg. by apply backward_nothing_scheduled.
Qed.

End Graphviz.

Lemma graphviz_discards_scheduled_witness :
  elements (scheduled tape_seeded') = [2; 1] /\
  graphviz [2] tape_seeded' = Ok tt (set_scheduled ∅ tape_seeded') /\
  backward false (set_scheduled ∅ tape_seeded')
    = Ok tt (set_scheduled ∅ tape_seeded') /\
  (grad <$> nodes (exec (backward false) tape_seeded') !! 1) = Some [19%Z] /\
  (grad <$> nodes (exec (backward false) (exec (graphviz [2]) tape_seeded')) !! 1)
    = Some [5%Z].
Proof.
  assert (Hg : graphviz [2] tape_seeded' = Ok tt (set_scheduled ∅ tape_seeded'))
    by (vm_compute; reflexivity).
  destruct (graphviz_discards_scheduled [2] tape_seeded') as [_ Hs].
  destruct (Hs _ Hg) as (_ & _ & _ & Hb).
  split; [vm_compute; reflexivity|]. split; [exact Hg|].
  split; [exact (Hb false)|].
  split; vm_compute; reflexivity.
Defined.

(** ** The graph constructor leaves gradients alone *)

Section Frame.
Context {T : Type} `{Scalar T}.


Lemma edge_frame_trans tgt (d1 d2 d3 : Detail T) :
  edge_frame tgt d1 d2 -> edge_frame tgt d2 d3 -> edge_frame tgt d1 d3.
Proof.
  intros (Hs1 & He1 & Hc1) (Hs2 & He2 & Hc2). split; [|split].
  - intros k. by rewrite Hs2.
  - intros k Hk. rewrite He2 by done. by apply He1.
  - congruence.
Qed.

Lemma frame_result_bind {A B} tgt (d : Detail T)
    (m : Detail T -> result (Detail T) A)
    (k : A -> Detail T -> result (Detail T) B) :
  frame_result tgt d (m d) ->
  (forall a d', edge_frame tgt d d' -> frame_result tgt d' (k a d')) ->
  frame_result tgt d (bind m k d).
Proof.
  intros Hm Hk. unfold bind. destruct (m d) as [a d'| e d'|]; try done.
  simpl in Hm. specialize (Hk a d' Hm).
  destruct (k a d') as [b d''| e d''|]; try done; simpl in *;
    by eapply edge_frame_trans.
Qed.

Lemma frame_result_for_each {A} tgt (F : A -> Detail T -> result (Detail T) unit)
    (l : list A) :
  (forall a d, frame_result tgt d (F a d)) ->
  forall d, frame_result tgt d (for_each F l d).
Proof.
  intros HF. induction l as [|a l IH]; intros d; simpl; [done|].
  apply frame_result_bind; [apply HF|]. intros _ d' _. apply IH.
Qed.

Lemma node_frame tgt i (d : Detail T) : frame_result tgt d (node i d).
Proof. unfold node. by destruct (nodes d !! i). Qed.

Lemma modify_node_frame tgt i (f : Node T -> Node T) (d : Detail T) :
  (forall n, shape (f n) = shape n) ->
  (i <> tgt -> forall n, edges (f n) = edges n) ->
  frame_result tgt d (modify_node i f d).
Proof.
  intros Hs He. unfold modify_node.
  destruct (nodes d !! i) as [n|] eqn:Hn; [|done]. simpl.
  split; [|split; [|done]]; simpl.
  - intros k. destruct (decide (k = i)) as [->|Hk].
    + rewrite lookup_insert_eq, Hn. simpl. by rewrite Hs.
    + by rewrite lookup_insert_ne.
  - intros k Hk. destruct (decide (k = i)) as [->|Hki].
    + rewrite lookup_insert_eq, Hn. simpl. by rewrite He.
    + by rewrite lookup_insert_ne.
Qed.

Lemma inc_ref_frame tgt i (d : Detail T) : frame_result tgt d (inc_ref i d).
Proof.
  unfold inc_ref. destruct (decide (i = 0)); [done|].
  by apply modify_node_frame.
Qed.

Lemma merge_or_link_frame s t (nt : Node T) f w (d : Detail T) :
  frame_result t d (merge_or_link s t nt f w d).
Proof.
  unfold merge_or_link. destruct (merge_edge f s (edges nt)) as [es|].
  - apply frame_result_bind; [by apply modify_node_frame|].
    intros _ d' _. done.
  - apply frame_result_bind; [by apply modify_node_frame|].
    intros _ d' _. apply inc_ref_frame.
Qed.

Lemma frame_result_walk tgt s (body : Edge T -> Detail T -> result (Detail T) unit) :
  (forall e d, frame_result tgt d (body e d)) ->
  forall fuel i d, frame_result tgt d (walk_edges fuel s i body d).
Proof.
  intros Hb. induction fuel as [|fuel IH]; intros i d; simpl; [done|].
  destruct (nodes d !! s ≫= _) as [e|]; [|done].
  apply frame_result_bind; [apply Hb|]. intros _ d' _. apply IH.
Qed.

Lemma append_edge_prod_fuel_frame (f : nat) s t (w1 w2 : list T) (d : Detail T) :
  frame_result t d (append_edge_prod_fuel f s t w1 w2 d).
Proof.
  revert s w1 w2 d. induction f as [|f IH]; intros s w1 w2 d; [done|].
  cbn [append_edge_prod_fuel]. destruct (decide (s = 0)); [done|].
  apply frame_result_bind; [apply node_frame|]. intros ns d1 _.
  apply frame_result_bind; [apply node_frame|]. intros nt d2 _.
  destruct (contracts d2 ns nt).
  - apply frame_result_walk. intros e d3.
    apply frame_result_bind; [apply IH|]. intros _ d4 _. done.
  - apply merge_or_link_frame.
Qed.

Lemma append_edge_frame s t (w : list T) (d : Detail T) :
  frame_result t d (append_edge s t w d).
Proof.
  unfold append_edge. destruct (decide (s = 0)); [done|].
  apply frame_result_bind; [apply node_frame|]. intros ns d1 _.
  apply frame_result_bind; [apply node_frame|]. intros nt d2 _.
  destruct (contracts d2 ns nt).
  - apply frame_result_walk. intros e d3.
    apply frame_result_bind; [apply append_edge_prod_fuel_frame|].
    intros _ d4 _. done.
  - apply merge_or_link_frame.
Qed.

(** The calls of the contraction loop write to the target only: when the
    source is another node, the walk of its list is the walk of the list as
    it is at loop entry. *)
Lemma walk_edges_for_each s t (body : Edge T -> Detail T -> result (Detail T) unit)
    (es : list (Edge T)) :
  s <> t -> (forall e d, frame_result t d (body e d)) ->
  forall fuel i d,
    edges <$> nodes d !! s = Some es -> (length es - i < fuel)%nat ->
    walk_edges fuel s i body d = for_each body (drop i es) d.
Proof.
  intros Hst Hb. induction fuel as [|fuel IH]; intros i d Hes Hlen.
  - lia.
  - simpl. destruct (nodes d !! s) as [ns|] eqn:Hns; [|done].
    simpl in Hes. injection Hes as Hes. simpl. rewrite Hes.
    destruct (es !! i) as [e|] eqn:He.
    + rewrite (drop_S _ _ _ He). simpl. unfold bind.
      pose proof (Hb e d) as Hf.
      destruct (body e d) as [[] d'| |]; try done. simpl in Hf.
      apply lookup_lt_Some in He.
      apply IH; [|lia]. destruct Hf as (_ & Hf & _).
      rewrite Hf by done. by rewrite Hns, <- Hes.
    + apply lookup_ge_None in He. by rewrite drop_ge.
Qed.

Lemma append_edge_prod_fuel_S (f : nat) s t (w1 w2 : list T) (d : Detail T) :
  s <> t ->
  append_edge_prod_fuel (S f) s t w1 w2 d =
  (if decide (s = 0) then ret tt
   else
     let* src := node s in
     let* target := node t in
     fun d =>
     if contracts d src target then
       for_each (fun edge =>
           append_edge_prod_fuel f (source edge) t (safe_mul w1 w2) (weight edge) ;;
           fun d' => Ok tt (set_edge_contractions (wrap32 (edge_contractions d' + 1)) d'))
         (edges src) d
     else
       merge_or_link s t target (fun w => safe_fmadd w1 w2 w) (safe_mul w1 w2) d) d.
Proof.
  intros Hst. cbn [append_edge_prod_fuel]. destruct (decide (s = 0)); [done|].
  destruct (nodes d !! s) as [ns|] eqn:Hns;
    [|by rewrite !(bind_Throw _ _ _ _ _ (node_None _ _ Hns))].
  rewrite !(bind_Ok _ _ _ _ _ (node_Some _ _ _ Hns)).
  destruct (nodes d !! t) as [nt|] eqn:Hnt;
    [|by rewrite !(bind_Throw _ _ _ _ _ (node_None _ _ Hnt))].
  rewrite !(bind_Ok _ _ _ _ _ (node_Some _ _ _ Hnt)).
  destruct (contracts d ns nt); [|done].
  rewrite (walk_edges_for_each s t _ (edges ns)); [done|done| |by rewrite Hns|].
  - intros e d'. apply frame_result_bind; [apply append_edge_prod_fuel_frame|].
    intros _ d'' _. done.
  - unfold walk_fuel. lia.
Qed.

Lemma append_edge_unfold s t (w : list T) (d : Detail T) :
  s <> t ->
  append_edge s t w d =
  (if decide (s = 0) then ret tt
   else
     let* src := node s in
     let* target := node t in
     fun d =>
     if contracts d src target then
       for_each (fun edge =>
           append_edge_prod (source edge) t w (weight edge) ;;
           fun d' => Ok tt (set_edge_contractions (wrap32 (edge_contractions d' + 1)) d'))
         (edges src) d
     else
       merge_or_link s t target (fun w0 => Arr.vadd w0 w) w d) d.
Proof.
  intros Hst. unfold append_edge. destruct (decide (s = 0)); [done|].
  destruct (nodes d !! s) as [ns|] eqn:Hns;
    [|by rewrite !(bind_Throw _ _ _ _ _ (node_None _ _ Hns))].
  rewrite !(bind_Ok _ _ _ _ _ (node_Some _ _ _ Hns)).
  destruct (nodes d !! t) as [nt|] eqn:Hnt;
    [|by rewrite !(bind_Throw _ _ _ _ _ (node_None _ _ Hnt))].
  rewrite !(bind_Ok _ _ _ _ _ (node_Some _ _ _ Hnt)).
  destruct (contracts d ns nt); [|done].
  rewrite (walk_edges_for_each s t _ (edges ns)); [done|done| |by rewrite Hns|].
  - intros e d'. apply frame_result_bind; [apply append_edge_prod_fuel_frame|].
    intros _ d'' _. done.
  - unfold walk_fuel. lia.
Qed.

(** [append_node] on an id that is not in the store. *)
Lemma append_node_fresh (sz : N) (l : string) (d : Detail T) :
  nodes d !! node_counter d = None ->
  append_node sz l d =
  Ok (node_counter d)
    (set_nodes
       (<[node_counter d :=
            mkNode (prefixed d l) [] []
              (if decide (node_counter d = 0) then 0 else 1) (wrap32 sz)]>
          (nodes d))
       (set_node_counter (wrap32 (node_counter d + 1)) d)).
Proof.
  intros Hfresh. unfold append_node. simpl. rewrite Hfresh.
  unfold bind, modify_node. simpl. rewrite lookup_insert_eq. simpl.
  unfold inc_ref. destruct (decide (node_counter d = 0)) as [Hc|Hc].
  - simpl. unfold ret. rewrite insert_insert_eq. done.
  - unfold modify_node. simpl. rewrite lookup_insert_eq. simpl.
    unfold ret. rewrite !insert_insert_eq. done.
Qed.


Lemma zero_vsize (sz : N) : Arr.vsize (Arr.zero sz : list T) = sz.
Proof.
  unfold Arr.vsize, Arr.zero, Arr.full. rewrite length_replicate. lia.
Qed.

Lemma wrap32_small (x : N) : x < 2 ^ 32 -> wrap32 x = x.
Proof. intros Hx. unfold wrap32. by apply N.mod_small. Qed.

Lemma append_leaf_fresh (sz : N) (d : Detail T) :
  nodes d !! node_counter d = None ->
  append_leaf sz d =
  Ok (node_counter d)
    (set_nodes
       (<[node_counter d :=
            mkNode (prefixed d "'unnamed'") (Arr.zero (wrap32 sz)) []
              (if decide (node_counter d = 0) then 0 else 1) (wrap32 sz)]>
          (nodes d))
       (set_node_counter (wrap32 (node_counter d + 1)) d)).
Proof.
  intros Hfresh. unfold append_leaf.
  rewrite (bind_Ok _ _ _ _ _ (append_node_fresh sz _ d Hfresh)).
  unfold bind, node, modify_node. simpl. rewrite lookup_insert_eq. simpl.
  rewrite lookup_insert_eq. unfold ret. by rewrite insert_insert_eq.
Qed.

(** The node a pointwise [append] has made, with its gradient. *)
Lemma append_edges_grad (idx : N) (d1 d' : Detail T) n :
  nodes d1 !! idx = Some n ->
  edge_frame idx d1 d' ->
  exists n', nodes d' !! idx = Some n' /\ grad n' = grad n /\ size n' = size n.
Proof.
  intros Hn (Hs & _). specialize (Hs idx). rewrite Hn in Hs.
  destruct (nodes d' !! idx) as [n'|]; [|done]. exists n'.
  simpl in Hs. unfold shape in Hs. split; [done|]. split; congruence.
Qed.

Lemma append_default_grad (d d' : Detail T) (l : string) (sz : N)
    (i1 i2 i3 : N) (w1 w2 w3 : list T) (idx : N) :
  nodes d !! node_counter d = None ->
  append1 l sz i1 w1 d = Ok idx d' \/
  append2 l sz i1 i2 w1 w2 d = Ok idx d' \/
  append3 l sz i1 i2 i3 w1 w2 w3 d = Ok idx d' ->
  idx <> 0 ->
  idx = node_counter d /\ scheduled d' = scheduled d /\
  exists n, nodes d' !! idx = Some n /\ grad n = [] /\ size n = wrap32 sz.
Proof.
  intros Hfresh Happ Hidx.
  pose proof (append_node_fresh sz l d Hfresh) as Hnode.
  set (d1 := set_nodes _ _) in Hnode.
  assert (Hn1 : nodes d1 !! node_counter d =
                Some (mkNode (prefixed d l) [] []
                        (if decide (node_counter d = 0) then 0 else 1) (wrap32 sz))).
  { unfold d1. simpl. apply lookup_insert_eq. }
  assert (Hgo : forall d2, edge_frame (node_counter d) d1 d2 ->
            scheduled d2 = scheduled d /\
            exists n, nodes d2 !! node_counter d = Some n /\ grad n = [] /\
                      size n = wrap32 sz).
  { intros d2 Hfr. split.
    - destruct Hfr as (_ & _ & Hc). unfold config in Hc. simpl in Hc. congruence.
    - destruct (append_edges_grad _ _ _ _ Hn1 Hfr) as (n' & ? & ? & ?). eauto. }
  destruct Happ as [Happ|[Happ|Happ]].
  - unfold append1 in Happ. destruct (decide (i1 = 0)); [by injection Happ as <-|].
    rewrite (bind_Ok _ _ _ _ _ Hnode) in Happ. unfold bind in Happ.
    pose proof (append_edge_frame i1 (node_counter d) w1 d1) as Hf1.
    destruct (append_edge i1 _ w1 d1) as [[] d2| |]; try done.
    injection Happ as <- <-. split; [done|]. by apply Hgo.
  - unfold append2 in Happ.
    destruct (decide (i1 = 0 /\ i2 = 0)); [by injection Happ as <-|].
    rewrite (bind_Ok _ _ _ _ _ Hnode) in Happ. unfold bind in Happ.
    pose proof (append_edge_frame i1 (node_counter d) w1 d1) as Hf1.
    destruct (append_edge i1 _ w1 d1) as [[] d2| |]; try done.
    pose proof (append_edge_frame i2 (node_counter d) w2 d2) as Hf2.
    destruct (append_edge i2 _ w2 d2) as [[] d3| |]; try done.
    injection Happ as <- <-. split; [done|]. apply Hgo.
    by eapply edge_frame_trans.
  - unfold append3 in Happ.
    destruct (decide (i1 = 0 /\ i2 = 0 /\ i3 = 0)); [by injection Happ as <-|].
    rewrite (bind_Ok _ _ _ _ _ Hnode) in Happ. unfold bind in Happ.
    pose proof (append_edge_frame i1 (node_counter d) w1 d1) as Hf1.
    destruct (append_edge i1 _ w1 d1) as [[] d2| |]; try done.
    pose proof (append_edge_frame i2 (node_counter d) w2 d2) as Hf2.
    destruct (append_edge i2 _ w2 d2) as [[] d3| |]; try done.
    pose proof (append_edge_frame i3 (node_counter d) w3 d3) as Hf3.
    destruct (append_edge i3 _ w3 d3) as [[] d4| |]; try done.
    injection Happ as <- <-. split; [done|]. apply Hgo.
    eapply edge_frame_trans; [|done]. by eapply edge_frame_trans.
Qed.


Lemma gradient_Some (d : Detail T) i n :
  i <> 0 -> nodes d !! i = Some n -> gradient i d = Ok (grad n) d.
Proof.
  intros Hi Hn. unfold gradient. destruct (decide (i = 0)); [done|].
  unfold bind, node. by rewrite Hn.
Qed.

(** C10.  On a tape whose next id is not in the store and is not the null
    id: [append_leaf size], for a size that fits [uint32_t], returns that id
    and leaves the tape such that [gradient] of the new leaf is zero of
    shape [size], before any [set_gradient] or [backward].  The node that a
    pointwise [append] returns has the default-constructed gradient, the
    empty array; after a later [set_gradient] on another node it still has
    it when the traversal has not scheduled it, and has zero of its size when
    the traversal has. *)
Theorem fresh_node_grad (d : Detail T) :
  nodes d !! node_counter d = None ->
  node_counter d <> 0 ->
  (forall sz, sz < 2 ^ 32 ->
     exists d', append_leaf sz d = Ok (node_counter d) d' /\
       gradient (node_counter d) d' = Ok (Arr.zero sz) d' /\
       Arr.vsize (Arr.zero sz : list T) = sz) /\
  (forall l sz i1 i2 i3 w1 w2 w3 idx d',
     append1 l sz i1 w1 d = Ok idx d' \/
     append2 l sz i1 i2 w1 w2 d = Ok idx d' \/
     append3 l sz i1 i2 i3 w1 w2 w3 d = Ok idx d' ->
     idx <> 0 ->
     gradient idx d' = Ok [] d' /\
     forall j value d'',
       idx ∉ scheduled d -> j <> idx ->
       set_gradient j value d' = Ok tt d'' ->
       (idx ∉ scheduled d'' -> gradient idx d'' = Ok [] d'') /\
       (idx ∈ scheduled d'' -> gradient idx d'' = Ok (Arr.zero (wrap32 sz)) d'')).
Proof.
  intros Hfresh Hc. split.
  - intros sz Hsz. eexists. split; [by apply append_leaf_fresh|].
    split; [|apply zero_vsize].
    erewrite gradient_Some; [|done|simpl; apply lookup_insert_eq].
    simpl. by rewrite wrap32_small.
  - intros l sz i1 i2 i3 w1 w2 w3 idx d' Happ Hidx.
    destruct (append_default_grad _ _ _ _ _ _ _ _ _ _ _ Hfresh Happ Hidx)
      as (-> & Hs & n & Hn & Hg & Hsz).
    split; [by rewrite (gradient_Some _ _ _ Hidx Hn), Hg|].
    intros j value d'' Hns Hj Hset.
    destruct (set_gradient_post _ _ _ _ Hset) as (_ & _ & _ & Hnew & Hout & _).
    split.
    + intros Hns'. specialize (Hout _ Hns'). rewrite Hn in Hout.
      by rewrite (gradient_Some _ _ _ Hidx Hout), Hg.
    + intros Hs'. destruct (Hnew (node_counter d) Hs') as (n0 & Hn0 & Hn0');
        [by rewrite Hs|done|].
      rewrite Hn in Hn0. injection Hn0 as <-.
      rewrite (gradient_Some _ _ _ Hidx Hn0'). simpl. by rewrite Hsz.
Qed.

End Frame.


Lemma fresh_node_grad_witness :
  nodes tape_leaf !! node_counter tape_leaf = None /\
  node_counter tape_leaf = 2 /\
  (exists d', append_leaf 4 tape_leaf = Ok 2 d' /\
     gradient 2 d' = Ok [0; 0; 0; 0]%Z d') /\
  gradient 2 (exec (append1 "mul" 1 1 [2%Z]) tape_leaf)
    = Ok [] (exec (append1 "mul" 1 1 [2%Z]) tape_leaf).
Proof.
  assert (Hf : nodes tape_leaf !! node_counter tape_leaf = None)
    by (vm_compute; reflexivity).
  assert (Hc : node_counter tape_leaf <> 0) by (vm_compute; discriminate).
  destruct (fresh_node_grad tape_leaf Hf Hc) as [Hleaf Happ].
  split; [exact Hf|]. split; [vm_compute; reflexivity|]. split.
  - destruct (Hleaf 4 ltac:(vm_compute; reflexivity)) as (d' & H1 & H2 & _).
    exists d'. split; [exact H1|exact H2].
  - refine (proj1 (Happ "mul"%string 1 1 0 0 [2%Z] [] [] 2 _ (or_introl _) _)).
    + vm_compute. reflexivity.
    + discriminate.
Defined.

(** ** The test of the contraction loop *)

Section ContractsTest.
Context {T : Type} `{Scalar T}.

Lemma degree_length (n : Node T) :
  degree n = wrap32 (N.of_nat (length (edges n))).
Proof.
  unfold degree. induction (edges n) as [|e es IH] using rev_ind; [done|].
  rewrite foldl_app. simpl. rewrite IH, length_app. simpl.
  unfold wrap32. rewrite N.Div0.add_mod_idemp_l. f_equal. lia.
Qed.

Lemma has_special_false (n : Node T) :
  has_special n = false <-> Forall (fun e => special e = None) (edges n).
Proof.
  unfold has_special. induction (edges n) as [|e es IH] using rev_ind.
  - simpl. split; [constructor|done].
  - rewrite foldl_app. simpl. rewrite orb_false_iff, IH, Forall_app, Forall_singleton.
    unfold is_special. destruct (special e); split; intros [? ?]; split; done.
Qed.

(** The test of the contraction loop, for a source whose edges can be
    counted in an [Index]. *)
Lemma contracts_spec (d : Detail T) (src tgt : Node T) :
  N.of_nat (length (edges src)) < 2 ^ 32 ->
  contracts d src tgt = true <->
  contract_edges d = true /\ edges src <> [] /\ size src = size tgt /\
  Forall (fun e => special e = None) (edges src).
Proof.
  intros Hlen. unfold contracts.
  rewrite !andb_true_iff, negb_true_iff, has_special_false, N.eqb_eq, N.ltb_lt.
  rewrite degree_length, wrap32_small by done.
  assert (0 < N.of_nat (length (edges src)) <-> edges src <> []).
  { destruct (edges src); simpl; split; try done; lia. }
  tauto.
Qed.


End ContractsTest.

(** ** [append_scatter] *)

Section Scatter.
Context {T : Type} `{Scalar T}.
Import Arr.









End Scatter.

Section AppendScatter.
Context {T : Type} `{Scalar T}.

Lemma append_node_Ok (sz : N) (l : string) (d : Detail T) :
  exists d', append_node sz l d = Ok (node_counter d) d' /\
    node_counter d' = wrap32 (node_counter d + 1).
Proof.
  unfold append_node. simpl.
  set (d2 := match nodes d !! node_counter d with
             | Some _ => set_node_counter (wrap32 (node_counter d + 1)) d
             | None => set_nodes _ _
             end).
  assert (Hc : node_counter d2 = wrap32 (node_counter d + 1)).
  { unfold d2. by destruct (nodes d !! node_counter d). }
  assert (Hn : is_Some (nodes d2 !! node_counter d)).
  { unfold d2. destruct (nodes d !! node_counter d) eqn:Hl; simpl.
    - by rewrite Hl.
    - by rewrite lookup_insert_eq. }
  destruct Hn as [n Hn]. unfold bind, modify_node. rewrite Hn.
  unfold inc_ref. destruct (decide (node_counter d = 0)).
  - eexists. split; [reflexivity|]. done.
  - unfold modify_node. simpl. rewrite lookup_insert_eq.
    eexists. split; [reflexivity|]. done.
Qed.

Lemma append2_idx (l : string) (sz i1 i2 : N) (w1 w2 : list T)
    (d d' : Detail T) idx :
  ~ (i1 = 0 /\ i2 = 0) ->
  append2 l sz i1 i2 w1 w2 d = Ok idx d' -> idx = node_counter d.
Proof.
  intros Hi. unfold append2. destruct (decide (i1 = 0 /\ i2 = 0)); [done|].
  destruct (append_node_Ok sz l d) as (d1 & Hd1 & _).
  rewrite (bind_Ok _ _ _ _ _ Hd1). unfold bind.
  destruct (append_edge i1 _ w1 d1) as [[] d2| |]; try done.
  destruct (append_edge i2 _ w2 d2) as [[] d3| |]; try done.
  by intros [= <- _].
Qed.

End AppendScatter.

Section ScatterSteps.
Context {T : Type} `{Scalar T}.







End ScatterSteps.


(** A second scatter into the same buffer: the old state of the buffer is
    the "scatter_combine" node 4 of the first one, a node of the size of
    the buffer with two pointwise edges, so the edge from it is contracted.
    The new combined node 6 has the parents 5, 3 and 1, not 5 and 4, and
    node 4, which the slot released, is freed. *)
Lemma append_scatter_contracted :
  scatter_gather_index (exec (append_scatter 2 [1; 1]%Z [true]) tape_buffer)
    = Some 4 /\
  exists d2,
    append_scatter 2 [0; 0]%Z [true]
      (exec (append_scatter 2 [1; 1]%Z [true]) tape_buffer) = Ok tt d2 /\
    scatter_gather_index d2 = Some 6 /\
    (label <$> nodes d2 !! 6) = Some "scatter_combine"%string /\
    (fmap source <$> (edges <$> nodes d2 !! 6)) = Some [5; 3; 1] /\
    nodes d2 !! 4 = None.
Proof.
  split; [vm_compute; reflexivity|].
  exists (exec (append_scatter 2 [0; 0]%Z [true])
            (exec (append_scatter 2 [1; 1]%Z [true]) tape_buffer)).
  split; [vm_compute; reflexivity|]. split; [vm_compute; reflexivity|].
  split; [vm_compute; reflexivity|]. split; vm_compute; reflexivity.
Qed.

(** ** The reverse sweep *)

(** A write that leaves the edges of the node as they are. *)
Ltac same_edges := let n := fresh "n" in intros n; simpl; reflexivity.

Section Below.
Context {T : Type} `{Scalar T}.

Lemma shrink_refl (d : Detail T) : shrink d d.
Proof. intros k n Hn. by exists n. Qed.

Lemma shrink_trans (d1 d2 d3 : Detail T) :
  shrink d1 d2 -> shrink d2 d3 -> shrink d1 d3.
Proof.
  intros H1 H2 k n3 Hn3. destruct (H2 k n3 Hn3) as (n2 & Hn2 & He2).
  destruct (H1 k n2 Hn2) as (n1 & Hn1 & He1). exists n1. split; [done|].
  by etrans.
Qed.

Lemma ordered_shrink (d d' : Detail T) : ordered d -> shrink d d' -> ordered d'.
Proof.
  intros Ho Hs t n' e' Hn' He'. destruct (Hs t n' Hn') as (n & Hn & He).
  assert (Hin : source e' ∈ source <$> edges n).
  { eapply elem_of_sublist; [|done]. apply list_elem_of_fmap. by exists e'. }
  apply list_elem_of_fmap in Hin as (e & -> & Hin). by eapply Ho.
Qed.

Lemma below_refl j (d : Detail T) : below j d d.
Proof. split; [done|apply shrink_refl]. Qed.

Lemma below_trans j (d1 d2 d3 : Detail T) :
  below j d1 d2 -> below j d2 d3 -> below j d1 d3.
Proof.
  intros [Ha1 Hs1] [Ha2 Hs2]. split; [|by eapply shrink_trans].
  intros k Hk. rewrite Ha2 by done. by apply Ha1.
Qed.

Lemma below_mono j j' (d d' : Detail T) : j <= j' -> below j d d' -> below j' d d'.
Proof. intros Hj [Ha Hs]. split; [|done]. intros k Hk. apply Ha. lia. Qed.

Lemma below_result_mono {A} j j' (d : Detail T) (r : result (Detail T) A) :
  j <= j' -> below_result j d r -> below_result j' d r.
Proof. intros Hj. destruct r; simpl; try done; by apply below_mono. Qed.

Lemma below_result_bind {A B} j (d : Detail T)
    (m : Detail T -> result (Detail T) A)
    (k : A -> Detail T -> result (Detail T) B) :
  below_result j d (m d) ->
  (forall a d', below j d d' -> below_result j d' (k a d')) ->
  below_result j d (bind m k d).
Proof.
  intros Hm Hk. unfold bind. destruct (m d) as [a d'| e d'|]; try done.
  simpl in Hm. specialize (Hk a d' Hm).
  destruct (k a d') as [b d''| e d''|]; try done; simpl in *;
    by eapply below_trans.
Qed.

Lemma node_below j i (d : Detail T) : below_result j d (node i d).
Proof. unfold node. destruct (nodes d !! i); apply below_refl. Qed.

Lemma modify_node_below j i (f : Node T -> Node T) (d : Detail T) :
  i <= j ->
  (forall n, (source <$> edges (f n)) `sublist_of` (source <$> edges n)) ->
  below_result j d (modify_node i f d).
Proof.
  intros Hi Hf. unfold modify_node.
  destruct (nodes d !! i) as [n|] eqn:Hn; [|apply below_refl]. simpl.
  split; simpl.
  - intros k Hk. apply lookup_insert_ne. lia.
  - intros k n'. simpl. destruct (decide (k = i)) as [->|Hki].
    + rewrite lookup_insert_eq. intros [= <-]. exists n. split; [done|]. apply Hf.
    + rewrite lookup_insert_ne by done. intros Hn'. by exists n'.
Qed.

Lemma delete_below j i (d : Detail T) :
  i <= j -> below j d (set_nodes (delete i (nodes d)) d).
Proof.
  intros Hi. split; simpl.
  - intros k Hk. apply lookup_delete_ne. lia.
  - intros k n'. simpl. intros Hn'. apply lookup_delete_Some in Hn' as [_ Hn'].
    by exists n'.
Qed.

(** [dec_ref] writes to the node and, through [free_node], to the sources of
    its edges, which have smaller ids. *)
Lemma dec_ref_fuel_below (f : nat) (j : N) (d : Detail T) :
  ordered d -> below_partial j d (dec_ref_fuel f j d).
Proof.
  revert j d. induction f as [|f IH]; intros j d Ho; [done|]. simpl.
  destruct (decide (j = 0)) as [|Hj]; [apply below_refl|].
  unfold bind, node, throw, modify_node.
  destruct (nodes d !! j) as [n|] eqn:Hn; [|apply below_refl].
  destruct (ref_count n =? 0); [apply below_refl|]. rewrite Hn.
  set (d1 := set_nodes (<[j:=set_ref_count (ref_count n - 1) n]> (nodes d)) d).
  assert (Hb1 : below j d d1).
  { pose proof (modify_node_below j j (set_ref_count (ref_count n - 1)) d
                  ltac:(lia) ltac:(done)) as Hm.
    unfold modify_node in Hm. by rewrite Hn in Hm. }
  destruct (ref_count n - 1 =? 0); [|done].
  unfold free_node_with. simpl. rewrite lookup_insert_eq. simpl.
  assert (Hloop : forall (l : list (Edge T)) (d2 : Detail T),
    (forall e, e ∈ l -> source e < j) -> ordered d2 ->
    below_partial j d2
      (for_each (fun edge => dec_ref_fuel f (source edge)) l d2)).
  { induction l as [|e l IHl]; intros d2 Hl Ho2; simpl; [apply below_refl|].
    unfold bind. specialize (IH (source e) d2 Ho2). unfold below_partial in *.
    destruct (dec_ref_fuel f (source e) d2) as [[] d3| e3 d3|]; try done.
    - assert (Hb3 : below j d2 d3).
      { eapply below_mono; [|done]. apply N.lt_le_incl, Hl. set_solver. }
      specialize (IHl d3 ltac:(set_solver)
                    (ordered_shrink _ _ Ho2 (proj2 Hb3))).
      destruct (for_each _ l d3) as [[] d4| e4 d4|]; try done;
        by eapply below_trans.
    - eapply below_mono; [|done]. apply N.lt_le_incl, Hl. set_solver. }
  specialize (Hloop (edges n) d1 ltac:(intros e He; by eapply Ho)
                (ordered_shrink _ _ Ho (proj2 Hb1))).
  unfold bind, below_partial in *.
  destruct (for_each _ (edges n) d1) as [[] d4| e4 d4|]; try done.
  - eapply below_trans; [done|]. eapply below_trans; [done|].
    apply delete_below. lia.
  - by eapply below_trans.
Qed.

Lemma dec_ref_below (j : N) (d : Detail T) :
  ordered d -> below_result j d (dec_ref j d).
Proof.
  intros Ho. pose proof (dec_ref_live j d) as Hl. unfold dec_ref in *.
  pose proof (dec_ref_fuel_below (S (base.size (nodes d))) j d Ho) as Hb.
  by destruct (dec_ref_fuel _ j d).
Qed.


Lemma below_result_for_each {A} j (F : A -> Detail T -> result (Detail T) unit)
    (l : list A) (d : Detail T) :
  (forall a d', a ∈ l -> ordered d' -> below_result j d' (F a d')) ->
  ordered d -> below_result j d (for_each F l d).
Proof.
  revert d. induction l as [|a l IH]; intros d HF Ho; simpl; [apply below_refl|].
  apply below_result_bind; [apply HF; [set_solver|done]|].
  intros _ d' Hb. apply IH; [|by eapply ordered_shrink, Hb].
  intros a' d'' Ha'. apply HF. set_solver.
Qed.

Lemma when_below j (b : bool) (m : Detail T -> result (Detail T) unit)
    (d : Detail T) :
  (b = true -> below_result j d (m d)) -> below_result j d (when b m d).
Proof. destruct b; simpl; [auto|intros _; apply below_refl]. Qed.

Lemma compute_gradients_below (s : Special) (t : N) (e : Edge T) (d : Detail T) :
  source e <= t -> below_result t d (compute_gradients s t e d).
Proof.
  intros He. unfold compute_gradients.
  apply below_result_bind; [apply node_below|]. intros nt d1 _.
  apply below_result_bind; [apply node_below|]. intros ns d2 _.
  destruct s; apply modify_node_below; try done; same_edges.
Qed.

Lemma alter_special_sources (i : nat) (es : list (Edge T)) :
  source <$> alter (set_special None) i es = source <$> es.
Proof.
  apply list_eq. intros k. rewrite !list_lookup_fmap, list_lookup_alter.
  case_decide; [|done]. subst. destruct (es !! k); reflexivity.
Qed.

Lemma backward_edge_below (fg : bool) (t : N) (ie : nat * Edge T) (d : Detail T) :
  ordered d -> source (snd ie) < t ->
  below_result t d (backward_edge fg t ie d).
Proof.
  intros Ho He. unfold backward_edge.
  apply below_result_bind.
  - destruct (special (snd ie)) as [s|].
    + apply below_result_bind; [apply compute_gradients_below; lia|].
      intros _ d1 _. apply when_below. intros _.
      apply modify_node_below; [lia|]. intros n. simpl.
      by rewrite alter_special_sources.
    + apply below_result_bind; [apply node_below|]. intros ns d1 _.
      apply below_result_bind; [apply node_below|]. intros nt d2 _.
      apply modify_node_below; [lia|]. same_edges.
  - intros _ d1 Hb. apply when_below. intros _.
    eapply below_result_mono; [|apply dec_ref_below].
    + lia.
    + by eapply ordered_shrink, Hb.
Qed.

Lemma backward_target_below (fg : bool) (t : N) (d : Detail T) :
  ordered d -> below_result t d (backward_target fg t d).
Proof.
  intros Ho. unfold backward_target. unfold bind at 1. unfold node.
  destruct (nodes d !! t) as [n|] eqn:Hn; [|apply below_refl].
  apply below_result_bind.
  { apply when_below. intros _. apply modify_node_below; [lia|]. same_edges. }
  intros _ d1 Hb1. apply below_result_bind.
  { apply below_result_for_each; [|by eapply ordered_shrink, Hb1].
    intros [i e] d2 Hie Ho2. apply backward_edge_below; [done|]. simpl.
    apply (Ho t n e Hn). apply list_elem_of_lookup in Hie as [k Hk].
    rewrite list_lookup_imap in Hk.
    destruct (edges n !! k) as [e0|] eqn:He0; [|done]. simpl in Hk.
    injection Hk as <- <-. apply list_elem_of_lookup. by exists k. }
  intros _ d2 Hb2. apply when_below. intros _.
  assert (Ho2 : ordered d2).
  { eapply ordered_shrink, Hb2. by eapply ordered_shrink, Hb1. }
  apply below_result_bind.
  { apply modify_node_below; [lia|]. intros n0. simpl. apply sublist_nil_l. }
  intros _ d3 Hb3. apply dec_ref_below. by eapply ordered_shrink, Hb3.
Qed.

(** The targets that follow [t] in the sweep leave the node [t] alone. *)
Lemma sweep_rest_below (fg : bool) (t : N) (post : list N) (d : Detail T) :
  ordered d -> (forall t', t' ∈ post -> t' < t) ->
  match for_each (backward_target fg) post d with
  | Ok _ d' | Throw _ d' => forall k, t <= k -> nodes d' !! k = nodes d !! k
  | OutOfFuel => False
  end.
Proof.
  intros Ho Hpost.
  assert (Hb : below_result (t - 1) d (for_each (backward_target fg) post d)).
  { apply below_result_for_each; [|done].
    intros t' d' Ht' Ho'.
    eapply below_result_mono; [|by apply backward_target_below].
    specialize (Hpost t' Ht'). lia. }
  destruct post as [|t0 post]; [done|].
  assert (Ht : t0 < t) by (apply Hpost; set_solver).
  destruct (for_each _ (t0 :: post) d); simpl in Hb; try done;
    intros k Hk; apply Hb; lia.
Qed.

End Below.

Section Sweep.
Context {T : Type} `{Scalar T}.

Lemma lt_sorted_of_le (l : list N) :
  StronglySorted N.le l -> NoDup l -> StronglySorted N.lt l.
Proof.
  induction 1 as [|x l Hl IH Hx]; intros Hnd; [constructor|].
  apply NoDup_cons in Hnd as [Hx' Hnd]. constructor; [by apply IH|].
  rewrite Forall_forall in Hx |- *. intros y Hy. specialize (Hx y Hy).
  assert (x <> y) by (intros ->; done). lia.
Qed.

Lemma sorted_reverse (R : relation N) (l : list N) :
  StronglySorted R l -> StronglySorted (fun a b => R b a) (reverse l).
Proof.
  induction 1 as [|x l Hl IH Hx]; [constructor|].
  rewrite reverse_cons. apply StronglySorted_app. split; [|split].
  - intros a b Ha Hb. apply list_elem_of_singleton in Hb as ->.
    rewrite Forall_forall in Hx. apply Hx. by apply elem_of_reverse.
  - done.
  - repeat constructor.
Qed.

Lemma descending_sorted (s : gset N) :
  StronglySorted (fun a b => b < a) (descending s) /\
  forall k, k ∈ descending s <-> k ∈ s.
Proof.
  unfold descending, ascending. split.
  - apply sorted_reverse, lt_sorted_of_le.
    + apply StronglySorted_merge_sort; apply _.
    + rewrite merge_sort_Permutation. apply NoDup_elements.
  - intros k. rewrite elem_of_reverse, merge_sort_Permutation.
    apply elem_of_elements.
Qed.

Lemma descending_split (s : gset N) (pre post : list N) (t : N) :
  descending s = pre ++ t :: post ->
  (forall t', t' ∈ post -> t' < t) /\ (forall t', t' ∈ pre -> t < t').
Proof.
  intros Hd. destruct (descending_sorted s) as [Hs _]. rewrite Hd in Hs.
  apply StronglySorted_app in Hs as (Hpre & _ & Hpost).
  apply StronglySorted_cons in Hpost as [Hpost _].
  rewrite Forall_forall in Hpost. split; [done|].
  intros t' Ht'. apply (Hpre t' t Ht'). set_solver.
Qed.

Lemma inc_ref_all_shrink (l : list N) (d : Detail T) :
  match for_each inc_ref l d with
  | Ok _ d' | Throw _ d' => shrink d d'
  | OutOfFuel => False
  end.
Proof.
  revert d. induction l as [|i l IH]; intros d; simpl; [apply shrink_refl|].
  unfold bind.
  assert (Hi : below_result i d (inc_ref i d)).
  { unfold inc_ref. destruct (decide (i = 0)) as [|Hi0]; [apply below_refl|].
    apply modify_node_below; [lia|]. same_edges. }
  destruct (inc_ref i d) as [[] d1| e d1|]; simpl in Hi; try done.
  - specialize (IH d1). destruct (for_each inc_ref l d1); try done;
      eapply shrink_trans; try done; apply Hi.
  - apply Hi.
Qed.

Lemma sweep_upto_ordered (fg : bool) (order upto : list N) (d d1 : Detail T) :
  ordered d -> sweep_upto fg order upto d = Ok tt d1 -> ordered d1.
Proof.
  intros Ho. unfold sweep_upto, bind.
  assert (Hpre : match when fg (for_each inc_ref order) d with
                 | Ok _ d' | Throw _ d' => shrink d d'
                 | OutOfFuel => False
                 end).
  { destruct fg; simpl; [apply inc_ref_all_shrink|apply shrink_refl]. }
  destruct (when fg (for_each inc_ref order) d) as [[] d0| |]; try done.
  pose proof (ordered_shrink _ _ Ho Hpre) as Ho0.
  clear Hpre. revert d0 Ho0. induction upto as [|t l IH]; intros d0 Ho0; simpl.
  - by intros [= <-].
  - unfold bind. pose proof (backward_target_below fg t d0 Ho0) as Hb.
    destruct (backward_target fg t d0) as [[] d2| |]; try done.
    simpl in Hb. apply IH. by eapply ordered_shrink, Hb.
Qed.

(** C3.  [backward] takes the scheduled ids from the largest to the
    smallest.  At each target it first replaces the gradient by its
    horizontal sum when the node is scalar-shaped and the gradient is not of
    size 1, then walks the edges; at an edge that is not special it sets
    [grad[source]] to [safe_fmadd(weight, grad[target], grad[source])].
    On a tape whose edges all lead to smaller ids, for a target [t] with
    the targets [pre] before it and [post] after it in the sweep: every
    scheduled node with an edge from [t] is in [pre], so it has made its
    contribution before the turn of [t]; and from the state [d1] that the
    turn of [t] leaves, the rest of the sweep comes to an end and writes to
    no node with an id from [t] upwards, so the gradient [t] was consumed
    with is the one [backward] returns. *)
Theorem backward_descending (free_graph : bool) (d : Detail T) :
  (StronglySorted (fun a b => b < a) (descending (scheduled d)) /\
   forall k, k ∈ descending (scheduled d) <-> k ∈ scheduled d) /\
  (forall t nt (d0 : Detail T), nodes d0 !! t = Some nt ->
     backward_target free_graph t d0 =
     (for_each (backward_edge free_graph t) (imap pair (edges nt)) ;;
      when free_graph (modify_node t (set_edges []) ;; dec_ref t))
       (if is_scalar nt && negb (Arr.vsize (grad nt) =? 1)
        then set_nodes (<[t := set_grad (Arr.hsum (grad nt)) nt]> (nodes d0)) d0
        else d0)) /\
  (forall t i e ns nt (d0 : Detail T),
     special e = None ->
     nodes d0 !! source e = Some ns -> nodes d0 !! t = Some nt ->
     backward_edge free_graph t (i, e) d0 =
     when free_graph (dec_ref (source e))
       (set_nodes (<[source e :=
          set_grad (safe_fmadd (weight e) (grad nt) (grad ns)) ns]> (nodes d0)) d0)) /\
  (ordered d ->
   forall pre t post, descending (scheduled d) = pre ++ t :: post ->
     backward free_graph d =
       (sweep_upto free_graph (descending (scheduled d)) (pre ++ [t]) ;;
        for_each (backward_target free_graph) post ;;
        when free_graph (fun d' => Ok tt (set_last d')) ;;
        fun d' => Ok tt (set_scheduled ∅ d')) d /\
     (forall t' n' e, t' ∈ scheduled d -> nodes d !! t' = Some n' ->
        e ∈ edges n' -> source e = t -> t' ∈ pre) /\
     forall d1,
       sweep_upto free_graph (descending (scheduled d)) (pre ++ [t]) d = Ok tt d1 ->
       match for_each (backward_target free_graph) post d1 with
       | Ok _ d2 | Throw _ d2 => forall k, t <= k -> nodes d2 !! k = nodes d1 !! k
       | OutOfFuel => False
       end /\
       forall d', backward free_graph d = Ok tt d' ->
         forall k, t <= k -> nodes d' !! k = nodes d1 !! k).
Proof.
  split; [apply descending_sorted|]. split; [|split].
  - intros t nt d0 Hn. unfold backward_target. unfold bind at 1. unfold node.
    rewrite Hn. unfold bind at 1. unfold when at 1.
    destruct (is_scalar nt && negb (Arr.vsize (grad nt) =? 1)).
    + unfold modify_node. by rewrite Hn.
    + done.
  - intros t i e ns nt d0 He Hns Hnt. unfold backward_edge. simpl. rewrite He.
    unfold bind, node, modify_node. by rewrite Hns, Hnt, Hns.
  - intros Ho pre t post Hd.
    destruct (descending_split _ _ _ _ Hd) as [Hpost Hpre].
    assert (Heq : backward free_graph d =
       (sweep_upto free_graph (descending (scheduled d)) (pre ++ [t]) ;;
        for_each (backward_target free_graph) post ;;
        when free_graph (fun d' => Ok tt (set_last d')) ;;
        fun d' => Ok tt (set_scheduled ∅ d')) d).
    { unfold backward, sweep_upto, bind.
      destruct (when free_graph _ d) as [[] d0| |]; try done.
      rewrite Hd, (cons_middle t pre post), app_assoc.
      rewrite for_each_app. unfold bind.
      by destruct (for_each _ (pre ++ [t]) d0) as [[] d2| |]. }
    split; [exact Heq|]. split.
    { intros t' n' e Hs Hn' He Hsrc.
      pose proof (Ho t' n' e Hn' He) as Hlt. rewrite Hsrc in Hlt.
      apply descending_sorted in Hs. rewrite Hd in Hs.
      apply elem_of_app in Hs as [Hs|Hs]; [done|].
      apply elem_of_cons in Hs as [->|Hs]; [lia|].
      specialize (Hpost t' Hs). lia. }
    intros d1 Hd1.
    pose proof (sweep_upto_ordered _ _ _ _ _ Ho Hd1) as Ho1.
    pose proof (sweep_rest_below free_graph t post d1 Ho1 Hpost) as Hrest.
    split; [exact Hrest|].
    intros d'. rewrite Heq. rewrite (bind_Ok _ _ _ _ _ Hd1). unfold bind.
    destruct (for_each _ post d1) as [[] d2| |]; try done.
    destruct free_graph; simpl; intros [= <-]; exact Hrest.
Qed.

End Sweep.

Lemma ordered_decide {T} (d : Detail T) :
  bool_decide (map_Forall (fun t n => Forall (fun e => source e < t) (edges n))
                 (nodes d)) = true ->
  ordered d.
Proof.
  intros Hb. apply bool_decide_eq_true in Hb. intros t n e Hn He.
  specialize (Hb t n Hn). simpl in Hb. rewrite Forall_forall in Hb. by apply Hb.
Qed.

Lemma backward_descending_witness :
  ordered tape_seeded' /\
  descending (scheduled tape_seeded') = [] ++ 2 :: [1] /\
  sweep_upto false [2; 1] ([] ++ [2]) tape_seeded'
    = Ok tt (exec (backward_target false 2) tape_seeded') /\
  (grad <$> nodes (exec (backward_target false 2) tape_seeded') !! 2) = Some [7%Z] /\
  forall d', backward false tape_seeded' = Ok tt d' ->
    forall k, 2 <= k ->
      nodes d' !! k = nodes (exec (backward_target false 2) tape_seeded') !! k.
Proof.
  assert (Ho : ordered tape_seeded')
    by (apply ordered_decide; vm_compute; reflexivity).
  assert (Hd : descending (scheduled tape_seeded') = [] ++ 2 :: [1])
    by (vm_compute; reflexivity).
  assert (Hu : sweep_upto false (descending (scheduled tape_seeded')) ([] ++ [2])
                 tape_seeded'
               = Ok tt (exec (backward_target false 2) tape_seeded'))
    by (vm_compute; reflexivity).
  destruct (backward_descending false tape_seeded') as (_ & _ & _ & Hg).
  destruct (Hg Ho [] 2 [1] Hd) as (_ & _ & Hk).
  destruct (Hk _ Hu) as [_ Hfin].
  split; [exact Ho|]. split; [exact Hd|].
  split; [vm_compute; reflexivity|]. split; [vm_compute; reflexivity|].
  exact Hfin.
Defined.

(** ** The invariants of the graph *)

Section Wf.
Context {T : Type} `{Scalar T}.

Lemma wf_unique (d : Detail T) t n :
  wf d -> nodes d !! t = Some n -> NoDup (source <$> edges n).
Proof. intros (_ & Hu & _). apply Hu. Qed.

Lemma wf_edge (d : Detail T) t n e :
  wf d -> nodes d !! t = Some n -> e ∈ edges n ->
  source e < t /\ is_Some (nodes d !! source e).
Proof. intros (Ho & _ & Hp & _) Hn He. split; [by eapply Ho|by eapply Hp]. Qed.

Lemma wf_fresh (d : Detail T) : wf d -> nodes d !! node_counter d = None.
Proof.
  intros (_ & _ & _ & Hi). destruct (nodes d !! node_counter d) eqn:Hn; [|done].
  specialize (Hi (node_counter d) ltac:(eauto)). lia.
Qed.

Lemma merge_edge_Some_sources (f : list T -> list T) s (es es' : list (Edge T)) :
  merge_edge f s es = Some es' -> source <$> es' = source <$> es.
Proof.
  revert es'. induction es as [|e es IH]; intros es'; simpl; [done|].
  destruct (decide (source e = s)).
  - by intros [= <-].
  - destruct (merge_edge f s es) as [es0|]; simpl; [|done].
    intros [= <-]. rewrite !fmap_cons. f_equal. by apply IH.
Qed.

Lemma merge_edge_None_inv (f : list T -> list T) s (es : list (Edge T)) :
  merge_edge f s es = None -> s ∉ source <$> es.
Proof.
  induction es as [|e es IH]; simpl; [intros _; apply not_elem_of_nil|].
  destruct (decide (source e = s)); [done|].
  destruct (merge_edge f s es); [done|]. intros _.
  rewrite not_elem_of_cons. split; [done|]. by apply IH.
Qed.

Lemma merge_edge_split (f : list T -> list T) s (es1 es2 : list (Edge T)) e :
  source e = s -> s ∉ source <$> es1 ->
  merge_edge f s (es1 ++ e :: es2) = Some (es1 ++ set_weight (f (weight e)) e :: es2).
Proof.
  intros He. induction es1 as [|e1 es1 IH]; intros Hs; simpl.
  - by rewrite decide_True.
  - rewrite fmap_cons, not_elem_of_cons in Hs. destruct Hs as [Hs1 Hs].
    rewrite decide_False by done. by rewrite IH.
Qed.

Lemma wf_update (d : Detail T) t n n' :
  wf d -> nodes d !! t = Some n ->
  NoDup (source <$> edges n') ->
  (forall e, e ∈ edges n' -> source e < t /\ is_Some (nodes d !! source e)) ->
  wf (set_nodes (<[t := n']> (nodes d)) d) /\
  dom (nodes (set_nodes (<[t := n']> (nodes d)) d)) = dom (nodes d).
Proof.
  intros (Ho & Hu & Hp & Hi) Hn Hnd He.
  assert (Hdom : forall k, is_Some (<[t := n']> (nodes d) !! k) <->
                           is_Some (nodes d !! k)).
  { intros k. destruct (decide (k = t)) as [->|Hk].
    - rewrite lookup_insert_eq, Hn. split; eauto.
    - by rewrite lookup_insert_ne. }
  split; [split; [|split; [|split]]|].
  - intros k nk e. simpl. destruct (decide (k = t)) as [->|Hk].
    + rewrite lookup_insert_eq. intros [= <-] Hin. by apply He.
    + rewrite lookup_insert_ne by done. apply Ho.
  - intros k nk. simpl. destruct (decide (k = t)) as [->|Hk].
    + rewrite lookup_insert_eq. by intros [= <-].
    + rewrite lookup_insert_ne by done. apply Hu.
  - intros k nk e. simpl. rewrite Hdom. destruct (decide (k = t)) as [->|Hk].
    + rewrite lookup_insert_eq. intros [= <-] Hin. by apply He.
    + rewrite lookup_insert_ne by done. apply Hp.
  - intros k. simpl. rewrite Hdom. apply Hi.
  - simpl. apply set_eq. intros k. rewrite !elem_of_dom. apply Hdom.
Qed.

Lemma wf_dom_lookup (d d' : Detail T) k :
  dom (nodes d') = dom (nodes d) ->
  is_Some (nodes d !! k) -> is_Some (nodes d' !! k).
Proof. intros Hd. rewrite <- !elem_of_dom. by rewrite Hd. Qed.

(** A write that keeps the sources of the edges of the node. *)
Lemma modify_node_wf (d : Detail T) t (f : Node T -> Node T) :
  wf d ->
  (forall n, source <$> edges (f n) = source <$> edges n) ->
  wf_result (dom (nodes d)) (modify_node t f d).
Proof.
  intros Hwf Hf. unfold modify_node.
  destruct (nodes d !! t) as [n|] eqn:Hn; [|done]. simpl.
  apply (wf_update d t n (f n) Hwf Hn).
  - rewrite Hf. by eapply wf_unique.
  - intros e He.
    assert (Hs : source e ∈ source <$> edges n).
    { rewrite <- Hf. apply list_elem_of_fmap. by exists e. }
    apply list_elem_of_fmap in Hs as (e0 & -> & He0). by eapply wf_edge.
Qed.

Lemma inc_ref_wf (d : Detail T) i : wf d -> wf_result (dom (nodes d)) (inc_ref i d).
Proof.
  intros Hwf. unfold inc_ref. destruct (decide (i = 0)); [done|].
  by apply modify_node_wf.
Qed.

Lemma wf_result_bind {A B} (D : gset N) (d : Detail T)
    (m : Detail T -> result (Detail T) A)
    (k : A -> Detail T -> result (Detail T) B) :
  wf_result D (m d) ->
  (forall a d', wf d' -> dom (nodes d') = D -> wf_result D (k a d')) ->
  wf_result D (bind m k d).
Proof.
  intros Hm Hk. unfold bind. destruct (m d) as [a d'| e d'|]; try done.
  destruct Hm as [Hw Hd]. by apply Hk.
Qed.


Lemma merge_or_link_wf (d : Detail T) s t nt f w :
  wf d -> nodes d !! t = Some nt -> s < t -> is_Some (nodes d !! s) ->
  wf_result (dom (nodes d)) (merge_or_link s t nt f w d).
Proof.
  intros Hwf Hnt Hst Hs. unfold merge_or_link.
  destruct (merge_edge f s (edges nt)) as [es|] eqn:Hm.
  - apply wf_result_bind.
    + unfold modify_node. rewrite Hnt. simpl.
      apply (wf_update d t nt _ Hwf Hnt); simpl.
      * rewrite (merge_edge_Some_sources _ _ _ _ Hm). by eapply wf_unique.
      * intros e He.
        assert (Hin : source e ∈ source <$> edges nt).
        { rewrite <- (merge_edge_Some_sources _ _ _ _ Hm).
          apply list_elem_of_fmap. by exists e. }
        apply list_elem_of_fmap in Hin as (e0 & -> & He0). by eapply wf_edge.
    + intros _ d' Hwf' Hd'. simpl. split; [|done].
      destruct Hwf' as (Ho & Hu & Hp & Hi). done.
  - apply wf_result_bind.
    + unfold modify_node. rewrite Hnt. simpl.
      apply (wf_update d t nt _ Hwf Hnt); simpl.
      * rewrite fmap_app. apply NoDup_app. split; [by eapply wf_unique|]. split.
        -- intros x Hx Hx'. apply list_elem_of_singleton in Hx'. subst x.
           by apply merge_edge_None_inv in Hm.
        -- apply NoDup_singleton.
      * intros e He. apply elem_of_app in He as [He|He].
        -- by eapply wf_edge.
        -- apply list_elem_of_singleton in He. by subst e.
    + intros _ d' Hwf' Hd'. rewrite <- Hd'. by apply inc_ref_wf.
Qed.

Lemma rank_dom (d d' : Detail T) s :
  dom (nodes d') = dom (nodes d) -> rank d' s = rank d s.
Proof. unfold rank. by intros ->. Qed.

Lemma rank_lt (d : Detail T) gp s :
  gp < s -> is_Some (nodes d !! s) -> (rank d gp < rank d s)%nat.
Proof.
  intros Hlt Hs. unfold rank. apply subset_size.
  apply elem_of_dom in Hs. split.
  - intros k. rewrite !elem_of_filter. intros [? ?]. split; [lia|done].
  - intros Hsub. specialize (Hsub s). rewrite !elem_of_filter in Hsub.
    destruct Hsub; [split; [lia|done]|lia].
Qed.

Lemma rank_le_size (d : Detail T) s : (rank d s <= base.size (nodes d))%nat.
Proof.
  unfold rank. rewrite <- size_dom. apply subseteq_size.
  intros k. rewrite elem_of_filter. tauto.
Qed.





Lemma wf_result_after {A} D (r : result (Detail T) A) : wf_result D r -> wf_after r.
Proof. destruct r; simpl; tauto. Qed.

Lemma wf_empty : wf (empty_tape : Detail T).
Proof.
  split; [|split; [|split]].
  - intros t n e Hn. simpl in Hn. by rewrite lookup_empty in Hn.
  - intros t n Hn. simpl in Hn. by rewrite lookup_empty in Hn.
  - intros t n e Hn. simpl in Hn. by rewrite lookup_empty in Hn.
  - intros t [n Hn]. simpl in Hn. by rewrite lookup_empty in Hn.
Qed.

(** The state after [append_node] on a tape with the invariants. *)
Lemma wf_new_node (d : Detail T) (n0 : Node T) :
  wf d -> node_counter d + 1 < 2 ^ 32 -> edges n0 = [] ->
  wf (set_nodes (<[node_counter d := n0]> (nodes d))
        (set_node_counter (wrap32 (node_counter d + 1)) d)).
Proof.
  intros Hwf Hc He. pose proof (wf_fresh d Hwf) as Hfresh.
  destruct Hwf as (Ho & Hu & Hp & Hi).
  rewrite wrap32_small by done.
  split; [|split; [|split]]; simpl.
  - intros t n e. simpl. destruct (decide (t = node_counter d)) as [->|Ht].
    + rewrite lookup_insert_eq. intros [= <-]. rewrite He. intros Hin.
      by apply elem_of_nil in Hin.
    + rewrite lookup_insert_ne by done. apply Ho.
  - intros t n. simpl. destruct (decide (t = node_counter d)) as [->|Ht].
    + rewrite lookup_insert_eq. intros [= <-]. rewrite He. constructor.
    + rewrite lookup_insert_ne by done. apply Hu.
  - intros t n e. simpl. destruct (decide (t = node_counter d)) as [->|Ht].
    + rewrite lookup_insert_eq. intros [= <-]. rewrite He. intros Hin.
      by apply elem_of_nil in Hin.
    + rewrite lookup_insert_ne by done. intros Hn Hin.
      destruct (Hp t n e Hn Hin) as [ns Hns].
      destruct (decide (source e = node_counter d)) as [Hs|Hs].
      * rewrite Hs in Hns. congruence.
      * rewrite lookup_insert_ne by done. eauto.
  - intros t. simpl. destruct (decide (t = node_counter d)) as [->|Ht]; [lia|].
    rewrite lookup_insert_ne by done. intros Hs. specialize (Hi t Hs). lia.
Qed.

Lemma append_node_wf (sz : N) (l : string) (d : Detail T) :
  wf d -> node_counter d + 1 < 2 ^ 32 ->
  exists d1, append_node sz l d = Ok (node_counter d) d1 /\ wf d1.
Proof.
  intros Hwf Hc. eexists. split; [apply append_node_fresh, wf_fresh, Hwf|].
  by apply wf_new_node.
Qed.





Lemma append_gather_wf (offset : list Z) (mask : list bool) (d : Detail T) :
  wf d -> node_counter d + 1 < 2 ^ 32 -> wf_after (append_gather offset mask d).
Proof.
  intros Hwf Hc. unfold append_gather.
  destruct (scatter_gather_index d) as [src|]; [|done].
  destruct (decide (src = 0)) as [|Hsrc]; [done|].
  unfold bind at 1. unfold node at 1.
  destruct (nodes d !! src) as [ns|] eqn:Hns; [|done].
  destruct (append_node_wf (Arr.vsize offset) "gather" d Hwf Hc)
    as (d1 & Hd1 & Hwf1).
  pose proof Hd1 as Hd1'. rewrite append_node_fresh in Hd1' by (by apply wf_fresh).
  injection Hd1' as Hd1'.
  rewrite (bind_Ok _ _ _ _ _ Hd1).
  assert (Hlt : src < node_counter d) by (apply Hwf; eauto).
  assert (Hn1 : nodes d1 !! node_counter d =
    Some (mkNode (prefixed d "gather") [] []
            (if decide (node_counter d = 0) then 0 else 1)
            (wrap32 (Arr.vsize offset)))).
  { rewrite <- Hd1'. simpl. apply lookup_insert_eq. }
  assert (Hs1 : is_Some (nodes d1 !! src)).
  { rewrite <- Hd1'. simpl. rewrite lookup_insert_ne by lia. eauto. }
  eapply wf_result_after, wf_result_bind.
  { unfold modify_node. rewrite Hn1. simpl.
    apply (wf_update d1 _ _ _ Hwf1 Hn1); simpl.
    - apply NoDup_singleton.
    - intros e He. apply list_elem_of_singleton in He. by subst e. }
  intros _ d2 Hwf2 Hd2. apply wf_result_bind.
  { rewrite <- Hd2. by apply inc_ref_wf. }
  intros _ d3 Hwf3 Hd3. done.
Qed.




End Wf.

Section Invariants.
Context {T : Type} `{Scalar T}.



End Invariants.

Lemma wf_decide {T} (d : Detail T) :
  bool_decide
    (map_Forall (fun t n =>
       t < node_counter d /\ NoDup (source <$> edges n) /\
       Forall (fun e => source e < t /\ is_Some (nodes d !! source e)) (edges n))
       (nodes d)) = true ->
  wf d.
Proof.
  intros Hb. apply bool_decide_eq_true in Hb.
  split; [|split; [|split]].
  - intros t n e Hn He. destruct (Hb t n Hn) as (_ & _ & Hf).
    rewrite Forall_forall in Hf. by apply Hf.
  - intros t n Hn. by destruct (Hb t n Hn) as (_ & ? & _).
  - intros t n e Hn He. destruct (Hb t n Hn) as (_ & _ & Hf).
    rewrite Forall_forall in Hf. by apply Hf.
  - intros t [n Hn]. by destruct (Hb t n Hn) as (? & _).
Qed.


(** ** Lanes of exact integers *)

Section ExactLanes.
Import Arr.











End ExactLanes.

Section Esum.


Lemma esum_ext i F G es :
  (forall e, e ∈ es -> F (source e) = G (source e)) -> esum i F es = esum i G es.
Proof.
  induction es as [|e es IH]; intros Hext; simpl; [done|].
  rewrite Hext by (apply elem_of_cons; by left).
  rewrite IH; [done|]. intros e' He'. apply Hext. apply elem_of_cons. by right.
Qed.

Lemma esum_scale i (c : Z) F es :
  esum i (fun s => c * F s)%Z es = (c * esum i F es)%Z.
Proof. induction es as [|e es IH]; simpl; [lia|]. rewrite IH. lia. Qed.


End Esum.

(** ** Bounds on edge lists *)

Section Contracts.
Context {T : Type} `{Scalar T}.

Lemma NoDup_bounded_length (l : list N) (m : N) :
  NoDup l -> (forall x, x ∈ l -> x < m) -> N.of_nat (length l) <= m.
Proof.
  intros Hnd Hb.
  assert (Hsub : l ⊆+ (N.of_nat <$> seq 0 (N.to_nat m))).
  { apply NoDup_submseteq; [done|]. intros x Hx. apply list_elem_of_fmap.
    exists (N.to_nat x). split; [lia|]. apply elem_of_seq.
    specialize (Hb x Hx). lia. }
  apply submseteq_length in Hsub. rewrite length_fmap, length_seq in Hsub. lia.
Qed.



Lemma edge_frame_lookup t (d d' : Detail T) k :
  edge_frame t d d' -> is_Some (nodes d' !! k) <-> is_Some (nodes d !! k).
Proof.
  intros (Hs & _). specialize (Hs k).
  destruct (nodes d' !! k), (nodes d !! k); simpl in Hs; done.
Qed.

Lemma edge_frame_dom t (d d' : Detail T) :
  edge_frame t d d' -> dom (nodes d') = dom (nodes d).
Proof.
  intros Hf. apply set_eq. intros k. rewrite !elem_of_dom.
  by eapply edge_frame_lookup.
Qed.



End Contracts.

(** ** Wiring edges into a node *)

Section Wired.





Lemma wired_counted sz n t G S (d d' : Detail Z) c :
  wired sz n t G S d d' -> wired sz n t G S d (set_edge_contractions c d').
Proof. intros Hw. exact Hw. Qed.



End Wired.


Section AppendEdgeWired.





End AppendEdgeWired.

(** ** Sweeps that write gradients only *)

Section GradsOnly.
Context {T : Type} `{Scalar T}.

Lemma grads_only_refl (d : Detail T) : grads_only d d.
Proof. done. Qed.

Lemma grads_only_trans (d1 d2 d3 : Detail T) :
  grads_only d1 d2 -> grads_only d2 d3 -> grads_only d1 d3.
Proof.
  intros (Hg1 & Hs1 & Hc1) (Hg2 & Hs2 & Hc2). split; [|split]; [|congruence..].
  intros k. by rewrite Hg2.
Qed.





Lemma grads_result_bind {A B} (d : Detail T)
    (m : Detail T -> result (Detail T) A)
    (k : A -> Detail T -> result (Detail T) B) :
  grads_result d (m d) ->
  (forall a d', grads_result d' (k a d')) ->
  grads_result d (bind m k d).
Proof.
  intros Hm Hk. unfold bind. destruct (m d) as [a d'| e d'|]; simpl in *; try done.
  specialize (Hk a d'). destruct (k a d'); simpl in *; try done;
    by eapply grads_only_trans.
Qed.

Lemma grads_result_for_each {A} (F : A -> Detail T -> result (Detail T) unit)
    (l : list A) :
  (forall a d, grads_result d (F a d)) ->
  forall d, grads_result d (for_each F l d).
Proof.
  intros HF. induction l as [|a l IH]; intros d; simpl; [done|].
  apply grads_result_bind; [apply HF|]. intros _ d'. apply IH.
Qed.

Lemma node_grads i (d : Detail T) : grads_result d (node i d).
Proof. unfold node. by destruct (nodes d !! i). Qed.

Lemma set_grad_grads i g (d : Detail T) :
  grads_result d (modify_node i (set_grad g) d).
Proof.
  unfold modify_node. destruct (nodes d !! i) as [n|] eqn:Hn; [|done].
  simpl. split; [|done]. intros k. simpl.
  destruct (decide (k = i)) as [->|Hk].
  - by rewrite lookup_insert_eq, Hn.
  - by rewrite lookup_insert_ne.
Qed.

Lemma compute_gradients_grads (s : Special) t (e : Edge T) (d : Detail T) :
  grads_result d (compute_gradients s t e d).
Proof.
  unfold compute_gradients.
  apply grads_result_bind; [apply node_grads|]. intros nt d1.
  apply grads_result_bind; [apply node_grads|]. intros ns d2.
  destruct s; apply set_grad_grads.
Qed.

Lemma backward_edge_grads t (ie : nat * Edge T) (d : Detail T) :
  grads_result d (backward_edge false t ie d).
Proof.
  unfold backward_edge. apply grads_result_bind; [|by intros].
  destruct (special (snd ie)) as [s|].
  - apply grads_result_bind; [apply compute_gradients_grads|]. by intros.
  - apply grads_result_bind; [apply node_grads|]. intros ns d1.
    apply grads_result_bind; [apply node_grads|]. intros nt d2.
    apply set_grad_grads.
Qed.

Lemma backward_target_grads t (d : Detail T) :
  grads_result d (backward_target false t d).
Proof.
  unfold backward_target. apply grads_result_bind; [apply node_grads|].
  intros nt d1. apply grads_result_bind.
  { destruct (is_scalar nt && negb (Arr.vsize (grad nt) =? 1)); simpl; [|done].
    apply set_grad_grads. }
  intros _ d2. apply grads_result_bind; [|by intros].
  apply grads_result_for_each. intros ie d3. apply backward_edge_grads.
Qed.




End GradsOnly.

Section Lsum.







End Lsum.

(** ** The sums a sweep keeps *)

Section SweepEdges.



End SweepEdges.



Section SweepTargets.
Variables (sz : N) (n : nat) (d : Detail Z).
Hypothesis Hsz : sz = N.of_nat n.
Hypothesis Hwf : wf d.
Hypothesis Hu : uniform sz n d.
Hypothesis Hcl : closed d.



End SweepTargets.

(** ** Reachable nodes *)

Section Traversal.
Context {T : Type} `{Scalar T}.

Lemma dfs_post_graph cg (d d' : Detail T) :
  dfs_post cg d d' ->
  (forall k, graph_of <$> nodes d' !! k = graph_of <$> nodes d !! k) /\
  settings d' = settings d.
Proof.
  intros (_ & Hf & Hn). split.
  - intros k. rewrite Hn. case_decide; [|done].
    destruct (nodes d !! k) as [n|]; [|done]. simpl. by destruct cg.
  - rewrite Hf. done.
Qed.

Lemma graph_edges_present (d d' : Detail T) :
  (forall k, graph_of <$> nodes d' !! k = graph_of <$> nodes d !! k) ->
  edges_present d -> edges_present d'.
Proof.
  intros Hg Hp t n' e Hn' He. pose proof (Hg t) as Ht. rewrite Hn' in Ht.
  destruct (nodes d !! t) as [n|] eqn:Hn; simpl in Ht; [|done].
  assert (edges n' = edges n) as Hee by (unfold graph_of in Ht; congruence).
  rewrite Hee in He. specialize (Hp t n e Hn He).
  specialize (Hg (source e)). destruct Hp as [ns Hns]. rewrite Hns in Hg.
  by destruct (nodes d' !! source e).
Qed.

Lemma graph_lookup (d d' : Detail T) k :
  (forall k, graph_of <$> nodes d' !! k = graph_of <$> nodes d !! k) ->
  is_Some (nodes d !! k) -> is_Some (nodes d' !! k).
Proof.
  intros Hg [n Hn]. specialize (Hg k). rewrite Hn in Hg.
  by destruct (nodes d' !! k).
Qed.

Lemma reach_graph (d d' : Detail T) k j :
  (forall k, graph_of <$> nodes d' !! k = graph_of <$> nodes d !! k) ->
  reach d k j -> reach d' k j.
Proof.
  intros Hg. induction 1 as [|t nt e Hr IH Hnt He]; [constructor|].
  specialize (Hg t). rewrite Hnt in Hg.
  destruct (nodes d' !! t) as [nt'|] eqn:Hnt'; simpl in Hg; [|done].
  assert (edges nt' = edges nt) as Hee by (unfold graph_of in Hg; congruence).
  apply (reach_step d' k t nt' e IH Hnt'). by rewrite Hee.
Qed.

Lemma reach_trans (d : Detail T) k t j : reach d k t -> reach d t j -> reach d k j.
Proof.
  intros Hkt. induction 1 as [|t' nt e Hr IH Hnt He]; [done|].
  by eapply reach_step.
Qed.


(** The traversal does not throw where the edges name nodes of the store. *)
Lemma dfs_for_each_ok cg (f : nat) (es : list (Edge T)) :
  (forall k d, edges_present d -> is_Some (nodes d !! k) -> (unsched d < f)%nat ->
     exists d', dfs_fuel f k cg d = Ok tt d') ->
  forall d, edges_present d -> (unsched d < f)%nat ->
    (forall e, e ∈ es -> is_Some (nodes d !! source e)) ->
    exists d', for_each (fun e => dfs_fuel f (source e) cg) es d = Ok tt d'.
Proof.
  intros HF. induction es as [|e es IH]; intros d Hp Hf Hs; simpl; [by exists d|].
  destruct (HF (source e) d Hp (Hs e ltac:(apply elem_of_cons; by left)) Hf)
    as (d1 & Hd1).
  pose proof (dfs_fuel_spec f (source e) cg d Hf) as Hspec. rewrite Hd1 in Hspec.
  destruct Hspec as (Hpost & _).
  destruct (dfs_post_graph cg d d1 Hpost) as [Hg _].
  pose proof (dfs_post_unsched cg d d1 Hpost) as Hun.
  destruct (IH d1) as (d2 & Hd2).
  - by eapply graph_edges_present.
  - lia.
  - intros e' He'. apply (graph_lookup d d1 _ Hg). apply Hs.
    apply elem_of_cons. by right.
  - exists d2. unfold bind. by rewrite Hd1.
Qed.

Lemma dfs_fuel_ok (f : nat) (k : N) cg (d : Detail T) :
  edges_present d -> is_Some (nodes d !! k) -> (unsched d < f)%nat ->
  exists d', dfs_fuel f k cg d = Ok tt d'.
Proof.
  revert k d. induction f as [|f IH]; intros k d Hp [n Hn] Hf; [lia|]. simpl.
  destruct (decide (k ∈ scheduled d)) as [Hk|Hk]; [by exists d|].
  unfold bind, node. simpl. rewrite Hn.
  set (d0 := set_scheduled ({[k]} ∪ scheduled d) d).
  assert (Hw : exists d1, when cg (modify_node k (set_grad (Arr.zero (size n)))) d0
                 = Ok tt d1 /\ dfs_post cg d d1 /\ scheduled d1 = {[k]} ∪ scheduled d).
  { destruct cg; simpl.
    - unfold modify_node. simpl. rewrite Hn. eexists. split; [reflexivity|].
      split; [|done]. split; [simpl; set_solver|]. split; [by destruct d|]. simpl.
      intros j. case_decide as Hj.
      + assert (j = k) as -> by set_solver. by rewrite lookup_insert_eq, Hn.
      + rewrite lookup_insert_ne; [done|]. intros ->. set_solver.
    - exists d0. split; [done|]. split; [|done]. split; [simpl; set_solver|].
      split; [by destruct d|]. simpl. intros j. case_decide as Hj; [|done].
      assert (j = k) as -> by set_solver. by rewrite Hn. }
  destruct Hw as (d1 & -> & Hp1 & Hs1).
  assert (Hu : (unsched d1 < unsched d)%nat).
  { unfold unsched. rewrite (dfs_post_dom _ _ _ Hp1), Hs1.
    apply subset_size. apply elem_of_dom_2 in Hn. set_solver. }
  destruct (dfs_post_graph cg d d1 Hp1) as [Hg _].
  destruct (dfs_for_each_ok cg f (edges n) IH d1) as (d2 & Hd2).
  - by eapply graph_edges_present.
  - lia.
  - intros e He. apply (graph_lookup d d1 _ Hg). by eapply Hp.
  - exists d2. by rewrite Hd2.
Qed.

(** Whatever the traversal schedules is reached from its root. *)
Lemma dfs_fuel_reach (f : nat) (k : N) cg (d : Detail T) :
  match dfs_fuel f k cg d with
  | Ok _ d' | Throw _ d' =>
    (forall j, graph_of <$> nodes d' !! j = graph_of <$> nodes d !! j) /\
    forall j, j ∈ scheduled d' -> j ∈ scheduled d \/ reach d k j
  | OutOfFuel => True
  end.
Proof.
  revert k d. induction f as [|f IH]; intros k d; [done|]. simpl.
  destruct (decide (k ∈ scheduled d)) as [Hk|Hk]; [by split; [|left]|].
  unfold bind, node. simpl.
  destruct (nodes d !! k) as [n|] eqn:Hn.
  2:{ simpl. split; [done|]. intros j Hj.
      apply elem_of_union in Hj as [Hj|Hj]; [|by left].
      apply elem_of_singleton in Hj as ->. right. constructor. }
  set (d0 := set_scheduled ({[k]} ∪ scheduled d) d).
  assert (Hw : exists d1, when cg (modify_node k (set_grad (Arr.zero (size n)))) d0
                 = Ok tt d1 /\ scheduled d1 = {[k]} ∪ scheduled d /\
                 forall j, graph_of <$> nodes d1 !! j = graph_of <$> nodes d !! j).
  { destruct cg; simpl.
    - unfold modify_node. simpl. rewrite Hn. eexists. split; [reflexivity|].
      split; [done|]. simpl. intros j. destruct (decide (j = k)) as [->|Hj].
      + by rewrite lookup_insert_eq, Hn.
      + by rewrite lookup_insert_ne.
    - exists d0. done. }
  destruct Hw as (d1 & -> & Hs1 & Hg1).
  assert (Hloop : forall es d1',
    (forall e, e ∈ es -> e ∈ edges n) ->
    (forall j, graph_of <$> nodes d1' !! j = graph_of <$> nodes d !! j) ->
    match for_each (fun e => dfs_fuel f (source e) cg) es d1' with
    | Ok _ d' | Throw _ d' =>
      (forall j, graph_of <$> nodes d' !! j = graph_of <$> nodes d !! j) /\
      forall j, j ∈ scheduled d' -> j ∈ scheduled d1' \/ reach d k j
    | OutOfFuel => True
    end).
  { induction es as [|e es IHes]; intros d1' Hes Hg'; simpl; [by split; [|left]|].
    unfold bind. pose proof (IH (source e) d1') as He.
    assert (Hre : forall j, reach d1' (source e) j -> reach d k j).
    { intros j Hr. apply (reach_trans d k (source e)).
      - eapply reach_step; [constructor|exact Hn|].
        apply Hes. apply elem_of_cons. by left.
      - apply (reach_graph d1' d); [|done]. intros j'. by rewrite Hg'. }
    destruct (dfs_fuel f (source e) cg d1') as [[] d2| e2 d2|]; [| |done].
    - destruct He as [Hg2 Hr2].
      assert (Hg2' : forall j, graph_of <$> nodes d2 !! j = graph_of <$> nodes d !! j).
      { intros j. by rewrite Hg2. }
      specialize (IHes d2 ltac:(intros e' He'; apply Hes, elem_of_cons; by right) Hg2').
      destruct (for_each _ es d2) as [[] d3| e3 d3|]; [| |done].
      + destruct IHes as [Hg3 Hr3]. split; [done|]. intros j Hj.
        destruct (Hr3 j Hj) as [Hj2|Hj2]; [|by right].
        destruct (Hr2 j Hj2) as [Hj1|Hj1]; [by left|right; by apply Hre].
      + destruct IHes as [Hg3 Hr3]. split; [done|]. intros j Hj.
        destruct (Hr3 j Hj) as [Hj2|Hj2]; [|by right].
        destruct (Hr2 j Hj2) as [Hj1|Hj1]; [by left|right; by apply Hre].
    - destruct He as [Hg2 Hr2]. split; [intros j; by rewrite Hg2|].
      intros j Hj. destruct (Hr2 j Hj) as [Hj1|Hj1]; [by left|right; by apply Hre]. }
  specialize (Hloop (edges n) d1 ltac:(done) Hg1).
  destruct (for_each _ (edges n) d1) as [[] d2| e2 d2|]; [| |done].
  - destruct Hloop as [Hg2 Hr2]. split; [done|]. intros j Hj.
    destruct (Hr2 j Hj) as [Hj1|Hj1]; [|by right]. rewrite Hs1 in Hj1.
    apply elem_of_union in Hj1 as [Hj1|Hj1]; [|by left].
    apply elem_of_singleton in Hj1 as ->. right. constructor.
  - destruct Hloop as [Hg2 Hr2]. split; [done|]. intros j Hj.
    destruct (Hr2 j Hj) as [Hj1|Hj1]; [|by right]. rewrite Hs1 in Hj1.
    apply elem_of_union in Hj1 as [Hj1|Hj1]; [|by left].
    apply elem_of_singleton in Hj1 as ->. right. constructor.
Qed.

Lemma closed_reach (d : Detail T) k j :
  closed d -> k ∈ scheduled d -> reach d k j -> j ∈ scheduled d.
Proof.
  intros Hc Hk. induction 1 as [|t nt e Hr IH Hnt He]; [done|].
  destruct (Hc t IH) as (nt' & Hnt' & Hs). apply Hs. congruence.
Qed.

(** What [set_gradient] does on a tape whose edges name nodes of the store
    and whose schedule is closed. *)
Lemma set_gradient_run (d : Detail T) (index : N) (value : list T) :
  edges_present d -> closed d -> index <> 0 -> is_Some (nodes d !! index) ->
  exists d', set_gradient index value d = Ok tt d' /\
    closed d' /\ settings d' = settings d /\
    (forall j, j ∈ scheduled d' <-> j ∈ scheduled d \/ reach d index j) /\
    (forall k, nodes d' !! k =
       (fun n => if decide (k = index) then set_grad value n
                 else if decide (k ∈ scheduled d' /\ k ∉ scheduled d)
                      then set_grad (Arr.zero (size n)) n else n)
       <$> nodes d !! k).
Proof.
  intros Hp Hcl Hi Hin. unfold set_gradient. rewrite decide_False by done.
  unfold bind.
  destruct (dfs_fuel_ok (S (base.size (nodes d))) index true d Hp Hin) as (d1 & Hd1).
  { pose proof (unsched_le_size d). lia. }
  pose proof (dfs_spec index true d) as Hspec.
  pose proof (dfs_fuel_reach (S (base.size (nodes d))) index true d) as Hreach.
  unfold dfs in *. rewrite Hd1 in *.
  destruct Hspec as (Hpost & Hidx & Hcn). destruct Hreach as [Hg Hr].
  pose proof Hpost as (Hsub & Hf & Hn).
  destruct (graph_lookup d d1 index Hg Hin) as [n1 Hn1].
  rewrite (modify_node_Some d1 _ _ _ Hn1). eexists. split; [reflexivity|].
  assert (Hcl1 : closed d1).
  { intros u Hu. destruct (decide (u ∈ scheduled d)) as [Hu0|Hu0].
    - destruct (Hcl u Hu0) as (nu & Hnu & Hs).
      pose proof (Hg u) as Hgu. rewrite Hnu in Hgu.
      destruct (nodes d1 !! u) as [nu1|]; simpl in Hgu; [|done].
      exists nu1. split; [done|]. intros e He. apply Hsub, Hs.
      assert (edges nu1 = edges nu) as <- by (unfold graph_of in Hgu; congruence).
      done.
    - destruct (Hcn u Hu Hu0) as (nu & Hnu & Hs).
      pose proof (Hg u) as Hgu. rewrite Hnu in Hgu.
      destruct (nodes d1 !! u) as [nu1|]; simpl in Hgu; [|done].
      exists nu1. split; [done|]. intros e He. apply Hs.
      assert (edges nu1 = edges nu) as <- by (unfold graph_of in Hgu; congruence).
      done. }
  split; [|split; [|split]].
  - intros u Hu. simpl in Hu. destruct (Hcl1 u Hu) as (nu & Hnu & Hs). simpl.
    destruct (decide (u = index)) as [->|Hne].
    + rewrite lookup_insert_eq. eexists. split; [reflexivity|]. simpl.
      assert (nu = n1) as -> by congruence. done.
    + rewrite lookup_insert_ne by done. eauto.
  - simpl. by destruct (dfs_post_graph true d d1 Hpost).
  - intros j. simpl. split; [apply Hr|]. intros [Hj|Hj]; [by apply Hsub|].
    apply (closed_reach d1 index j Hcl1); [apply Hidx; set_solver|].
    by apply (reach_graph d d1).
  - intros k. simpl. destruct (decide (k = index)) as [->|Hne].
    + rewrite lookup_insert_eq. specialize (Hn index). rewrite Hn1 in Hn.
      destruct (nodes d !! index) as [n0|]; [|by case_decide]. simpl.
      case_decide; simpl in Hn; injection Hn as ->; done.
    + rewrite lookup_insert_ne by done. rewrite Hn.
      destruct (nodes d !! k) as [n0|]; [|by case_decide]. simpl.
      by repeat case_decide.
Qed.

End Traversal.

(** ** The chain rule *)

Section Deriv.




Lemma chain_unique (d : Detail Z) i l C C' :
  ordered d -> chain d i l C -> chain d i l C' ->
  forall t, is_Some (nodes d !! t) -> edges_present d -> C t = C' t.
Proof.
  intros Ho [Hl Hc] [Hl' Hc'] t. induction t as [t IH] using (well_founded_induction N.lt_wf_0).
  intros [nt Hnt] Hp. destruct (decide (t = l)) as [->|Htl]; [congruence|].
  rewrite (Hc t nt Hnt Htl), (Hc' t nt Hnt Htl). apply esum_ext.
  intros e He. apply IH; [by eapply Ho|by eapply Hp|done].
Qed.


End Deriv.

Section Backward.
Context {T : Type} `{Scalar T}.


Lemma backward_false_grads (d : Detail T) :
  match backward false d with
  | Ok _ d' =>
    (forall k, graph_of <$> nodes d' !! k = graph_of <$> nodes d !! k) /\
    settings d' = settings d /\ scheduled d' = ∅
  | Throw _ d' => grads_only d d'
  | OutOfFuel => False
  end.
Proof.
  unfold backward, bind. simpl.
  pose proof (grads_result_for_each (backward_target false)
                (descending (scheduled d)) backward_target_grads d) as Hr.
  destruct (for_each _ _ d) as [[] d'| e d'|]; simpl in *; try done.
  destruct Hr as (Hg & Hs & _). done.
Qed.

End Backward.

Section ChainRule.




End ChainRule.

(** ** Recording an [append] *)

Section Wire.








End Wire.


Section WireRun.





End WireRun.

(** ** Recording with and without contraction *)

Section DerivFrame.





End DerivFrame.

Section LeafRun.


End LeafRun.


Section TwinStep.






End TwinStep.


Section TwinRun.




End TwinRun.


(** ** More on [append_edge] *)


(** [append_edge] takes the contraction loop exactly when [contract_edges]
    is set, the source has an edge, source and target have the same size
    and no edge of the source is a gather or a scatter (the edges of the
    source being counted in an [Index]).  The loop calls [append_edge_prod]
    for each edge of the source, in their order, with the weight of the call
    and the weight of the edge, and counts a contraction; otherwise
    [append_edge] and [append_edge_prod] merge into the edge from the source
    or link a new one. *)
Lemma append_edge_cases {T} `{Scalar T} (d : Detail T) (s t : N)
    (w w2 : list T) (ns nt : Node T) :
  s <> 0 -> s <> t -> nodes d !! s = Some ns -> nodes d !! t = Some nt ->
  N.of_nat (length (edges ns)) < 2 ^ 32 ->
  (contract_edges d = true /\ edges ns <> [] /\ size ns = size nt /\
   Forall (fun e => special e = None) (edges ns) ->
   append_edge s t w d =
   for_each (fun edge =>
       append_edge_prod (source edge) t w (weight edge) ;;
       fun d' => Ok tt (set_edge_contractions (wrap32 (edge_contractions d' + 1)) d'))
     (edges ns) d) /\
  (~ (contract_edges d = true /\ edges ns <> [] /\ size ns = size nt /\
      Forall (fun e => special e = None) (edges ns)) ->
   append_edge s t w d = merge_or_link s t nt (fun w0 => Arr.vadd w0 w) w d /\
   append_edge_prod s t w w2 d =
   merge_or_link s t nt (fun w0 => safe_fmadd w w2 w0) (safe_mul w w2) d).
Proof.
  intros Hs Hst Hns Hnt Hlen.
  pose proof (contracts_spec d ns nt Hlen) as Hspec.
  split.
  - intros Hf. apply Hspec in Hf. rewrite append_edge_unfold by done.
    rewrite decide_False by done. unfold bind.
    by rewrite (node_Some d _ _ Hns), (node_Some d _ _ Hnt), Hf.
  - intros Hf.
    assert (Hc : contracts d ns nt = false).
    { destruct (contracts d ns nt); [|done]. exfalso. by apply Hf, Hspec. }
    split.
    + rewrite append_edge_unfold by done. rewrite decide_False by done. unfold bind.
      by rewrite (node_Some d _ _ Hns), (node_Some d _ _ Hnt), Hc.
    + unfold append_edge_prod. rewrite append_edge_prod_fuel_S by done.
      rewrite decide_False by done. unfold bind.
      by rewrite (node_Some d _ _ Hns), (node_Some d _ _ Hnt), Hc.
Qed.


(** ** More on the sweep and the traversal *)




(** X5.  On a tape whose edges name nodes of the store and whose schedule
    is closed under the edges (as on a tape with nothing scheduled),
    [set_gradient] on an id of the store returns; it schedules, besides what
    was scheduled, exactly the nodes that the edges lead to from the seeded
    node; the schedule is closed again; and [gradient] reads the seed back. *)
Theorem set_gradient_schedules_reachable {T} `{Scalar T} (d : Detail T)
    (index : N) (value : list T) :
  edges_present d -> closed d -> index <> 0 -> is_Some (nodes d !! index) ->
  exists d', set_gradient index value d = Ok tt d' /\
    closed d' /\
    (forall j, j ∈ scheduled d' <-> j ∈ scheduled d \/ reach d index j) /\
    gradient index d' = Ok value d'.
Proof.
  intros Hp Hcl Hi Hin.
  destruct (set_gradient_run d index value Hp Hcl Hi Hin)
    as (d' & Hrun & Hcl' & _ & Hsch & Hn).
  exists d'. split; [done|]. split; [done|]. split; [done|].
  unfold gradient. rewrite decide_False by done. unfold bind, node.
  rewrite Hn. destruct Hin as [n ->]. simpl. by rewrite decide_True.
Qed.

Lemma set_gradient_schedules_reachable_witness :
  edges_present tape_chain /\ closed tape_chain /\
  exists d', set_gradient 2 [7%Z] tape_chain = Ok tt d' /\
    (forall j, j ∈ scheduled d' <-> j ∈ scheduled tape_chain \/ reach tape_chain 2 j) /\
    gradient 2 d' = Ok [7%Z] d'.
Proof.
  assert (Hwf : wf tape_chain) by (apply wf_decide; vm_compute; reflexivity).
  assert (Hp : edges_present tape_chain) by exact (proj1 (proj2 (proj2 Hwf))).
  assert (Hc : closed tape_chain).
  { intros u Hu. vm_compute in Hu. discriminate. }
  assert (Ho : is_Some (nodes tape_chain !! 2)).
  { exists tape_chain_y. vm_compute. reflexivity. }
  assert (H2 : (2 : N) <> 0) by discriminate.
  split; [exact Hp|]. split; [exact Hc|].
  destruct (set_gradient_schedules_reachable tape_chain 2 [7%Z] Hp Hc H2 Ho)
    as (d' & Hrun & _ & Hsch & Hg).
  exists d'. split; [exact Hrun|]. split; [exact Hsch|exact Hg].
Defined.



(** ** Unknown ids *)

Section Poison.
Context {T : Type} `{Scalar T}.

Lemma for_each_poisoned {A} (F : A -> Detail T -> result (Detail T) unit)
    (P : Detail T -> Prop) (k : A) (l : list A) :
  (forall a d, P d ->
     match F a d with Ok _ d' | Throw _ d' => P d' | OutOfFuel => False end) ->
  (forall d, P d -> exists e d', F k d = Throw e d') ->
  k ∈ l -> forall d, P d -> exists e d', for_each F l d = Throw e d' /\ P d'.
Proof.
  intros Hkeep Hthrow. induction l as [|a l IH]; intros Hk d HP.
  - by apply elem_of_nil in Hk.
  - simpl. unfold bind. pose proof (Hkeep a d HP) as Ha.
    destruct (F a d) as [[] d1| e d1|] eqn:HF; [| |done].
    + apply elem_of_cons in Hk as [->|Hk].
      * destruct (Hthrow d HP) as (e & d' & He). congruence.
      * by apply IH.
    + by exists e, d1.
Qed.

Lemma graphviz_dfs_mono (ks : list N) (d : Detail T) :
  match for_each (fun index => dfs index false) ks d with
  | Ok _ d' | Throw _ d' => scheduled d ⊆ scheduled d' /\ nodes d' = nodes d
  | OutOfFuel => False
  end.
Proof.
  revert d. induction ks as [|k l IH]; intros d; simpl; [done|].
  unfold bind. pose proof (dfs_spec k false d) as Hk.
  destruct (dfs k false d) as [[] d1| e d1|]; simpl in Hk; try done.
  - destruct Hk as (Hp & _). pose proof (dfs_post_false _ _ Hp) as Hd1.
    destruct Hp as (Hs & _). specialize (IH d1).
    destruct (for_each _ l d1) as [[] d2| e d2|]; try done.
    all: destruct IH as [Hs2 Hn2]; split; [set_solver|];
      rewrite Hn2, Hd1; by destruct d.
  - pose proof (dfs_post_false _ _ Hk) as Hd1. destruct Hk as (Hs & _).
    split; [done|]. rewrite Hd1. by destruct d.
Qed.

(** X7.  [set_gradient] on an id that is not in the store throws, after its
    traversal has put the id into the scheduled set.  From then on
    [backward], with [free_graph] or without, and [graphviz] throw when they
    come to that id, and the id stays scheduled: nothing clears the
    scheduled set but a [backward] or a [graphviz] that returns. *)
Theorem unknown_id_poisons_schedule (d : Detail T) (index : N) (value : list T) :
  index <> 0 -> nodes d !! index = None -> index ∉ scheduled d ->
  set_gradient index value d =
    Throw (UnknownNode index) (set_scheduled ({[index]} ∪ scheduled d) d) /\
  poisoned index (set_scheduled ({[index]} ∪ scheduled d) d) /\
  forall d1 : Detail T, poisoned index d1 ->
    (forall fg, exists e d2, backward fg d1 = Throw e d2 /\ poisoned index d2) /\
    (forall ks, exists e d2, graphviz ks d1 = Throw e d2 /\ poisoned index d2).
Proof.
  intros Hi Hn Hs. split; [|split].
  - unfold set_gradient. rewrite decide_False by done. unfold bind, dfs. simpl.
    rewrite decide_False by done. unfold bind, node. simpl. by rewrite Hn.
  - split; [simpl; set_solver|done].
  - intros d1 [Hs1 Hn1]. split.
    + intros fg.
      assert (Hin : index ∈ descending (scheduled d1))
        by (by apply descending_sorted).
      unfold backward, bind. destruct fg; simpl.
      * destruct (for_each_poisoned inc_ref
                    (fun d' => scheduled d' = scheduled d1 /\ nodes d' !! index = None)
                    index (descending (scheduled d1))) with (d := d1)
          as (e & d2 & -> & Hs2 & Hn2); [| |done|done|].
        -- intros a d' [Hs' Hn']. unfold inc_ref.
           destruct (decide (a = 0)); [done|]. unfold modify_node.
           destruct (nodes d' !! a) as [na|] eqn:Hna; [|done]. simpl.
           split; [done|]. rewrite lookup_insert_ne; [done|]. congruence.
        -- intros d' [Hs' Hn']. unfold inc_ref. rewrite decide_False by done.
           unfold modify_node. rewrite Hn'. eauto.
        -- exists e, d2. split; [done|]. split; [by rewrite Hs2|done].
      * destruct (for_each_poisoned (backward_target false)
                    (fun d' => scheduled d' = scheduled d1 /\ nodes d' !! index = None)
                    index (descending (scheduled d1))) with (d := d1)
          as (e & d2 & -> & Hs2 & Hn2); [| |done|done|].
        -- intros a d' [Hs' Hn']. pose proof (backward_target_grads a d') as Hg.
           destruct (backward_target false a d') as [[] d''| e d''|];
             simpl in Hg; [| |done].
           all: destruct Hg as (Hg & _ & Hsc); split; [congruence|];
             specialize (Hg index); rewrite Hn' in Hg;
             by destruct (nodes d'' !! index).
        -- intros d' [Hs' Hn']. unfold backward_target, bind, node.
           rewrite Hn'. eauto.
        -- exists e, d2. split; [done|]. split; [by rewrite Hs2|done].
    + intros ks. unfold graphviz. unfold bind at 1.
      pose proof (graphviz_dfs_mono ks d1) as Hdfs.
      destruct (for_each _ ks d1) as [[] d2| e d2|]; [| |done].
      2:{ destruct Hdfs as [Hsub Hnodes]. exists e, d2. split; [done|].
          split; [by apply Hsub|by rewrite Hnodes]. }
      destruct Hdfs as [Hsub Hnodes].
      assert (Hin : index ∈ ascending (scheduled d2)).
      { destruct (descending_sorted (scheduled d2)) as [_ Hmem].
        pose proof (proj2 (Hmem index) (Hsub index Hs1)) as Hd.
        unfold descending in Hd. by rewrite elem_of_reverse in Hd. }
      unfold bind at 1.
      destruct (for_each_poisoned (fun index => let* _ := node index in ret tt)
                  (fun d' => d' = d2) index (ascending (scheduled d2))) with (d := d2)
        as (e & d3 & -> & ->); [| |done|done|].
      * intros a d' ->. unfold bind, node. by destruct (nodes d2 !! a).
      * intros d' ->. unfold bind, node. rewrite Hnodes, Hn1. eauto.
      * exists e, d2. split; [done|]. split; [by apply Hsub|by rewrite Hnodes].
Qed.

End Poison.

Lemma unknown_id_poisons_schedule_witness :
  nodes tape_chain !! 5 = None /\ (5 ∉ scheduled tape_chain) /\
  set_gradient 5 [1%Z] tape_chain =
    Throw (UnknownNode 5) (set_scheduled ({[5]} ∪ scheduled tape_chain) tape_chain) /\
  exists e d2,
    backward false (set_scheduled ({[5]} ∪ scheduled tape_chain) tape_chain)
    = Throw e d2.
Proof.
  assert (Hn : nodes tape_chain !! 5 = None) by (vm_compute; reflexivity).
  assert (Hs : 5 ∉ scheduled tape_chain).
  { intros Hin. vm_compute in Hin. discriminate. }
  assert (H5 : (5 : N) <> 0) by discriminate.
  destruct (unknown_id_poisons_schedule tape_chain 5 [1%Z] H5 Hn Hs)
    as (Hset & Hp & Hlater).
  split; [exact Hn|]. split; [exact Hs|]. split; [exact Hset|].
  destruct (proj1 (Hlater _ Hp) false) as (e & d2 & Hb & _).
  exists e, d2. exact Hb.
Defined.
(** ** Prefixes, reference counts, exact lanes, merged edges *)

Section Prefix.
Context {T : Type} `{Scalar T}.

Lemma string_app_assoc (a b c : string) :
  String.append (String.append a b) c = String.append a (String.append b c).
Proof.
  induction a as [|x a IH]; [done|].
  change (String x (String.append (String.append a b) c)
          = String x (String.append a (String.append b c))).
  by rewrite IH.
Qed.

Lemma prefixed_concat (d : Detail T) (l : string) :
  prefixed d l = String.concat "/" (prefix d ++ [l]).
Proof.
  unfold prefixed. induction (prefix d) as [|p ps IH]; [done|].
  cbn [foldr app String.concat]. rewrite IH, string_app_assoc.
  by destruct (ps ++ [l]) eqn:Hl; [destruct ps|].
Qed.

(** X8.  [pop_prefix] undoes [push_prefix] and throws on an empty prefix
    list, leaving the tape as it is.  A node made inside the prefixes
    [p1 ... pk] by [append_node(size, label)] is labelled
    [p1/.../pk/label]: the prefixes from the outermost to the innermost,
    joined by slashes. *)
Theorem prefix_scopes (d : Detail T) (value l : string) (sz : N) :
  nodes d !! node_counter d = None ->
  (push_prefix value ;; pop_prefix) d = Ok tt d /\
  (prefix d = [] -> pop_prefix d = Throw PrefixUnderflow d) /\
  exists d', append_node sz l d = Ok (node_counter d) d' /\
    (label <$> nodes d' !! node_counter d)
    = Some (String.concat "/" (prefix d ++ [l])) /\
    prefix d' = prefix d.
Proof.
  intros Hfresh. split; [|split].
  - unfold bind, push_prefix, pop_prefix. simpl.
    destruct (prefix d ++ [value]) eqn:Hp.
    { by destruct (prefix d). }
    rewrite <- Hp, removelast_last. by destruct d.
  - intros Hp. unfold pop_prefix. by rewrite Hp.
  - eexists. split; [by apply append_node_fresh|]. simpl.
    rewrite lookup_insert_eq. simpl. by rewrite prefixed_concat.
Qed.

End Prefix.

Lemma prefix_scopes_witness :
  nodes tape_prefixed !! node_counter tape_prefixed = None /\
  prefix tape_prefixed = ["a"; "b"]%string /\
  exists d', append_node 1 "mul" tape_prefixed = Ok 1 d' /\
    (label <$> nodes d' !! 1) = Some "a/b/mul"%string.
Proof.
  assert (Hf : nodes tape_prefixed !! node_counter tape_prefixed = None)
    by (vm_compute; reflexivity).
  split; [exact Hf|]. split; [vm_compute; reflexivity|].
  destruct (prefix_scopes tape_prefixed "c" "mul" 1 Hf) as (_ & _ & d' & Hrun & Hl & _).
  exists d'. split; [exact Hrun|exact Hl].
Defined.

Section RefCountRoundTrip.
Context {T : Type} `{Scalar T}.

(** X9.  [dec_ref] undoes [inc_ref] on a node that is referenced and
    whose count does not wrap.  The count is a [uint32_t]: at [2^32 - 1]
    the increment wraps to zero and the [dec_ref] that follows throws.  On
    a node without edges whose count is zero the pair frees the node. *)
Theorem inc_dec_ref (d : Detail T) (i : N) (n : Node T) :
  i <> 0 -> nodes d !! i = Some n ->
  (0 < ref_count n -> ref_count n + 1 < 2 ^ 32 ->
     (inc_ref i ;; dec_ref i) d = Ok tt d) /\
  (ref_count n + 1 = 2 ^ 32 ->
     (inc_ref i ;; dec_ref i) d =
     Throw (UseAfterFree i) (set_nodes (<[i := set_ref_count 0 n]> (nodes d)) d)) /\
  (ref_count n = 0 -> edges n = [] ->
     (inc_ref i ;; dec_ref i) d = Ok tt (set_nodes (delete i (nodes d)) d)).
Proof.
  intros Hi Hn. unfold bind. rewrite (inc_ref_Some d i n Hi Hn).
  unfold dec_ref. simpl. rewrite decide_False by done.
  unfold bind, node. simpl. rewrite lookup_insert_eq. simpl.
  split; [|split].
  - intros Hpos Hlt. rewrite wrap32_small by done.
    destruct (N.eqb_spec (ref_count n + 1) 0); [lia|].
    unfold modify_node. simpl. rewrite lookup_insert_eq. simpl.
    destruct (N.eqb_spec (ref_count n + 1 - 1) 0); [lia|].
    unfold ret. rewrite insert_insert_eq.
    replace (ref_count n + 1 - 1) with (ref_count n) by lia.
    replace (set_ref_count (ref_count n) (set_ref_count (ref_count n + 1) n))
      with n by (by destruct n).
    rewrite insert_id by done. by destruct d.
  - intros Hw. unfold wrap32. rewrite Hw. rewrite N.Div0.mod_same. simpl.
    unfold throw. by do 2 f_equal.
  - intros Hz He. rewrite Hz. simpl.
    unfold modify_node. simpl. rewrite lookup_insert_eq. simpl.
    unfold free_node_with. simpl. rewrite lookup_insert_eq. simpl. rewrite He.
    simpl. unfold bind, ret. simpl.
    rewrite insert_insert_eq, delete_insert_eq. done.
Qed.

End RefCountRoundTrip.

Lemma inc_dec_ref_witness :
  nodes tape_chain !! 2 = Some tape_chain_y /\
  (inc_ref 2 ;; dec_ref 2) tape_chain = Ok tt tape_chain.
Proof.
  assert (Hn : nodes tape_chain !! 2 = Some tape_chain_y) by (vm_compute; reflexivity).
  assert (H2 : (2 : N) <> 0) by discriminate.
  split; [exact Hn|].
  exact (proj1 (inc_dec_ref tape_chain 2 tape_chain_y H2 Hn) eq_refl eq_refl).
Defined.

Section Twice.
Context {T : Type} `{Scalar T}.

(** X11.  Two edges from one source into one target are one edge with the
    sum of the weights: where the source is not contracted and the target
    has no edge from it, [append_edge(s, t, w1)] followed by
    [append_edge(s, t, w2)] leaves the tape that [append_edge(s, t, w1 + w2)]
    leaves, with one more edge merge counted; the source is referenced once. *)
Theorem append_edge_twice (d : Detail T) (s t : N) (w1 w2 : list T)
    (ns nt : Node T) :
  s <> 0 -> s <> t -> nodes d !! s = Some ns -> nodes d !! t = Some nt ->
  contracts d ns nt = false -> s ∉ source <$> edges nt ->
  exists d', append_edge s t (Arr.vadd w1 w2) d = Ok tt d' /\
    (append_edge s t w1 ;; append_edge s t w2) d =
    Ok tt (set_edge_merges (wrap32 (edge_merges d + 1)) d') /\
    (edges <$> nodes d' !! t) = Some (edges nt ++ [mkEdge s (Arr.vadd w1 w2) None]) /\
    (ref_count <$> nodes d' !! s) = Some (wrap32 (ref_count ns + 1)).
Proof.
  intros Hs Hst Hns Hnt Hc Hnot.
  assert (Hnone : forall f, merge_edge f s (edges nt) = None).
  { intros f. apply merge_edge_None. intros e He Hse. apply Hnot.
    apply list_elem_of_fmap. by exists e. }
  assert (Hone : forall w, append_edge s t w d =
            Ok tt (set_nodes (<[s := set_ref_count (wrap32 (ref_count ns + 1)) ns]>
                     (<[t := node_append_edge (mkEdge s w None) nt]> (nodes d))) d)).
  { intros w. unfold append_edge. rewrite decide_False by done. unfold bind.
    rewrite (node_Some d _ _ Hns), (node_Some d _ _ Hnt), Hc.
    unfold merge_or_link. rewrite Hnone. unfold bind.
    rewrite (modify_node_Some d _ _ _ Hnt).
    rewrite (inc_ref_Some _ s ns Hs); [done|]. simpl. by rewrite lookup_insert_ne. }
  eexists. split; [apply Hone|]. split; [|split].
  - unfold bind at 1. rewrite Hone.
    set (d1 := set_nodes _ d).
    assert (Hns1 : nodes d1 !! s = Some (set_ref_count (wrap32 (ref_count ns + 1)) ns)).
    { unfold d1. simpl. by rewrite lookup_insert_eq. }
    assert (Hnt1 : nodes d1 !! t = Some (node_append_edge (mkEdge s w1 None) nt)).
    { unfold d1. simpl. by rewrite lookup_insert_ne, lookup_insert_eq. }
    unfold append_edge. rewrite decide_False by done. unfold bind.
    rewrite (node_Some d1 _ _ Hns1), (node_Some d1 _ _ Hnt1).
    replace (contracts d1 _ _) with (contracts d ns nt) by done.
    rewrite Hc. unfold merge_or_link. simpl.
    rewrite (merge_edge_split _ s (edges nt) [] (mkEdge s w1 None)) by done.
    unfold bind. rewrite (modify_node_Some d1 _ _ _ Hnt1). simpl.
    do 2 f_equal. unfold d1, set_nodes. simpl. f_equal.
    rewrite (insert_insert_ne (<[t:=_]> (nodes d)) t s) by done.
    by rewrite insert_insert_eq.
  - simpl. by rewrite lookup_insert_ne, lookup_insert_eq.
  - simpl. by rewrite lookup_insert_eq.
Qed.

End Twice.

Lemma append_edge_twice_witness :
  nodes tape_chain_node !! 1 = Some (mkNode "'unnamed'" [0%Z] [] 2 1) /\
  nodes tape_chain_node !! 3 = Some tape_chain_t /\
  exists d', append_edge 1 3 [7%Z] tape_chain_node = Ok tt d' /\
    (append_edge 1 3 [3%Z] ;; append_edge 1 3 [4%Z]) tape_chain_node =
    Ok tt (set_edge_merges (wrap32 (edge_merges tape_chain_node + 1)) d').
Proof.
  assert (H1 : nodes tape_chain_node !! 1 = Some (mkNode "'unnamed'" [0%Z] [] 2 1))
    by (vm_compute; reflexivity).
  assert (H3 : nodes tape_chain_node !! 3 = Some tape_chain_t)
    by (vm_compute; reflexivity).
  split; [exact H1|]. split; [exact H3|].
  destruct (append_edge_twice tape_chain_node 1 3 [3%Z] [4%Z] _ _
              ltac:(discriminate) ltac:(discriminate) H1 H3 eq_refl)
    as (d' & Hone & Htwo & _).
  { apply not_elem_of_nil. }
  exists d'. split; [exact Hone|exact Htwo].
Defined.

Section KeepsGraph.
Context {T : Type} `{Scalar T}.

(** X12.  [backward] without [free_graph] comes to an end and writes
    gradients only: labels, edges, reference counts, sizes, the ids of the
    store, the counters and the settings are what they were, whether it
    returns or throws.  When it returns the scheduled set is empty, so that
    a second [backward] without a new [set_gradient] does nothing. *)
Theorem backward_keeps_graph (d : Detail T) :
  match backward false d with
  | Ok _ d' =>
    (forall k, graph_of <$> nodes d' !! k = graph_of <$> nodes d !! k) /\
    settings d' = settings d /\ scheduled d' = ∅ /\
    backward false d' = Ok tt d'
  | Throw _ d' => grads_only d d'
  | OutOfFuel => False
  end.
Proof.
  pose proof (backward_false_grads d) as Hb.
  destruct (backward false d) as [[] d'| e d'|]; [|done..].
  destruct Hb as (Hg & Hs & Hsc). split; [done|]. split; [done|].
  split; [done|]. by rewrite (backward_nothing_scheduled false d' Hsc).
Qed.

End KeepsGraph.
(** ** Gather and scatter-add *)

Section Gather.
Context {T : Type} `{Scalar T}.

(** X13.  [append_gather] returns 0 and records nothing when no operand is
    installed or the operand is the null id.  It looks the operand up before
    it makes a node: on an operand that is not in the store it throws and
    the tape is as it was.  Otherwise it makes one node, of the size of the
    offsets, labelled ["gather"] under the prefixes, with a default
    gradient and one reference, whose only edge is a [Gather] from the
    operand that records the offsets, the mask, the size of the operand and
    the permute flag, with no weight; the operand is referenced once more,
    and nothing else is written. *)
Theorem append_gather_spec (offset : list Z) (mask : list bool) (d : Detail T) :
  nodes d !! node_counter d = None -> node_counter d <> 0 ->
  (scatter_gather_index d = None \/ scatter_gather_index d = Some 0 ->
     append_gather offset mask d = Ok 0 d) /\
  (forall src, scatter_gather_index d = Some src -> src <> 0 ->
     nodes d !! src = None ->
     append_gather offset mask d = Throw (UnknownNode src) d) /\
  (forall src n, scatter_gather_index d = Some src -> src <> 0 ->
     nodes d !! src = Some n ->
     append_gather offset mask d =
     Ok (node_counter d)
       (set_nodes
          (<[src := set_ref_count (wrap32 (ref_count n + 1)) n]>
             (<[node_counter d :=
                  mkNode (prefixed d "gather") []
                    [mkEdge src []
                       (Some (Gather offset mask (size n) (scatter_gather_permute d)))]
                    1 (wrap32 (Arr.vsize offset))]>
                (nodes d)))
          (set_node_counter (wrap32 (node_counter d + 1)) d))).
Proof.
  intros Hfresh Hc. split; [|split].
  - intros [Hi|Hi]; unfold append_gather; rewrite Hi; [done|].
    by rewrite decide_True.
  - intros src Hi Hs Hn. unfold append_gather. rewrite Hi.
    rewrite decide_False by done. unfold bind. by rewrite (node_None d _ Hn).
  - intros src n Hi Hs Hn. unfold append_gather. rewrite Hi.
    rewrite decide_False by done. unfold bind at 1. rewrite (node_Some d _ _ Hn).
    unfold bind at 1. rewrite (append_node_fresh _ _ d Hfresh).
    rewrite decide_False by done.
    assert (Hsc : src <> node_counter d) by congruence.
    unfold bind, modify_node. simpl. rewrite lookup_insert_eq. simpl.
    unfold inc_ref. rewrite decide_False by done. unfold modify_node. simpl.
    rewrite lookup_insert_ne, lookup_insert_ne, Hn by done. simpl.
    unfold ret. by rewrite insert_insert_eq.
Qed.

End Gather.

Lemma append_gather_spec_witness :
  nodes tape_buffer !! node_counter tape_buffer = None /\
  node_counter tape_buffer = 3 /\
  scatter_gather_index tape_buffer = Some 1 /\
  append_gather [3; 0]%Z [true] tape_buffer = Ok 3 tape_gathered /\
  (edges <$> nodes tape_gathered !! 3)
  = Some [mkEdge 1 [] (Some (Gather [3; 0]%Z [true] 4 false))] /\
  (size <$> nodes tape_gathered !! 3) = Some 2.
Proof.
  assert (Hf : nodes tape_buffer !! node_counter tape_buffer = None)
    by (vm_compute; reflexivity).
  assert (Hc : node_counter tape_buffer <> 0) by discriminate.
  assert (Hi : scatter_gather_index tape_buffer = Some 1) by (vm_compute; reflexivity).
  assert (Hn : nodes tape_buffer !! 1
               = Some (mkNode "'unnamed'" [0; 0; 0; 0]%Z [] 1 4))
    by (vm_compute; reflexivity).
  destruct (append_gather_spec [3; 0]%Z [true] tape_buffer Hf Hc) as (_ & _ & Hrun).
  specialize (Hrun 1 _ Hi ltac:(discriminate) Hn).
  split; [exact Hf|]. split; [vm_compute; reflexivity|]. split; [exact Hi|].
  split; [rewrite Hrun; vm_compute; reflexivity|].
  split; vm_compute; reflexivity.
Defined.

Section ScatterAddSpec.
Context {T : Type} `{Scalar T}.


End ScatterAddSpec.


Section ScatterAdd.
Context {T : Type} `{Scalar T}.

Lemma dfs_fuel_S (f : nat) (k : N) cg (d : Detail T) :
  dfs_fuel (S f) k cg d =
  if decide (k ∈ scheduled d) then Ok tt d
  else
    (let* n := node k in
     when cg (modify_node k (set_grad (Arr.zero (size n)))) ;;
     for_each (fun edge => dfs_fuel f (source edge) cg) (edges n))
    (set_scheduled ({[k]} ∪ scheduled d) d).
Proof. done. Qed.

(** X15.  The scatter operations do not test the source for the null id as
    [append_edge] does: with the source 0 they link the special edge all the
    same, an edge from an id that is not in the store.  [set_gradient] on
    the node they made then throws when its traversal comes to the id 0,
    and leaves both ids scheduled. *)
Theorem scatter_null_source (offset : list Z) (mask : list bool) (d : Detail T)
    (seed : list T) (op : N -> list Z -> list bool -> Detail T -> result (Detail T) unit) :
  op = append_scatter \/ op = append_scatter_add ->
  scatter_gather_index d = Some 0 ->
  nodes d !! node_counter d = None -> node_counter d <> 0 ->
  nodes d !! 0 = None -> scheduled d = ∅ ->
  exists d', op 0 offset mask d = Ok tt d' /\
    (edges <$> nodes d' !! node_counter d)
    = Some [mkEdge 0 [] (Some (Scatter offset mask))] /\
    nodes d' !! 0 = None /\
    scatter_gather_index d' = Some (node_counter d) /\
    exists d2, set_gradient (node_counter d) seed d' = Throw (UnknownNode 0) d2 /\
      poisoned 0 d2 /\ node_counter d ∈ scheduled d2.
Proof.
  intros Hop Hidx Hfresh Hc H0 Hs.
  set (t := node_counter d) in *.
  assert (Hrun : exists l, op 0 offset mask d =
    Ok tt (set_operand (Some t) (scatter_gather_size d) (scatter_gather_permute d)
             (set_nodes
                (<[t := mkNode (prefixed d l) [] [mkEdge 0 [] (Some (Scatter offset mask))]
                          1 (wrap32 (scatter_gather_size d))]> (nodes d))
                (set_node_counter (wrap32 (t + 1)) d)))).
  { destruct Hop as [-> | ->]; [exists "scatter"%string|exists "scatter_add"%string].
    - unfold append_scatter. rewrite Hidx. cbv beta iota.
      unfold bind at 1. rewrite (append_node_fresh _ _ d Hfresh). fold t.
      rewrite (decide_False (P := t = 0)) by done.
      unfold bind, modify_node. simpl. rewrite lookup_insert_eq. simpl.
      unfold write_operand. simpl. by rewrite insert_insert_eq.
    - unfold append_scatter_add. rewrite Hidx. cbv beta iota.
      unfold bind at 1. rewrite (append_node_fresh _ _ d Hfresh). fold t.
      rewrite (decide_False (P := t = 0)) by done.
      unfold bind, modify_node. simpl. rewrite lookup_insert_eq. simpl.
      unfold write_operand. simpl. by rewrite insert_insert_eq. }
  destruct Hrun as (l & Hrun). eexists. split; [exact Hrun|].
  split; [simpl; by rewrite lookup_insert_eq|].
  split; [simpl; by rewrite lookup_insert_ne|]. split; [done|].
  unfold set_gradient. rewrite decide_False by done. unfold bind at 1.
  unfold dfs. simpl nodes. rewrite map_size_insert_None by done.
  rewrite dfs_fuel_S. simpl scheduled. rewrite Hs.
  rewrite decide_False by set_solver.
  unfold bind at 1. unfold node at 1. simpl nodes. rewrite lookup_insert_eq.
  unfold bind at 1. unfold when, modify_node at 1. simpl nodes.
  rewrite lookup_insert_eq. cbn [edges for_each]. unfold bind at 1.
  cbn [source]. rewrite dfs_fuel_S. simpl scheduled.
  rewrite decide_False by set_solver.
  unfold bind at 1. unfold node at 1. simpl nodes.
  rewrite lookup_insert_ne by done. rewrite lookup_insert_ne by done.
  rewrite H0. eexists. split; [reflexivity|]. split.
  - split; [simpl; set_solver|]. simpl.
    rewrite lookup_insert_ne by done. rewrite lookup_insert_ne by done. done.
  - simpl. set_solver.
Qed.

End ScatterAdd.

Lemma scatter_null_source_witness :
  scatter_gather_index tape_plain_buffer = Some 0 /\
  node_counter tape_plain_buffer = 1 /\
  exists d', append_scatter 0 [2%Z] [true] tape_plain_buffer = Ok tt d' /\
    exists d2, set_gradient 1 [1; 1; 1; 1]%Z d' = Throw (UnknownNode 0) d2.
Proof.
  assert (Hi : scatter_gather_index tape_plain_buffer = Some 0)
    by (vm_compute; reflexivity).
  assert (Hf : nodes tape_plain_buffer !! node_counter tape_plain_buffer = None)
    by (vm_compute; reflexivity).
  assert (Hc : node_counter tape_plain_buffer <> 0) by discriminate.
  assert (H0 : nodes tape_plain_buffer !! 0 = None) by (vm_compute; reflexivity).
  assert (Hs : scheduled tape_plain_buffer = ∅) by (vm_compute; reflexivity).
  split; [exact Hi|]. split; [vm_compute; reflexivity|].
  destruct (scatter_null_source [2%Z] [true] tape_plain_buffer [1; 1; 1; 1]%Z
              append_scatter (or_introl eq_refl) Hi Hf Hc H0 Hs)
    as (d' & Hrun & _ & _ & _ & d2 & Hset & _).
  exists d'. split; [exact Hrun|]. exists d2. exact Hset.
Defined.
(** ** Mask registers of eight lanes *)

Section KMask.
Import KMask8.
Local Open Scope Z_scope.

Lemma coeff_testbit (k i : Z) : 0 <= i -> coeff k i = Z.testbit k i.
Proof.
  intros Hi. unfold coeff. rewrite Z.shiftl_1_l.
  destruct (Z.testbit k i) eqn:Hb.
  - apply negb_true_iff, Z.eqb_neq. intros Hz.
    assert (Ht : Z.testbit (Z.land k (2 ^ i)) i = true).
    { rewrite Z.land_spec, Hb, Z.pow2_bits_true by done. done. }
    rewrite Hz, Z.bits_0 in Ht. done.
  - apply negb_false_iff, Z.eqb_eq. apply Z.bits_inj'. intros n Hn.
    rewrite Z.land_spec, Z.bits_0.
    destruct (Z.eq_dec n i) as [->|Hne].
    + by rewrite Hb.
    + rewrite (Z.pow2_bits_false i n) by lia. apply andb_false_r.
Qed.

Lemma cast_mask8 (x : Z) : mask8 (cast x).
Proof. unfold mask8, cast. apply Z.mod_pos_bound. lia. Qed.

Lemma cast_testbit (x i : Z) : 0 <= i < 8 -> Z.testbit (cast x) i = Z.testbit x i.
Proof. intros Hi. unfold cast. apply Z.mod_pow2_bits_low. lia. Qed.

Lemma cast_id (k : Z) : mask8 k -> cast k = k.
Proof. intros Hk. unfold cast. apply Z.mod_small. exact Hk. Qed.

Lemma mask8_high_bits (k n : Z) : mask8 k -> 8 <= n -> Z.testbit k n = false.
Proof.
  intros Hk Hn. rewrite <- (cast_id k Hk). unfold cast.
  apply Z.mod_pow2_bits_high. lia.
Qed.

Lemma mask8_eq (k a : Z) :
  mask8 k -> mask8 a ->
  (forall i, 0 <= i < 8 -> Z.testbit k i = Z.testbit a i) -> k = a.
Proof.
  intros Hk Ha Hb. apply Z.bits_inj'. intros n Hn.
  destruct (Z_lt_dec n 8) as [Hlt|Hge]; [apply Hb; lia|].
  rewrite !mask8_high_bits by (done || lia). done.
Qed.

(** X16.  The operators of a mask register of eight lanes work lane by
    lane: lane [i] of [or_], [and_], [xor_] and [not_] is the disjunction,
    the conjunction, the exclusive or and the negation of the lanes [i] of
    the operands, the result is a value of the register again, and the mask
    made from a [bool] has that [bool] in every lane. *)
Theorem kmask_lanes (k a : Z) (i : Z) (b : bool) :
  mask8 k -> mask8 a -> 0 <= i < Size ->
  (mask8 (or_ k a) /\ mask8 (and_ k a) /\ mask8 (xor_ k a) /\ mask8 (not_ k) /\
   mask8 (of_bool b)) /\
  coeff (or_ k a) i = coeff k i || coeff a i /\
  coeff (and_ k a) i = coeff k i && coeff a i /\
  coeff (xor_ k a) i = xorb (coeff k i) (coeff a i) /\
  coeff (not_ k) i = negb (coeff k i) /\
  coeff (of_bool b) i = b.
Proof.
  intros Hk Ha Hi. unfold Size in Hi.
  split.
  { repeat split; try apply cast_mask8. all: destruct b; apply cast_mask8. }
  rewrite !coeff_testbit by lia. unfold or_, and_, xor_, not_.
  rewrite !cast_testbit by done.
  rewrite Z.lor_spec, Z.land_spec, Z.lxor_spec, Z.lnot_spec by lia.
  do 4 (split; [done|]).
  destruct b; simpl.
  - change (cast (-1)) with 255. 
    assert (Hc : i = 0 \/ i = 1 \/ i = 2 \/ i = 3 \/ i = 4 \/ i = 5 \/ i = 6 \/ i = 7)
      by lia.
    by destruct Hc as [->|[->|[->|[->|[->|[->|[->| ->]]]]]]].
  - change (cast 0) with 0. apply Z.bits_0.
Qed.

(** X17.  [all_] holds exactly when every lane of the register is set,
    [none_] when no lane is, and [any_] when some lane is.  [high_] has the
    lanes 4 to 7 in its lanes 0 to 3 and nothing above; [low_] is the
    register itself: its lanes 0 to 3 are those of the register, and so are
    the lanes 4 to 7, since the half of an [__mmask8] is an [__mmask8]. *)
Theorem kmask_tests (k : Z) :
  mask8 k ->
  (all_ k = true <-> forall i, 0 <= i < Size -> coeff k i = true) /\
  (none_ k = true <-> forall i, 0 <= i < Size -> coeff k i = false) /\
  any_ k = negb (none_ k) /\
  low_ k = k /\
  mask8 (high_ k) /\
  forall i, 0 <= i < Size / 2 ->
    coeff (high_ k) i = coeff k (i + Size / 2) /\
    coeff (high_ k) (i + Size / 2) = false.
Proof.
  intros Hk. unfold Size. change (8 / 2) with 4.
  split; [|split; [|split; [|split; [|split]]]].
  - unfold all_. change (cast (Z.shiftl 1 Size - 1)) with 255. rewrite Z.eqb_eq.
    split.
    + intros -> i Hi. rewrite coeff_testbit by lia.
      assert (Hc : i = 0 \/ i = 1 \/ i = 2 \/ i = 3 \/ i = 4 \/ i = 5 \/ i = 6 \/ i = 7)
        by lia.
      by destruct Hc as [->|[->|[->|[->|[->|[->|[->| ->]]]]]]].
    + intros Hall. apply mask8_eq; [done|done|]. intros i Hi.
      rewrite <- coeff_testbit, Hall by lia.
      assert (Hc : i = 0 \/ i = 1 \/ i = 2 \/ i = 3 \/ i = 4 \/ i = 5 \/ i = 6 \/ i = 7)
        by lia.
      by destruct Hc as [->|[->|[->|[->|[->|[->|[->| ->]]]]]]].
  - unfold none_. change (cast 0) with 0. rewrite Z.eqb_eq. split.
    + intros -> i Hi. rewrite coeff_testbit by lia. apply Z.bits_0.
    + intros Hnone. apply mask8_eq; [done|done|]. intros i Hi.
      rewrite <- coeff_testbit, Hnone, Z.bits_0 by lia. done.
  - done.
  - by apply cast_id.
  - apply cast_mask8.
  - intros i Hi. rewrite !coeff_testbit by lia. unfold high_.
    change (Size / 2) with 4. rewrite !cast_testbit by lia.
    rewrite !Z.shiftr_spec by lia. split; [done|].
    apply mask8_high_bits; [done|lia].
Qed.

End KMask.

Lemma kmask_lanes_witness :
  mask8 170 /\ mask8 204 /\
  KMask8.coeff (KMask8.or_ 170 204) 1 = true /\
  KMask8.coeff (KMask8.not_ 170) 1 = false /\
  KMask8.or_ 170 204 = 238%Z /\ KMask8.not_ 170 = 85%Z.
Proof.
  assert (H1 : mask8 170) by (unfold mask8; lia).
  assert (H2 : mask8 204) by (unfold mask8; lia).
  assert (Hi : (0 <= 1 < KMask8.Size)%Z) by (unfold KMask8.Size; lia).
  destruct (kmask_lanes 170 204 1 true H1 H2 Hi) as (_ & Hor & _ & _ & Hnot & _).
  split; [exact H1|]. split; [exact H2|].
  split; [rewrite Hor; reflexivity|]. split; [rewrite Hnot; reflexivity|].
  split; reflexivity.
Defined.

Lemma kmask_tests_witness :
  mask8 240 /\ KMask8.all_ 240 = false /\ KMask8.high_ 240 = 15%Z /\
  KMask8.low_ 240 = 240%Z /\
  (KMask8.all_ 255 = true <->
   forall i, (0 <= i < KMask8.Size)%Z -> KMask8.coeff 255 i = true).
Proof.
  assert (H1 : mask8 240) by (unfold mask8; lia).
  assert (H2 : mask8 255) by (unfold mask8; lia).
  split; [exact H1|]. split; [reflexivity|]. split; [reflexivity|].
  split; [exact (proj1 (proj2 (proj2 (proj2 (kmask_tests 240 H1))))) |].
  exact (proj1 (kmask_tests 255 H2)).
Defined.
(** ** Exact reference counts *)

Section Counted.
Context {T : Type} `{Scalar T}.

Lemma elem_of_consumers (d : Detail T) k t :
  t ∈ consumers d k <-> exists l, sources_of d t = Some l /\ k ∈ l.
Proof.
  unfold consumers, sources_of. rewrite elem_of_dom. split.
  - intros [nt Hl]. apply map_lookup_filter_Some in Hl as [Hn HP].
    rewrite Hn. simpl. eauto.
  - intros (l & Hl & Hk). destruct (nodes d !! t) as [nt|] eqn:Hn; [|done].
    simpl in Hl. injection Hl as <-. exists nt.
    apply map_lookup_filter_Some. done.
Qed.

Lemma consumers_ext (d d' : Detail T) k :
  (forall t, sources_of d' t = sources_of d t) -> consumers d' k = consumers d k.
Proof.
  intros Hs. apply set_eq. intros t. rewrite !elem_of_consumers. by rewrite Hs.
Qed.

Lemma consumers_link (d d' : Detail T) s t l :
  sources_of d t = Some l -> s ∉ l ->
  sources_of d' t = Some (l ++ [s]) ->
  (forall j, j <> t -> sources_of d' j = sources_of d j) ->
  consumers d' s = {[t]} ∪ consumers d s /\ (t ∉ consumers d s) /\
  forall k, k <> s -> consumers d' k = consumers d k.
Proof.
  intros Hl Hs Hl' Hj. split; [|split].
  - apply set_eq. intros j. rewrite elem_of_union, elem_of_singleton.
    rewrite !elem_of_consumers. destruct (decide (j = t)) as [->|Hne].
    + rewrite Hl'. split; [by left|]. intros _. exists (l ++ [s]).
      split; [done|]. set_solver.
    + rewrite Hj by done. split; [by right|]. by intros [|].
  - rewrite elem_of_consumers. rewrite Hl. intros (l0 & [= <-] & Hin). done.
  - intros k Hk. apply set_eq. intros j. rewrite !elem_of_consumers.
    destruct (decide (j = t)) as [->|Hne].
    + rewrite Hl, Hl'. split.
      * intros (l0 & [= <-] & Hin). exists l. split; [done|]. set_solver.
      * intros (l0 & [= <-] & Hin). exists (l ++ [s]). split; [done|]. set_solver.
    + by rewrite Hj.
Qed.

Lemma size_store_counter (d : Detail T) :
  wf d -> N.of_nat (base.size (dom (nodes d))) <= node_counter d.
Proof.
  intros (_ & _ & _ & Hi). unfold base.size, set_size. simpl.
  apply NoDup_bounded_length; [apply NoDup_elements|].
  intros x Hx. apply Hi. apply elem_of_dom. by apply elem_of_elements.
Qed.

Lemma consumers_bound (d : Detail T) s t :
  wf d -> is_Some (nodes d !! s) -> is_Some (nodes d !! t) -> s <> t ->
  t ∉ consumers d s ->
  N.of_nat (base.size (consumers d s)) + 2 <= node_counter d.
Proof.
  intros Hwf Hs Ht Hst Hnot. pose proof (size_store_counter d Hwf) as Hsz.
  assert (Hsub : consumers d s ⊆ dom (nodes d) ∖ {[s; t]}).
  { intros j Hj. apply elem_of_difference. split.
    - apply elem_of_consumers in Hj as (l & Hl & _). unfold sources_of in Hl.
      apply elem_of_dom. destruct (nodes d !! j); [eauto|done].
    - intros Hin. apply elem_of_union in Hin as [Hin|Hin];
        apply elem_of_singleton in Hin; subst j; [|done].
      apply elem_of_consumers in Hj as (l & Hl & Hin). unfold sources_of in Hl.
      destruct (nodes d !! s) as [ns|] eqn:Hns; [|done]. simpl in Hl.
      injection Hl as <-. apply list_elem_of_fmap in Hin as (e & He & Hin).
      destruct (wf_edge d s ns e Hwf Hns Hin) as [Hlt _]. lia. }
  apply subseteq_size in Hsub. rewrite size_difference in Hsub.
  2:{ intros j Hj. apply elem_of_union in Hj as [Hj|Hj];
        apply elem_of_singleton in Hj; subst j; by apply elem_of_dom. }
  rewrite size_union in Hsub by set_solver. rewrite !size_singleton in Hsub.
  assert (2 <= base.size (dom (nodes d)))%nat.
  { assert (Hsub2 : ({[s; t]} : gset N) ⊆ dom (nodes d)).
    { intros j Hj. apply elem_of_union in Hj as [Hj|Hj];
        apply elem_of_singleton in Hj; subst j; by apply elem_of_dom. }
    apply subseteq_size in Hsub2. rewrite size_union in Hsub2 by set_solver.
    by rewrite !size_singleton in Hsub2. }
  lia.
Qed.

(** A write that keeps the sources of the edges and the counts. *)
Lemma counted_same (d d' : Detail T) :
  counted d ->
  (forall t, sources_of d' t = sources_of d t) ->
  (forall k, ref_count <$> nodes d' !! k = ref_count <$> nodes d !! k) ->
  counted d'.
Proof.
  intros Hc Hs Hr k nk' Hk'. rewrite (consumers_ext d d') by done.
  specialize (Hr k). rewrite Hk' in Hr. simpl in Hr.
  destruct (nodes d !! k) as [nk|] eqn:Hk; [|done]. simpl in Hr.
  injection Hr as ->. by apply Hc.
Qed.

(** A new edge from [s] into [t], with the reference it takes. *)
Lemma counted_link (d d' : Detail T) s t l ns :
  wf d -> counted d -> node_counter d < 2 ^ 32 -> s <> t ->
  nodes d !! s = Some ns -> sources_of d t = Some l -> s ∉ l ->
  sources_of d' t = Some (l ++ [s]) ->
  (forall j, j <> t -> sources_of d' j = sources_of d j) ->
  ref_count <$> nodes d' !! s = Some (wrap32 (ref_count ns + 1)) ->
  (forall k, k <> s -> ref_count <$> nodes d' !! k = ref_count <$> nodes d !! k) ->
  counted d'.
Proof.
  intros Hwf Hc Hlt Hst Hns Hl Hnot Hl' Hj Hrs Hr.
  destruct (consumers_link d d' s t l Hl Hnot Hl' Hj) as (Hcs & Hnt & Hck).
  assert (Ht : is_Some (nodes d !! t)).
  { unfold sources_of in Hl. destruct (nodes d !! t); [eauto|done]. }
  pose proof (consumers_bound d s t Hwf ltac:(eauto) Ht Hst Hnt) as Hb.
  intros k nk' Hk'. destruct (decide (k = s)) as [->|Hk].
  - rewrite Hk' in Hrs. simpl in Hrs. injection Hrs as ->.
    rewrite (Hc s ns Hns), Hcs.
    rewrite size_union by set_solver. rewrite size_singleton.
    rewrite wrap32_small by lia. lia.
  - rewrite Hck by done. specialize (Hr k Hk). rewrite Hk' in Hr. simpl in Hr.
    destruct (nodes d !! k) as [nk|] eqn:Hnk; [|done]. simpl in Hr.
    injection Hr as ->. by apply Hc.
Qed.

Lemma counted_result_bind {A B} (D : gset N) (c : N) (d : Detail T)
    (m : Detail T -> result (Detail T) A)
    (k : A -> Detail T -> result (Detail T) B) :
  counted_result D c (m d) ->
  (forall a d', wf d' -> dom (nodes d') = D -> node_counter d' = c ->
     counted d' -> counted_result D c (k a d')) ->
  counted_result D c (bind m k d).
Proof.
  intros Hm Hk. unfold bind. destruct (m d) as [a d'| e d'|]; try done.
  destruct Hm as (Hw & Hd & Hn & Hc). by apply Hk.
Qed.

Lemma counted_result_for_each {A} (D : gset N) (c : N)
    (F : A -> Detail T -> result (Detail T) unit) (l : list A) :
  (forall a d, a ∈ l -> wf d -> dom (nodes d) = D -> node_counter d = c ->
     counted d -> counted_result D c (F a d)) ->
  forall d, wf d -> dom (nodes d) = D -> node_counter d = c -> counted d ->
    counted_result D c (for_each F l d).
Proof.
  induction l as [|a l IH]; intros HF d Hwf Hd Hn Hc; simpl; [done|].
  apply counted_result_bind; [apply HF; [set_solver|done..]|].
  intros _ d' Hwf' Hd' Hn' Hc'. apply IH; [|done..].
  intros a' d'' Ha'. apply HF. set_solver.
Qed.

Lemma merge_or_link_counted (d : Detail T) s t nt f w :
  wf d -> counted d -> node_counter d < 2 ^ 32 ->
  nodes d !! t = Some nt -> s < t -> is_Some (nodes d !! s) -> s <> 0 ->
  counted_result (dom (nodes d)) (node_counter d) (merge_or_link s t nt f w d).
Proof.
  intros Hwf Hc Hlt Hnt Hst [ns Hns] Hs0.
  pose proof (merge_or_link_wf d s t nt f w Hwf Hnt Hst ltac:(eauto)) as Hw.
  unfold merge_or_link in *.
  destruct (merge_edge f s (edges nt)) as [es|] eqn:Hm.
  - unfold bind, modify_node in *. rewrite Hnt in *. simpl in *.
    destruct Hw as [Hw Hd]. split; [done|]. split; [done|]. split; [done|].
    apply (counted_same d); [done|..].
    + intros j. unfold sources_of. simpl.
      destruct (decide (j = t)) as [->|Hj].
      * rewrite lookup_insert_eq, Hnt. simpl.
        by rewrite (merge_edge_Some_sources _ _ _ _ Hm).
      * by rewrite lookup_insert_ne.
    + intros j. simpl. destruct (decide (j = t)) as [->|Hj].
      * by rewrite lookup_insert_eq, Hnt.
      * by rewrite lookup_insert_ne.
  - assert (Hne : s <> t) by lia.
    unfold bind, modify_node, inc_ref in *. rewrite Hnt in *.
    rewrite decide_False in * by done. unfold modify_node in *. simpl in *.
    rewrite lookup_insert_ne in * by done. rewrite Hns in *. simpl in *.
    destruct Hw as [Hw Hd]. split; [done|]. split; [done|]. split; [done|].
    apply (counted_link d _ s t (source <$> edges nt) ns); try done.
    + unfold sources_of. by rewrite Hnt.
    + by apply merge_edge_None_inv in Hm.
    + unfold sources_of. simpl. rewrite lookup_insert_ne by done.
      rewrite lookup_insert_eq. simpl. by rewrite fmap_app.
    + intros j Hj. unfold sources_of. simpl.
      destruct (decide (j = s)) as [->|Hjs].
      * rewrite lookup_insert_eq. rewrite Hns. done.
      * by rewrite !lookup_insert_ne.
    + simpl. by rewrite lookup_insert_eq.
    + intros k Hk. simpl. rewrite lookup_insert_ne by done.
      destruct (decide (k = t)) as [->|Hkt].
      * by rewrite lookup_insert_eq, Hnt.
      * by rewrite lookup_insert_ne.
Qed.

Lemma append_edge_prod_fuel_counted (f : nat) s t (w1 w2 : list T) (d : Detail T) :
  wf d -> counted d -> node_counter d < 2 ^ 32 -> s < t -> (rank d s < f)%nat ->
  counted_result (dom (nodes d)) (node_counter d)
    (append_edge_prod_fuel f s t w1 w2 d).
Proof.
  revert s w1 w2 d.
  induction f as [|f IH]; intros s w1 w2 d Hwf Hc Hlt Hst Hf; [lia|].
  rewrite append_edge_prod_fuel_S by lia.
  destruct (decide (s = 0)) as [|Hs0]; [done|].
  unfold bind at 1. unfold node at 1.
  destruct (nodes d !! s) as [ns|] eqn:Hns; [|done].
  unfold bind at 1. unfold node at 1.
  destruct (nodes d !! t) as [nt|] eqn:Hnt; [|done].
  destruct (contracts d ns nt).
  - apply counted_result_for_each; [|done..].
    intros e d' He Hwf' Hd' Hn' Hc'.
    destruct (wf_edge d s ns e Hwf Hns He) as [Hlt' Hin].
    apply counted_result_bind.
    + rewrite <- Hd', <- Hn'. apply IH; [done|done|lia|lia|].
      rewrite (rank_dom _ _ _ Hd').
      pose proof (rank_lt d (source e) s Hlt' ltac:(eauto)). lia.
    + intros _ d'' Hwf'' Hd'' Hn'' Hc''. simpl.
      split; [|split; [done|split; [done|]]].
      * destruct Hwf'' as (Ho & Hu & Hp & Hi). done.
      * done.
  - apply merge_or_link_counted; eauto.
Qed.

Lemma append_edge_prod_counted s t (w1 w2 : list T) (d : Detail T) :
  wf d -> counted d -> node_counter d < 2 ^ 32 -> s < t ->
  counted_result (dom (nodes d)) (node_counter d) (append_edge_prod s t w1 w2 d).
Proof.
  intros Hwf Hc Hlt Hst. unfold append_edge_prod.
  apply append_edge_prod_fuel_counted; [done..|].
  pose proof (rank_le_size d s). lia.
Qed.

Lemma append_edge_counted s t (w : list T) (d : Detail T) :
  wf d -> counted d -> node_counter d < 2 ^ 32 -> s < t ->
  counted_result (dom (nodes d)) (node_counter d) (append_edge s t w d).
Proof.
  intros Hwf Hc Hlt Hst. rewrite append_edge_unfold by lia.
  destruct (decide (s = 0)) as [|Hs0]; [done|].
  unfold bind at 1. unfold node at 1.
  destruct (nodes d !! s) as [ns|] eqn:Hns; [|done].
  unfold bind at 1. unfold node at 1.
  destruct (nodes d !! t) as [nt|] eqn:Hnt; [|done].
  destruct (contracts d ns nt).
  - apply counted_result_for_each; [|done..].
    intros e d' He Hwf' Hd' Hn' Hc'.
    destruct (wf_edge d s ns e Hwf Hns He) as [Hlt' Hin].
    apply counted_result_bind.
    + rewrite <- Hd', <- Hn'. apply append_edge_prod_counted; [done|done|lia|lia].
    + intros _ d'' Hwf'' Hd'' Hn'' Hc''. simpl.
      split; [|split; [done|split; [done|]]].
      * destruct Hwf'' as (Ho & Hu & Hp & Hi). done.
      * done.
  - apply merge_or_link_counted; eauto.
Qed.

(** The state after [append_node] on a tape with exact counts. *)
Lemma counted_new_node (d : Detail T) (n0 : Node T) :
  wf d -> counted d -> node_counter d + 1 < 2 ^ 32 ->
  edges n0 = [] -> ref_count n0 = 1 ->
  counted (set_nodes (<[node_counter d := n0]> (nodes d))
             (set_node_counter (wrap32 (node_counter d + 1)) d)).
Proof.
  intros Hwf Hc Hlt He Hr. pose proof (wf_fresh d Hwf) as Hfresh.
  set (d' := set_nodes _ _).
  assert (Hcons : forall k, consumers d' k = consumers d k).
  { intros k. apply set_eq. intros j. rewrite !elem_of_consumers.
    unfold sources_of, d'. simpl.
    destruct (decide (j = node_counter d)) as [->|Hj].
    - rewrite lookup_insert_eq, Hfresh. simpl. rewrite He. split.
      + intros (l & [= <-] & Hin). by apply elem_of_nil in Hin.
      + by intros (l & ? & _).
    - by rewrite lookup_insert_ne. }
  intros k nk. rewrite Hcons. unfold d'. simpl.
  destruct (decide (k = node_counter d)) as [->|Hk].
  - rewrite lookup_insert_eq. intros [= <-]. rewrite Hr.
    assert (Hemp : consumers d (node_counter d) = ∅).
    { apply set_eq. intros j. rewrite elem_of_consumers. split; [|set_solver].
      intros (l & Hl & Hin). unfold sources_of in Hl.
      destruct (nodes d !! j) as [nj|] eqn:Hnj; [|done]. simpl in Hl.
      injection Hl as <-. apply list_elem_of_fmap in Hin as (e & Hs & Hin).
      destruct (wf_edge d j nj e Hwf Hnj Hin) as [_ [ns Hns]].
      rewrite <- Hs in Hns. congruence. }
    rewrite Hemp, size_empty. lia.
  - rewrite lookup_insert_ne by done. apply Hc.
Qed.

Lemma append_node_counted (sz : N) (l : string) (d : Detail T) :
  wf d -> counted d -> node_counter d + 1 < 2 ^ 32 -> 0 < node_counter d ->
  exists d1, append_node sz l d = Ok (node_counter d) d1 /\ wf d1 /\ counted d1 /\
    node_counter d1 = node_counter d + 1 /\
    nodes d1 = <[node_counter d := mkNode (prefixed d l) [] [] 1 (wrap32 sz)]> (nodes d).
Proof.
  intros Hwf Hc Hlt H0. eexists.
  split; [apply append_node_fresh, wf_fresh, Hwf|].
  rewrite decide_False by lia.
  split; [by apply wf_new_node|]. split; [by apply counted_new_node|].
  simpl. split; [by apply wrap32_small|done].
Qed.

Lemma counted_result_after {A} D c (r : result (Detail T) A) :
  0 < c -> counted_result D c r -> counted_after r.
Proof. intros Hc. destruct r; simpl; [| |done]; intros (? & ? & -> & ?); done. Qed.

Lemma append_leaf_counted (sz : N) (d : Detail T) :
  wf d -> counted d -> node_counter d + 1 < 2 ^ 32 -> 0 < node_counter d ->
  counted_after (append_leaf sz d).
Proof.
  intros Hwf Hc Hlt H0. rewrite append_leaf_fresh by (by apply wf_fresh).
  rewrite decide_False by lia. simpl.
  split; [by apply wf_new_node|]. split; [by apply counted_new_node|].
  rewrite wrap32_small by done. lia.
Qed.

Lemma append1_counted l sz i1 (w1 : list T) (d : Detail T) :
  wf d -> counted d -> node_counter d + 1 < 2 ^ 32 -> 0 < node_counter d ->
  i1 < node_counter d ->
  counted_after (append1 l sz i1 w1 d).
Proof.
  intros Hwf Hc Hlt H0 H1. unfold append1. destruct (decide (i1 = 0)); [done|].
  destruct (append_node_counted sz l d Hwf Hc Hlt H0) as (d1 & Hd1 & Hwf1 & Hc1 & Hn1 & _).
  rewrite (bind_Ok _ _ _ _ _ Hd1).
  eapply (counted_result_after _ (node_counter d1)); [lia|].
  apply counted_result_bind; [apply append_edge_counted; [done|done|lia|lia]|].
  intros _ d2 Hwf2 Hd2 Hn2 Hc2. done.
Qed.

Lemma append2_counted l sz i1 i2 (w1 w2 : list T) (d : Detail T) :
  wf d -> counted d -> node_counter d + 1 < 2 ^ 32 -> 0 < node_counter d ->
  i1 < node_counter d -> i2 < node_counter d ->
  counted_after (append2 l sz i1 i2 w1 w2 d).
Proof.
  intros Hwf Hc Hlt H0 H1 H2. unfold append2.
  destruct (decide (i1 = 0 /\ i2 = 0)); [done|].
  destruct (append_node_counted sz l d Hwf Hc Hlt H0) as (d1 & Hd1 & Hwf1 & Hc1 & Hn1 & _).
  rewrite (bind_Ok _ _ _ _ _ Hd1).
  eapply (counted_result_after _ (node_counter d1)); [lia|].
  apply counted_result_bind; [apply append_edge_counted; [done|done|lia|lia]|].
  intros _ d2 Hwf2 Hd2 Hn2 Hc2. apply counted_result_bind.
  { rewrite <- Hd2, <- Hn2. apply append_edge_counted; [done|done|lia|lia]. }
  intros _ d3 Hwf3 Hd3 Hn3 Hc3. done.
Qed.

Lemma append3_counted l sz i1 i2 i3 (w1 w2 w3 : list T) (d : Detail T) :
  wf d -> counted d -> node_counter d + 1 < 2 ^ 32 -> 0 < node_counter d ->
  i1 < node_counter d -> i2 < node_counter d -> i3 < node_counter d ->
  counted_after (append3 l sz i1 i2 i3 w1 w2 w3 d).
Proof.
  intros Hwf Hc Hlt H0 H1 H2 H3. unfold append3.
  destruct (decide (i1 = 0 /\ i2 = 0 /\ i3 = 0)); [done|].
  destruct (append_node_counted sz l d Hwf Hc Hlt H0) as (d1 & Hd1 & Hwf1 & Hc1 & Hn1 & _).
  rewrite (bind_Ok _ _ _ _ _ Hd1).
  eapply (counted_result_after _ (node_counter d1)); [lia|].
  apply counted_result_bind; [apply append_edge_counted; [done|done|lia|lia]|].
  intros _ d2 Hwf2 Hd2 Hn2 Hc2. apply counted_result_bind.
  { rewrite <- Hd2, <- Hn2. apply append_edge_counted; [done|done|lia|lia]. }
  intros _ d3 Hwf3 Hd3 Hn3 Hc3. apply counted_result_bind.
  { rewrite <- Hd3, <- Hn3. apply append_edge_counted; [done|done|lia|lia]. }
  intros _ d4 Hwf4 Hd4 Hn4 Hc4. done.
Qed.

Lemma append_gather_counted (offset : list Z) (mask : list bool) (d : Detail T) :
  wf d -> counted d -> node_counter d + 1 < 2 ^ 32 -> 0 < node_counter d ->
  counted_after (append_gather offset mask d).
Proof.
  intros Hwf Hc Hlt H0.
  pose proof (append_gather_wf offset mask d Hwf Hlt) as Hw.
  unfold append_gather in *.
  destruct (scatter_gather_index d) as [src|]; [|done].
  destruct (decide (src = 0)) as [|Hsrc]; [done|].
  unfold bind at 1. unfold bind at 1 in Hw. unfold node at 1. unfold node at 1 in Hw.
  destruct (nodes d !! src) as [ns|] eqn:Hns; [|done].
  destruct (append_node_counted (Arr.vsize offset) "gather" d Hwf Hc Hlt H0)
    as (d1 & Hd1 & Hwf1 & Hc1 & Hn1 & Hnodes1).
  rewrite (bind_Ok _ _ _ _ _ Hd1) in *.
  assert (Hsrc_lt : src < node_counter d) by (apply Hwf; eauto).
  assert (Hne : src <> node_counter d) by lia.
  unfold bind, modify_node, inc_ref in *. rewrite Hnodes1 in *.
  rewrite lookup_insert_eq in *. rewrite decide_False in * by done.
  unfold modify_node in *. simpl in *.
  rewrite lookup_insert_ne in * by done. rewrite lookup_insert_ne in * by done.
  rewrite Hns in *. simpl in *.
  split; [done|]. split; [|lia].
  apply (counted_link d1 _ src (node_counter d) [] ns); try done.
  - lia.
  - rewrite Hnodes1. by rewrite lookup_insert_ne.
  - unfold sources_of. rewrite Hnodes1. by rewrite lookup_insert_eq.
  - apply not_elem_of_nil.
  - unfold sources_of. simpl. rewrite lookup_insert_ne by done.
    by rewrite lookup_insert_eq.
  - intros j Hj. unfold sources_of. simpl. rewrite Hnodes1.
    destruct (decide (j = src)) as [->|Hjs].
    + rewrite lookup_insert_eq. rewrite lookup_insert_ne by done.
      rewrite Hns. done.
    + by rewrite !(lookup_insert_ne _ _ j) by done.
  - simpl. by rewrite lookup_insert_eq.
  - intros k Hk. simpl. rewrite Hnodes1. rewrite lookup_insert_ne by done.
    destruct (decide (k = node_counter d)) as [->|Hkt].
    + by rewrite !lookup_insert_eq.
    + by rewrite !lookup_insert_ne.
Qed.

Lemma counted_empty : counted (empty_tape : Detail T).
Proof. intros k nk Hk. simpl in Hk. by rewrite lookup_empty in Hk. Qed.

(** X10.  Recording keeps the reference counts exact.  On a tape with the
    invariants of the graph where every node is held once for its variable
    and once by each node with an edge from it, whose counter is neither
    the null id nor at its last value, [append_leaf], the three [append]
    overloads on ids the counter has issued, and [append_gather] end in a
    tape with the same property, whether they return or throw, and whether
    edges are contracted, merged or linked; the tape of [Tape()] has it. *)
Theorem reference_counts_exact (d : Detail T) :
  wf d -> counted d -> 0 < node_counter d -> node_counter d + 1 < 2 ^ 32 ->
  wf (@empty_tape T) /\ counted (@empty_tape T) /\
  (forall sz, counted_after (append_leaf sz d)) /\
  (forall l sz i1 w1, i1 < node_counter d ->
     counted_after (append1 l sz i1 w1 d)) /\
  (forall l sz i1 i2 w1 w2, i1 < node_counter d -> i2 < node_counter d ->
     counted_after (append2 l sz i1 i2 w1 w2 d)) /\
  (forall l sz i1 i2 i3 w1 w2 w3,
     i1 < node_counter d -> i2 < node_counter d -> i3 < node_counter d ->
     counted_after (append3 l sz i1 i2 i3 w1 w2 w3 d)) /\
  (forall offset mask, counted_after (append_gather offset mask d)).
Proof.
  intros Hwf Hc H0 Hlt.
  split; [apply wf_empty|]. split; [apply counted_empty|].
  split; [intros; by apply append_leaf_counted|].
  split; [intros; by apply append1_counted|].
  split; [intros; by apply append2_counted|].
  split; [intros; by apply append3_counted|].
  intros. by apply append_gather_counted.
Qed.

End Counted.

Lemma counted_decide {T} (d : Detail T) :
  bool_decide
    (map_Forall (fun k nk =>
       ref_count nk = 1 + N.of_nat (base.size (consumers d k))) (nodes d)) = true ->
  counted d.
Proof. intros Hb. apply bool_decide_eq_true in Hb. intros k nk Hk. by apply Hb. Qed.

Lemma reference_counts_exact_witness :
  wf tape_chain /\ counted tape_chain /\
  counted_after (append2 "add" 1 1 2 [1%Z] [1%Z] tape_chain) /\
  counted_after (append_gather [3; 0]%Z [true] tape_buffer).
Proof.
  assert (Hwf : wf tape_chain) by (apply wf_decide; vm_compute; reflexivity).
  assert (Hc : counted tape_chain) by (apply counted_decide; vm_compute; reflexivity).
  assert (H0 : 0 < node_counter tape_chain) by (vm_compute; reflexivity).
  assert (Hlt : node_counter tape_chain + 1 < 2 ^ 32) by (vm_compute; reflexivity).
  assert (Hwf' : wf tape_buffer) by (apply wf_decide; vm_compute; reflexivity).
  assert (Hc' : counted tape_buffer) by (apply counted_decide; vm_compute; reflexivity).
  assert (H0' : 0 < node_counter tape_buffer) by (vm_compute; reflexivity).
  assert (Hlt' : node_counter tape_buffer + 1 < 2 ^ 32) by (vm_compute; reflexivity).
  destruct (reference_counts_exact tape_chain Hwf Hc H0 Hlt)
    as (_ & _ & _ & _ & H2 & _ & _).
  destruct (reference_counts_exact tape_buffer Hwf' Hc' H0' Hlt')
    as (_ & _ & _ & _ & _ & _ & Hg).
  split; [exact Hwf|]. split; [exact Hc|].
  split; [apply H2; vm_compute; reflexivity|apply Hg].
Defined.
